(** * lty_agent song dataset tools: lyric cleaning, title keys, store passes

    A shallow embedding of the JavaScript song tools of the repository

      - [src/song/index.js]  (two ingestors, kept in [Ingest1] and [Ingest2]),
      - [src/song/clean_lyrics.js]  ([CleanLyrics]),
      - [src/dataset/song/clean_existing_lyrics.js]  ([CleanExisting]),

    together with the properties their specification states about them.

    JavaScript strings are sequences of UTF-16 code units and are modelled
    as [list N]; the regular expressions of the source are kept as regular
    expressions and run by a small backtracking matcher that follows the
    ECMAScript rules for the constructs the source uses. *)

From Stdlib Require Import NArith ZArith Lia Ascii String DecimalString.
From stdpp Require Import base option list sets gmap strings.

Local Open Scope N_scope.
Set Warnings "-register-all,-clear-no-such-hyp".

(** ** Strings *)

Abbreviation jsstring := (list N).

(** Source literals are written as UTF-8 Rocq strings and decoded to
    UTF-16 code units by [js]. *)
Definition utf16_emit (cp : N) : jsstring :=
  if cp <? 0x10000 then [cp]
  else [0xD800 + (cp - 0x10000) / 0x400; 0xDC00 + (cp - 0x10000) mod 0x400].

Fixpoint utf16_of_utf8 (bs : list N) (cp : N) (need : nat) : jsstring :=
  match bs with
  | [] => []
  | b :: bs' =>
    match need with
    | O =>
      if b <? 0x80 then b :: utf16_of_utf8 bs' 0 O
      else if b <? 0xE0 then utf16_of_utf8 bs' (N.land b 0x1F) 1%nat
      else if b <? 0xF0 then utf16_of_utf8 bs' (N.land b 0x0F) 2%nat
      else utf16_of_utf8 bs' (N.land b 0x07) 3%nat
    | S n =>
      let cp' := N.lor (N.shiftl cp 6) (N.land b 0x3F) in
      match n with
      | O => utf16_emit cp' ++ utf16_of_utf8 bs' 0 O
      | S _ => utf16_of_utf8 bs' cp' n
      end
    end
  end.

Definition js (s : string) : jsstring :=
  utf16_of_utf8 (map N_of_ascii (list_ascii_of_string s)) 0 O.

Definition LF : N := 0x0A.

(** ECMAScript LineTerminator code points. *)
Definition is_line_terminator (c : N) : bool :=
  (c =? 0x0A) || (c =? 0x0D) || (c =? 0x2028) || (c =? 0x2029).

(** What [String.prototype.trim] strips: WhiteSpace and LineTerminator. *)
Definition is_space (c : N) : bool :=
  (c =? 0x09) || (c =? 0x0B) || (c =? 0x0C) || (c =? 0x20) || (c =? 0xA0)
  || (c =? 0x1680) || ((0x2000 <=? c) && (c <=? 0x200A))
  || (c =? 0x202F) || (c =? 0x205F) || (c =? 0x3000) || (c =? 0xFEFF)
  || is_line_terminator c.

Fixpoint trimStart (s : jsstring) : jsstring :=
  match s with
  | c :: s' => if is_space c then trimStart s' else s
  | [] => []
  end.

Definition trimEnd (s : jsstring) : jsstring := rev (trimStart (rev s)).

Definition trim (s : jsstring) : jsstring := trimEnd (trimStart s).

Fixpoint starts_with (p s : jsstring) : bool :=
  match p, s with
  | [], _ => true
  | a :: p', b :: s' => (a =? b) && starts_with p' s'
  | _ :: _, [] => false
  end.

(** [s.includes(sub)] *)
Fixpoint includes (s sub : jsstring) : bool :=
  starts_with sub s ||
  match s with
  | [] => false
  | _ :: s' => includes s' sub
  end.

(** [s.split('\n')]: the pieces between line feeds; never empty. *)
Fixpoint split_lines (s : jsstring) : list jsstring :=
  match s with
  | [] => [[]]
  | c :: s' =>
    if c =? LF then [] :: split_lines s'
    else match split_lines s' with
         | l :: ls => (c :: l) :: ls
         | [] => [[c]]
         end
  end.

(** [lines.join('\n')] *)
Fixpoint join_lines (ls : list jsstring) : jsstring :=
  match ls with
  | [] => []
  | [l] => l
  | l :: ls' => l ++ LF :: join_lines ls'
  end.

Definition nonempty (s : jsstring) : bool :=
  match s with [] => false | _ :: _ => true end.

(** ** Regular expressions

    The fragment of ECMAScript patterns used by the source: character
    classes, sequence, alternation, a greedy optional group, and bounded or
    unbounded repetition of a class, greedy or lazy. *)

Inductive cclass :=
| CChar (c : N)      (* a literal code unit *)
| CDigit             (* \d *)
| CDot.              (* .  without the s flag *)

Definition cclass_match (k : cclass) (x : N) : bool :=
  match k with
  | CChar c => x =? c
  | CDigit => (0x30 <=? x) && (x <=? 0x39)
  | CDot => negb (is_line_terminator x)
  end.

Inductive regex :=
| RClass (k : cclass)
| RSeq (r1 r2 : regex)
| RAlt (r1 r2 : regex)
| ROpt (r : regex)                                       (* (r)?  *)
| RRep (greedy : bool) (k : cclass) (lo : nat) (hi : option nat).
                                       (* k{lo,hi}  or  k{lo,hi}? *)

Definition hi_pred (hi : option nat) : option nat := Nat.pred <$> hi.

Definition hi_more (hi : option nat) : bool :=
  match hi with Some O => false | _ => true end.

(** Backtracking repetition with continuation [k]: the mandatory [lo]
    items first, then either more items before the continuation (greedy)
    or the continuation before more items (lazy). *)
Fixpoint rep_match (greedy : bool) (c : cclass) (lo : nat) (hi : option nat)
    (s : jsstring) (k : jsstring -> option jsstring) {struct s}
    : option jsstring :=
  match lo with
  | S lo' =>
    match s with
    | x :: s' =>
      if cclass_match c x then rep_match greedy c lo' (hi_pred hi) s' k
      else None
    | [] => None
    end
  | O =>
    let more :=
      match s with
      | x :: s' =>
        if cclass_match c x && hi_more hi
        then rep_match greedy c O (hi_pred hi) s' k
        else None
      | [] => None
      end in
    if greedy
    then match more with Some r => Some r | None => k s end
    else match k s with Some r => Some r | None => more end
  end.

Fixpoint re_match (r : regex) (s : jsstring)
    (k : jsstring -> option jsstring) : option jsstring :=
  match r with
  | RClass c =>
    match s with
    | x :: s' => if cclass_match c x then k s' else None
    | [] => None
    end
  | RSeq r1 r2 => re_match r1 s (fun s' => re_match r2 s' k)
  | RAlt r1 r2 =>
    match re_match r1 s k with
    | Some t => Some t
    | None => re_match r2 s k
    end
  | ROpt r1 =>
    match re_match r1 s k with
    | Some t => Some t
    | None => k s
    end
  | RRep g c lo hi => rep_match g c lo hi s k
  end.

(** A match anchored at the start of [s]; the result is what follows it. *)
Definition exec (r : regex) (s : jsstring) : option jsstring :=
  re_match r s Some.

(** Does a match of [r] start anywhere in [s]?  ([r.test(s)]) *)
Fixpoint occurs (r : regex) (s : jsstring) : bool :=
  match exec r s with
  | Some _ => true
  | None => match s with [] => false | _ :: s' => occurs r s' end
  end.

(** [s.replace(/r/g, repl)]: one scan from left to right; a match is
    replaced and the scan resumes right after it, a position without a
    match keeps its code unit.  The patterns of the source never match the
    empty string, so a match always consumes input and a fuel of
    [length s] steps is never exhausted. *)
Fixpoint replace_fuel (r : regex) (repl : jsstring) (fuel : nat)
    (s : jsstring) : jsstring :=
  match fuel with
  | O => s
  | S fuel' =>
    match s with
    | [] => []
    | c :: s' =>
      match exec r s with
      | Some rest => repl ++ replace_fuel r repl fuel' rest
      | None => c :: replace_fuel r repl fuel' s'
      end
    end
  end.

Definition replace_all (r : regex) (repl s : jsstring) : jsstring :=
  replace_fuel r repl (length s) s.

Definition lit (s : string) : regex :=
  match js s with
  | [c] => RClass (CChar c)
  | _ => RClass (CChar 0)
  end.

Definition digits (lo hi : nat) : regex := RRep true CDigit lo (Some hi).

Declare Scope re_scope.
Delimit Scope re_scope with re.
Infix "·" := RSeq (at level 41, right associativity) : re_scope.
Infix "∣" := RAlt (at level 42, right associativity) : re_scope.

(** ** Lyric and title cleaning *)

(** The instrumental-only marker of the catalogue. *)
Definition PURE_MUSIC : jsstring := js "纯音乐，请欣赏".

(** [/\[\d{2}:\d{2}(\.\d{2,3})?\]/g]
    (index.js, first ingestor; clean_existing_lyrics.js) *)
Definition TAG_FRACTION_OPTIONAL : regex :=
  (lit "[" · digits 2 2 · lit ":" · digits 2 2
     · ROpt (lit "." · digits 2 3) · lit "]")%re.

(** [/\[\d{2}:\d{2}(:\d{2})?\.\d{2,3}?\]/g]
    (index.js, second ingestor; clean_lyrics.js) *)
Definition TAG_FRACTION_REQUIRED : regex :=
  (lit "[" · digits 2 2 · lit ":" · digits 2 2
     · ROpt (lit ":" · digits 2 2)
     · lit "." · RRep false CDigit 2 (Some 3%nat) · lit "]")%re.

(** [/\n{3,}/g] *)
Definition THREE_OR_MORE_LF : regex := RRep true (CChar LF) 3 None.

(** [/\(.*?\)|（.*?）/g] *)
Definition BRACKETED : regex :=
  ((lit "(" · RRep false CDot 0 None · lit ")")
   ∣ (lit "（" · RRep false CDot 0 None · lit "）"))%re.

(** [if (!lyrics) return '';  lyrics.replace(tag, '').trim()
                                    .replace(/\n{3,}/g, '\n\n')] *)
Definition cleanLyrics_collapse (lyrics : jsstring) : jsstring :=
  match lyrics with
  | [] => []
  | _ =>
    let cleaned := trim (replace_all TAG_FRACTION_OPTIONAL [] lyrics) in
    replace_all THREE_OR_MORE_LF [LF; LF] cleaned
  end.

(** [if (!lyrics) return '';  lyrics.replace(tag, '').split('\n')
       .map(line => line.trim()).filter(line => line.length > 0).join('\n')] *)
Definition cleanLyrics_lines (lyrics : jsstring) : jsstring :=
  match lyrics with
  | [] => []
  | _ =>
    let cleaned := replace_all TAG_FRACTION_REQUIRED [] lyrics in
    join_lines (filter (fun line => nonempty line = true)
                       (map trim (split_lines cleaned)))
  end.

(** index.js, first ingestor: the dedup key of a title. *)
Definition cleanSongTitle (title : jsstring) : jsstring :=
  trim (replace_all BRACKETED [] title).

(** ** JavaScript values

    The values that [JSON.parse] produces, plus [undefined].  The number
    type and the three operations the source applies to numbers are kept
    abstract. *)

Class Numbers := {
  number : Type;
  number_truthy : number -> bool;            (* neither 0 nor NaN *)
  number_toString : number -> jsstring;      (* String(n) *)
  number_same : number -> number -> bool     (* SameValueZero *)
}.

Inductive value {numbers : Numbers} :=
| VUndefined
| VNull
| VBool (b : bool)
| VNumber (n : number)
| VString (s : jsstring)
| VArray (items : list value)
| VObject (props : list (jsstring * value)).   (* in property order *)

Section Values.
Context {numbers : Numbers}.

Fixpoint str_eqb (a b : jsstring) : bool :=
  match a, b with
  | [], [] => true
  | x :: a', y :: b' => (x =? y) && str_eqb a' b'
  | _, _ => false
  end.

Fixpoint own (props : list (jsstring * value)) (k : jsstring) : option value :=
  match props with
  | [] => None
  | (k', v) :: rest => if str_eqb k' k then Some v else own rest k
  end.

(** [v.k] for a property name [k] that no built-in prototype defines (all
    the names the source reads are such).  [None] is the TypeError of
    reading a property of [null] or [undefined]. *)
Definition prop (v : value) (k : string) : option value :=
  match v with
  | VUndefined | VNull => None
  | VObject props => Some (default VUndefined (own props (js k)))
  | _ => Some VUndefined
  end.

Fixpoint put (props : list (jsstring * value)) (k : jsstring) (x : value)
    : list (jsstring * value) :=
  match props with
  | [] => [(k, x)]
  | (k', v) :: rest =>
    if str_eqb k' k then (k', x) :: rest else (k', v) :: put rest k x
  end.

(** [v.k = x] in strict mode (every source file is an ES module).  A named
    property stored on an array is not part of what [JSON.stringify] prints
    and the source never reads it back, so the array is left as it is. *)
Definition assign (v : value) (k : string) (x : value) : option value :=
  match v with
  | VObject props => Some (VObject (put props (js k) x))
  | VArray items => Some (VArray items)
  | _ => None
  end.

Definition truthy (v : value) : bool :=
  match v with
  | VUndefined | VNull => false
  | VBool b => b
  | VNumber n => number_truthy n
  | VString s => nonempty s
  | VArray _ | VObject _ => true
  end.

Definition is_string (v : value) : bool :=
  match v with VString _ => true | _ => false end.

(** [items.flat()]: one level. *)
Definition flat (items : list value) : list value :=
  concat (map (fun v => match v with VArray xs => xs | _ => [v] end) items).

(** [String(v)].  [None] is the TypeError of an object that cannot be
    converted: one that shadows [toString] with a JSON value. *)
Fixpoint to_String (v : value) : option jsstring :=
  match v with
  | VUndefined => Some (js "undefined")
  | VNull => Some (js "null")
  | VBool true => Some (js "true")
  | VBool false => Some (js "false")
  | VNumber n => Some (number_toString n)
  | VString s => Some s
  | VArray items =>
    (fix go (l : list value) : option jsstring :=
       match l with
       | [] => Some []
       | x :: l' =>
         e ← match x with
             | VUndefined | VNull => Some []
             | _ => to_String x
             end;
         match l' with
         | [] => Some e
         | _ => r ← go l'; Some (e ++ js "," ++ r)
         end
       end) items
  | VObject props =>
    match own props (js "toString") with
    | Some _ => None
    | None => Some (js "[object Object]")
    end
  end.

(** SameValueZero, the equality of [Set.prototype.has].  Two parsed
    objects are never the same object. *)
Definition same_value_zero (a b : value) : bool :=
  match a, b with
  | VUndefined, VUndefined | VNull, VNull => true
  | VBool x, VBool y => Bool.eqb x y
  | VNumber x, VNumber y => number_same x y
  | VString x, VString y => str_eqb x y
  | _, _ => false
  end.

End Values.

(** ** The host: JSON, the file system and the catalogue client *)

Abbreviation path := string.

Inductive event {numbers : Numbers} :=
| ExistsSync (p : path)
| ReadFileSync (p : path)
| WriteFileSync (p : path) (data : jsstring)
| AppendLine (p : path) (record : value)
    (* fs.appendFileSync(p, JSON.stringify(record, null, 0) + '\n') *)
| RenameSync (src dst : path)
| SearchPage (page : Z)   (* meting.search('洛天依', { page, limit: 10 }) *)
| Lyric (id : value)      (* meting.lyric(id) *)
| Delay.                  (* the 500 ms pause *)

Class Host {numbers : Numbers} := {
  JSON_parse : jsstring -> option value;       (* None: SyntaxError *)
  JSON_stringify : value -> jsstring;          (* JSON.stringify(v, null, 0) *)
  World : Type;                                (* the state of the network *)
  meting_search : Z -> World -> option jsstring * World;
  meting_lyric : value -> World -> option jsstring * World
      (* None: the promise is rejected *)
}.

Section IO.
Context {numbers : Numbers} {host : Host}.

Record sys := Sys { net : World; disk : gmap string jsstring }.

(** A computation reads and updates the system and emits the calls it
    makes, in order. *)
Definition IO (A : Type) : Type := sys -> A * sys * list event.

Definition ret {A} (a : A) : IO A := fun s => (a, s, []).

Definition bind {A B} (m : IO A) (f : A -> IO B) : IO B :=
  fun s =>
    let '(a, s1, e1) := m s in
    let '(b, s2, e2) := f a s1 in
    (b, s2, e1 ++ e2).

#[export] Instance IO_ret : MRet IO := @ret.
#[export] Instance IO_bind : MBind IO := fun A B f m => bind m f.

Definition existsSync (p : path) : IO bool :=
  fun s => (bool_decide (is_Some (disk s !! p)), s, [ExistsSync p]).

(** [None]: the file does not exist and the call throws. *)
Definition readFileSync (p : path) : IO (option jsstring) :=
  fun s => (disk s !! p, s, [ReadFileSync p]).

Definition writeFileSync (p : path) (data : jsstring) : IO unit :=
  fun s => (tt, Sys (net s) (<[p := data]> (disk s)), [WriteFileSync p data]).

Definition appendLine (p : path) (record : value) : IO unit :=
  fun s =>
    let old := default [] (disk s !! p) in
    (tt, Sys (net s) (<[p := old ++ JSON_stringify record ++ [LF]]> (disk s)),
     [AppendLine p record]).

Definition search (page : Z) : IO (option jsstring) :=
  fun s =>
    let '(r, w) := meting_search page (net s) in
    (r, Sys w (disk s), [SearchPage page]).

Definition lyric (id : value) : IO (option jsstring) :=
  fun s =>
    let '(r, w) := meting_lyric id (net s) in
    (r, Sys w (disk s), [Lyric id]).

Definition delay : IO unit := fun s => (tt, s, [Delay]).

End IO.

(** A file of JSON lines: [records.map(JSON.stringify).join('\n') + '\n'] *)
Definition jsonl {numbers : Numbers} {host : Host} (records : list value) : jsstring :=
  join_lines (map JSON_stringify records) ++ [LF].

(** [content.split('\n').filter(line => line.trim())] *)
Definition nonblank_lines (content : jsstring) : list jsstring :=
  filter (fun line => nonempty (trim line) = true) (split_lines content).

(** [JSON.parse(line.trim())], the way every reader of the store takes a
    line in. *)
Definition parse_line {numbers : Numbers} {host : Host} (line : jsstring) : option value :=
  JSON_parse (trim line).

(** ** src/song/index.js, first ingestor *)

Module Ingest1.
Section Ingest1.
Context {numbers : Numbers} {host : Host}.

Definition LYRICS_FILE_PATH : path := "song/lyrics.jsonl".

Definition cleanLyrics := cleanLyrics_collapse.

(** The body of the [try] in [loadExistingSongs]: [None] when the line
    adds nothing (a parse error, or no usable [song_title]). *)
Definition existing_title (line : jsstring) : option jsstring :=
  songData ← parse_line line;
  title ← prop songData "song_title";
  (* songTitle = songData.song_title || '';  if (songTitle) ... *)
  if truthy title
  then match title with
       | VString s => Some (cleanSongTitle s)
       | _ => None             (* title.replace is not a function *)
       end
  else None.

Definition loadExistingSongs : IO (gset jsstring) :=
  there ← existsSync LYRICS_FILE_PATH;
  if there : bool
  then
    content ← readFileSync LYRICS_FILE_PATH;
    mret (list_to_set (omap existing_title
                          (nonblank_lines (default [] content))))
  else mret ∅.

(** [song.name] where the source needs a string ([cleanSongTitle]). *)
Definition song_name (song : value) : option jsstring :=
  match prop song "name" with
  | Some (VString s) => Some s
  | _ => None
  end.

(** The [p_masters] block of [getSongLyric] (lines 82-91). *)
Definition p_masters_of (song : value) : option (list value) :=
  artist ← prop song "artist";
  if truthy artist
  then match artist with
       | VArray items => Some (filter (fun item => is_string item = true)
                                      (flat items))
       | _ => s ← to_String artist; Some [VString s]
       end
  else Some [].

(** What [getSongLyric] makes of the reply of [meting.lyric]; [None] is
    the [null] of both the [else] branch and the [catch]. *)
Definition lyric_record (song : value) (reply : option jsstring)
    : option value :=
  lyricResult ← reply;
  lyricData ← JSON_parse lyricResult;
  l ← prop lyricData "lyric";
  if truthy l
  then match l with
       | VString s =>
         if nonempty (trim s) && negb (includes s PURE_MUSIC)
         then
           let cleanedLyrics := cleanLyrics s in
           p_masters ← p_masters_of song;
           name ← prop song "name";
           Some (VObject [(js "song_title", name);
                          (js "p_masters", VArray p_masters);
                          (js "lyrics", VString cleanedLyrics)])
         else None
       | _ => None                 (* l.trim is not a function *)
       end
  else None.

Definition getSongLyric (song : value) : IO (option value) :=
  match prop song "id" with
  | Some id => reply ← lyric id; mret (lyric_record song reply)
  | None => mret None
  end.

(** [if (!lyricData || !lyricData.lyrics) return;  appendFileSync(...)] *)
Definition writeLyricToFile (lyricData : value) : IO unit :=
  match prop lyricData "lyrics" with
  | Some l =>
    if truthy l then appendLine LYRICS_FILE_PATH lyricData else mret tt
  | None => mret tt
  end.

(** [songs.filter(song => !existingSongs.has(cleanSongTitle(song.name)))];
    [None] when [cleanSongTitle] throws on a name that is not a string. *)
Fixpoint new_songs (songs : list value) (existingSongs : gset jsstring)
    : option (list value) :=
  match songs with
  | [] => Some []
  | song :: rest =>
    name ← song_name song;
    keep ← new_songs rest existingSongs;
    Some (if decide (cleanSongTitle name ∈ existingSongs)
          then keep else song :: keep)
  end.

(** [for (const song of newSongs) { ... }] with the set and the counter
    it updates.  An exception leaves the loop; the page's [catch] only
    logs it, so what was updated so far stays. *)
Fixpoint process_songs (newSongs : list value)
    (existingSongs : gset jsstring) (totalNewSongsAdded : nat)
    : IO (gset jsstring * nat) :=
  match newSongs with
  | [] => mret (existingSongs, totalNewSongsAdded)
  | song :: rest =>
    lyricData ← getSongLyric song;
    added ← match lyricData with
            | Some d => writeLyricToFile d;; mret (S totalNewSongsAdded)
            | None => mret totalNewSongsAdded
            end;
    match song_name song with
    | Some name =>
      delay;;
      process_songs rest ({[cleanSongTitle name]} ∪ existingSongs) added
    | None => mret (existingSongs, added)
    end
  end.

(** One iteration of the page loop. *)
Definition process_page (page : Z) (existingSongs : gset jsstring)
    (totalNewSongsAdded : nat) : IO (gset jsstring * nat) :=
  searchResult ← search page;
  match searchResult ≫= JSON_parse with
  | Some (VArray songs) =>
    match new_songs songs existingSongs with
    | Some newSongs => process_songs newSongs existingSongs totalNewSongsAdded
    | None => mret (existingSongs, totalNewSongsAdded)
    end
  | _ => mret (existingSongs, totalNewSongsAdded)
  end.

Fixpoint process_pages (pages : list Z) (existingSongs : gset jsstring)
    (totalNewSongsAdded : nat) : IO (gset jsstring * nat) :=
  match pages with
  | [] => mret (existingSongs, totalNewSongsAdded)
  | page :: rest =>
    '(existingSongs', added) ←
      process_page page existingSongs totalNewSongsAdded;
    process_pages rest existingSongs' added
  end.

(** [for (let page = initialPage; page < initialPage + pageCount; page++)]
    The page numbers are integers, as they are while the doubles of the
    source count exactly (see [safe_pages]). *)
Definition page_range (initialPage pageCount : Z) : list Z :=
  map (fun i => (initialPage + Z.of_nat i)%Z) (seq 0 (Z.to_nat pageCount)).

(** The result is what the last two log lines report: the number of songs
    added and [existingSongs.size]. *)
Definition searchLuoTianyiSongs (initialPage pageCount : Z) : IO (nat * nat) :=
  existingSongs ← loadExistingSongs;
  there ← existsSync LYRICS_FILE_PATH;
  (if there : bool then mret tt else writeFileSync LYRICS_FILE_PATH []);;
  '(existingSongs', totalNewSongsAdded) ←
    process_pages (page_range initialPage pageCount) existingSongs 0%nat;
  mret (totalNewSongsAdded, size existingSongs').

End Ingest1.
End Ingest1.

(** ** src/song/index.js, second ingestor *)

Module Ingest2.
Section Ingest2.
Context {numbers : Numbers} {host : Host}.

Definition LYRICS_FILE_PATH : path := "song/lyrics.jsonl".

Definition cleanLyrics := cleanLyrics_lines.

(** A JavaScript [Set] of arbitrary values, in insertion order. *)
Definition has (set : list value) (v : value) : bool :=
  existsb (same_value_zero v) set.

Definition add (set : list value) (v : value) : list value :=
  if has set v then set else set ++ [v].

(** The body of the inner [try] of [loadExistingSongs]. *)
Definition load_line (existingSongs : list value) (line : jsstring)
    : list value :=
  match parse_line line ≫= (fun songData => prop songData "song_title") with
  | Some title => if truthy title then add existingSongs title else existingSongs
  | None => existingSongs
  end.

Definition loadExistingSongs : IO (list value) :=
  there ← existsSync LYRICS_FILE_PATH;
  if there : bool
  then
    content ← readFileSync LYRICS_FILE_PATH;
    mret (foldl load_line [] (nonblank_lines (default [] content)))
  else mret [].

(** [{ success: true, lyric }] is [Some lyric]; both failure results are
    [None]. *)
Definition lyric_text (song : value) (reply : option jsstring)
    : option jsstring :=
  lyricResult ← reply;
  lyricData ← JSON_parse lyricResult;
  l ← prop lyricData "lyric";
  if truthy l
  then match l with
       | VString s => if nonempty (trim s) then Some s else None
       | _ => None                 (* l.trim is not a function *)
       end
  else None.

Definition getSongLyric (song : value) : IO (option jsstring) :=
  match prop song "id" with
  | Some id => reply ← lyric id; mret (lyric_text song reply)
  | None => mret None
  end.

(** [for (const song of songs) { ... }]: the set, [newSongs] and
    [skippedSongs]. *)
Fixpoint process_songs (songs : list value) (existingSongs : list value)
    (newSongs skippedSongs : nat) : IO (list value * nat * nat) :=
  match songs with
  | [] => mret (existingSongs, newSongs, skippedSongs)
  | song :: rest =>
    match prop song "name", prop song "artist" with
    | Some songTitle, Some artist =>
      (* line 333 prints the title in a template literal, which converts
         it to a string: a TypeError when it cannot be converted *)
      match to_String songTitle with
      | Some _ =>
        if has existingSongs songTitle
        then process_songs rest existingSongs newSongs (S skippedSongs)
        else
          lyricResult ← getSongLyric song;
          match lyricResult with
          | Some l =>
            let cleanedLyric := cleanLyrics l in
            if includes cleanedLyric PURE_MUSIC
            then process_songs rest existingSongs newSongs skippedSongs
            else
              let songData := VObject [(js "song_title", songTitle);
                                       (js "p_masters", artist);
                                       (js "lyrics", VString cleanedLyric)] in
              appendLine LYRICS_FILE_PATH songData;;
              delay;;
              process_songs rest (add existingSongs songTitle)
                            (S newSongs) skippedSongs
          | None => process_songs rest existingSongs newSongs skippedSongs
          end
      | None => mret (existingSongs, newSongs, skippedSongs)
                                   (* the title does not print: page left *)
      end
    | _, _ => mret (existingSongs, newSongs, skippedSongs)
                                   (* song is null: TypeError, page left *)
    end
  end.

Definition process_page (page : Z) (existingSongs : list value)
    (newSongs skippedSongs : nat) : IO (list value * nat * nat) :=
  searchResult ← search page;
  match searchResult ≫= JSON_parse with
  | Some (VArray songs) =>
    process_songs songs existingSongs newSongs skippedSongs
  | _ => mret (existingSongs, newSongs, skippedSongs)
  end.

Fixpoint process_pages (pages : list Z) (existingSongs : list value)
    (newSongs skippedSongs : nat) : IO (list value * nat * nat) :=
  match pages with
  | [] => mret (existingSongs, newSongs, skippedSongs)
  | page :: rest =>
    '(existingSongs', newSongs', skippedSongs') ←
      process_page page existingSongs newSongs skippedSongs;
    process_pages rest existingSongs' newSongs' skippedSongs'
  end.

(** The result is what the log reports: [newSongs], [skippedSongs] and
    [existingSongs.size]. *)
Definition searchLuoTianyiSongs (initialPage pageCount : Z)
    : IO (nat * nat * nat) :=
  existingSongs ← loadExistingSongs;
  '(existingSongs', newSongs, skippedSongs) ←
    process_pages (Ingest1.page_range initialPage pageCount)
                  existingSongs 0%nat 0%nat;
  mret (newSongs, skippedSongs, length existingSongs').

End Ingest2.
End Ingest2.

(** ** src/song/clean_lyrics.js *)

Module CleanLyrics.
Section CleanLyrics.
Context {numbers : Numbers} {host : Host}.

Definition cleanLyrics := cleanLyrics_lines.

Definition NOT_FOUND : jsstring := js "未找到歌词".
Definition FETCH_FAILED : jsstring := js "获取歌词失败".

(** What the body of the line loop does with a line. *)
Inductive outcome :=
| Kept (cleanedLyrics : jsstring)   (* the line goes on with these lyrics *)
| Skipped                           (* [continue] *)
| Thrown.                           (* a TypeError, caught and logged by the
                                       [catch] of the line *)

(** Lines 46-59 of [processJsonlFile], for a parsed line. *)
Definition usable_lyrics (songData : value) : outcome :=
  match prop songData "lyrics" with
  | None => Thrown
  | Some l =>
    (* songData.lyrics || songData.get('lyrics', '') || '' : an object made
       by JSON.parse has no callable [get], so a falsy [lyrics] throws *)
    if truthy l
    then match l with
         | VString lyrics =>
           if str_eqb lyrics NOT_FOUND || includes lyrics FETCH_FAILED
              || str_eqb lyrics PURE_MUSIC
           then Skipped
           else
             let cleanedLyrics := cleanLyrics lyrics in
             if negb (nonempty (trim cleanedLyrics))
                || includes cleanedLyrics PURE_MUSIC
             then Skipped
             else Kept cleanedLyrics
         | VArray items =>
           (* an array answers [includes]; [cleanLyrics] then fails on it *)
           if existsb (same_value_zero (VString FETCH_FAILED)) items
           then Skipped else Thrown
         | _ => Thrown              (* lyrics.includes is not a function *)
         end
    else Thrown
  end.

End CleanLyrics.
End CleanLyrics.

(** ** src/dataset/song/clean_existing_lyrics.js *)

Module CleanExisting.
Section CleanExisting.
Context {numbers : Numbers} {host : Host}.

Definition LYRICS_FILE_PATH : path := "dataset/song/lyrics.jsonl".
Definition TEMP_FILE_PATH : path := "dataset/song/lyrics_temp.jsonl".

Definition cleanLyrics := cleanLyrics_collapse.

(** [None]: [String(p_masters)] throws. *)
Definition cleanP_masters (p_masters : value) : option (list value) :=
  match p_masters with
  | VArray items =>
    Some (filter (fun item => is_string item = true) (flat items))
  | VString s => Some [VString s]
  | _ =>
    if truthy p_masters
    then s ← to_String p_masters; Some [VString s]
    else Some []
  end.

(** Lines 75-81: what the loop does to a parsed line; [None] when it
    throws. *)
Definition clean_record (songData : value) : option value :=
  l ← prop songData "lyrics";
  songData1 ←
    (if truthy l
     then match l with
          | VString lyrics => assign songData "lyrics" (VString (cleanLyrics lyrics))
          | _ => None              (* lyrics.replace is not a function *)
          end
     else Some songData);
  p ← prop songData1 "p_masters";
  cleaned ← cleanP_masters p;
  assign songData1 "p_masters" (VArray cleaned).

(** The body of the [try] of the line loop: the cleaned record, or [None]
    when anything in it throws. *)
Definition process_line (line : jsstring) : option value :=
  songData ← parse_line line;
  clean_record songData.

(** The line loop: [processedLinesArray], [processedLines], [skippedLines]. *)
Fixpoint process_lines (lines : list jsstring)
    (processedLinesArray : list value) (processedLines skippedLines : nat)
    : list value * nat * nat :=
  match lines with
  | [] => (processedLinesArray, processedLines, skippedLines)
  | line :: rest =>
    match process_line line with
    | Some songData =>
      process_lines rest (processedLinesArray ++ [songData])
                    (S processedLines) skippedLines
    | None =>
      process_lines rest processedLinesArray processedLines (S skippedLines)
    end
  end.

(** The result is [None] when the file is missing, and otherwise the
    records written with the two counters that are logged. *)
Definition cleanExistingLyrics : IO (option (list value * nat * nat)) :=
  there ← existsSync LYRICS_FILE_PATH;
  if there : bool
  then
    content ← readFileSync LYRICS_FILE_PATH;
    let lines := nonblank_lines (default [] content) in
    let '(processedLinesArray, processedLines, skippedLines) :=
      process_lines lines [] 0%nat 0%nat in
    writeFileSync LYRICS_FILE_PATH (jsonl processedLinesArray);;
    mret (Some (processedLinesArray, processedLines, skippedLines))
  else mret None.

End CleanExisting.
End CleanExisting.

(** ** The metadata extractor *)

Module MetadataExtractor.

(** The fixed role vocabulary of the song record. *)
Definition ROLES : list jsstring :=
  map js ["作词"; "作曲"; "编曲"; "制作人"; "混音"; "母带"; "美工";
          "配唱制作人"; "监制"]%string.

Definition is_colon (c : N) : bool := (c =? 0x3A) || (c =? 0xFF1A).

(** What follows the role on a credit line: a half-width or full-width
    colon with optional whitespace around it, then the name. *)
Definition credit_name (rest : jsstring) : option jsstring :=
  match trimStart rest with
  | c :: rest' =>
    if is_colon c
    then let name := trimStart rest' in
         if nonempty name then Some name else None
    else None
  | [] => None
  end.

Fixpoint credit_in (roles : list jsstring) (line : jsstring)
    : option (jsstring * jsstring) :=
  match roles with
  | [] => None
  | role :: roles' =>
    if starts_with role line
    then match credit_name (drop (length role) line) with
         | Some name => Some (role, name)
         | None => credit_in roles' line
         end
    else credit_in roles' line
  end.

(** Modelled from the spec: the credit-line pattern of the MetadataExtractor
    (section 4.3); the script that implements it, [clean_data.py], is named
    by the dataset README but is not among the sources.  A line is a credit
    line when it begins with a role name, then a colon, then the name. *)
Definition credit (line : jsstring) : option (jsstring * jsstring) :=
  credit_in ROLES line.

Definition is_credit (line : jsstring) : bool :=
  match credit line with Some _ => true | None => false end.

(** Modelled from the spec: the scan of the MetadataExtractor over the line
    sequence (section 4.3, [clean_data.py] is missing): a credit line is
    removed and its pair recorded, a later line for the same role replacing
    an earlier one; every other line is kept, in order. *)
Fixpoint extract_lines (lines : list jsstring)
    (metadataMap : gmap jsstring jsstring)
    : list jsstring * gmap jsstring jsstring :=
  match lines with
  | [] => ([], metadataMap)
  | line :: rest =>
    match credit line with
    | Some (role, name) => extract_lines rest (<[role := name]> metadataMap)
    | None =>
      let '(residual, m) := extract_lines rest metadataMap in
      (line :: residual, m)
    end
  end.

(** Modelled from the spec: [extract(cleanedText) -> (residualLyrics,
    metadataMap)] of section 4.3 ([clean_data.py] is missing). *)
Definition extract (cleanedText : jsstring)
    : jsstring * gmap jsstring jsstring :=
  let '(residual, m) := extract_lines (split_lines cleanedText) ∅ in
  (join_lines residual, m).

(** The lines that [extract] removes, and the names credited to one role,
    both in the order of the text. *)
Definition credit_lines (lines : list jsstring) : list jsstring :=
  filter (fun line => is_credit line = true) lines.

Definition names_for (role : jsstring) (lines : list jsstring)
    : list jsstring :=
  omap (fun line =>
          match credit line with
          | Some (r, name) => if str_eqb r role then Some name else None
          | None => None
          end) lines.

End MetadataExtractor.

(** ** A host to run the programs on

    An instance of the host for worked examples: integers for numbers, a
    reader and printer for the JSON texts without fractions or exponents,
    and a catalogue that answers from two tables. *)

Module MiniJSON.

Definition codes (s : string) : jsstring :=
  map N_of_ascii (list_ascii_of_string s).

#[export] Instance Z_numbers : Numbers := {|
  number := Z;
  number_truthy z := negb (z =? 0)%Z;
  number_toString z := codes (DecimalString.NilZero.string_of_int (Z.to_int z));
  number_same := Z.eqb
|}.

Definition is_json_ws (c : N) : bool :=
  (c =? 0x20) || (c =? 0x09) || (c =? 0x0A) || (c =? 0x0D).

Fixpoint skip_ws (s : jsstring) : jsstring :=
  match s with
  | c :: s' => if is_json_ws c then skip_ws s' else s
  | [] => []
  end.

Definition hex (c : N) : option N :=
  if (0x30 <=? c) && (c <=? 0x39) then Some (c - 0x30)
  else if (0x41 <=? c) && (c <=? 0x46) then Some (c - 0x41 + 10)
  else if (0x61 <=? c) && (c <=? 0x66) then Some (c - 0x61 + 10)
  else None.

Definition unescape (e : N) : option N :=
  if e =? 0x22 then Some 0x22 else if e =? 0x5C then Some 0x5C
  else if e =? 0x2F then Some 0x2F else if e =? 0x62 then Some 0x08
  else if e =? 0x66 then Some 0x0C else if e =? 0x6E then Some 0x0A
  else if e =? 0x72 then Some 0x0D else if e =? 0x74 then Some 0x09
  else None.

(** The characters of a string after its opening quote, and what follows
    the closing quote. *)
Fixpoint parse_chars (s : jsstring) : option (jsstring * jsstring) :=
  match s with
  | [] => None
  | c :: s' =>
    if c =? 0x22 then Some ([], s')
    else if c =? 0x5C then
      match s' with
      | [] => None
      | e :: s'' =>
        if e =? 0x75 then
          match s'' with
          | a :: b :: g :: d :: s3 =>
            x ← hex a; y ← hex b; z ← hex g; w ← hex d;
            '(str, rest) ← parse_chars s3;
            Some ((x * 4096 + y * 256 + z * 16 + w) :: str, rest)
          | _ => None
          end
        else
          u ← unescape e;
          '(str, rest) ← parse_chars s'';
          Some (u :: str, rest)
      end
    else if c <? 0x20 then None
    else '(str, rest) ← parse_chars s'; Some (c :: str, rest)
  end.

Definition is_digit (c : N) : bool := (0x30 <=? c) && (c <=? 0x39).

Fixpoint parse_digits (s : jsstring) (acc : Z) : Z * jsstring :=
  match s with
  | c :: s' =>
    if is_digit c then parse_digits s' (acc * 10 + Z.of_N (c - 0x30))%Z
    else (acc, s)
  | [] => (acc, [])
  end.

(** An integer literal; a fraction or an exponent is outside the texts
    read here. *)
Definition parse_int (s : jsstring) : option (Z * jsstring) :=
  let '(neg, s1) := match s with
                    | c :: s' => if c =? 0x2D then (true, s') else (false, s)
                    | [] => (false, s)
                    end in
  match s1 with
  | c :: s2 =>
    if is_digit c then
      let '(z, rest) := parse_digits s1 0%Z in
      let leading_zero := (c =? 0x30) && negb (length s1 =? S (length rest))%nat in
      let more := match rest with
                  | d :: _ => (d =? 0x2E) || (d =? 0x65) || (d =? 0x45)
                  | [] => false
                  end in
      if leading_zero || more then None
      else Some (if neg : bool then (- z)%Z else z, rest)
    else None
  | [] => None
  end.

Fixpoint parse_value (fuel : nat) (s : jsstring) : option (value * jsstring) :=
  match fuel with
  | O => None
  | S f =>
    match skip_ws s with
    | [] => None
    | c :: s' =>
      if c =? 0x7B then
        match skip_ws s' with
        | d :: s'' =>
          if d =? 0x7D then Some (VObject [], s'') else parse_members f s' []
        | [] => None
        end
      else if c =? 0x5B then
        match skip_ws s' with
        | d :: s'' =>
          if d =? 0x5D then Some (VArray [], s'') else parse_elements f s' []
        | [] => None
        end
      else if c =? 0x22 then
        '(str, rest) ← parse_chars s'; Some (VString str, rest)
      else if starts_with (codes "true") (c :: s') then
        Some (VBool true, drop 4 (c :: s'))
      else if starts_with (codes "false") (c :: s') then
        Some (VBool false, drop 5 (c :: s'))
      else if starts_with (codes "null") (c :: s') then
        Some (VNull, drop 4 (c :: s'))
      else '(z, rest) ← parse_int (c :: s'); Some (VNumber z, rest)
    end
  end
with parse_elements (fuel : nat) (s : jsstring) (acc : list value)
    : option (value * jsstring) :=
  match fuel with
  | O => None
  | S f =>
    '(v, rest) ← parse_value f s;
    match skip_ws rest with
    | c :: rest' =>
      if c =? 0x2C then parse_elements f rest' (acc ++ [v])
      else if c =? 0x5D then Some (VArray (acc ++ [v]), rest')
      else None
    | [] => None
    end
  end
with parse_members (fuel : nat) (s : jsstring) (acc : list (jsstring * value))
    : option (value * jsstring) :=
  match fuel with
  | O => None
  | S f =>
    match skip_ws s with
    | q :: s1 =>
      if q =? 0x22 then
        '(key, s2) ← parse_chars s1;
        match skip_ws s2 with
        | colon :: s3 =>
          if colon =? 0x3A then
            '(v, rest) ← parse_value f s3;
            match skip_ws rest with
            | c :: rest' =>
              if c =? 0x2C then parse_members f rest' (put acc key v)
              else if c =? 0x7D then Some (VObject (put acc key v), rest')
              else None
            | [] => None
            end
          else None
        | [] => None
        end
      else None
    | [] => None
    end
  end.

Definition parse (s : jsstring) : option value :=
  match parse_value (2 * length s + 2) s with
  | Some (v, rest) =>
    match skip_ws rest with
    | [] => Some v
    | _ :: _ => None
    end
  | None => None
  end.

Definition hex_digit (n : N) : N :=
  if n <? 10 then 0x30 + n else 0x61 + (n - 10).

Definition escape (c : N) : jsstring :=
  if c =? 0x22 then [0x5C; 0x22] else if c =? 0x5C then [0x5C; 0x5C]
  else if c =? 0x08 then [0x5C; 0x62] else if c =? 0x0C then [0x5C; 0x66]
  else if c =? 0x0A then [0x5C; 0x6E] else if c =? 0x0D then [0x5C; 0x72]
  else if c =? 0x09 then [0x5C; 0x74]
  else if c <? 0x20
       then [0x5C; 0x75; 0x30; 0x30; hex_digit (c / 16); hex_digit (c mod 16)]
  else [c].

Definition quote (s : jsstring) : jsstring :=
  0x22 :: concat (map escape s) ++ [0x22].

Fixpoint commas (parts : list jsstring) : jsstring :=
  match parts with
  | [] => []
  | [p] => p
  | p :: rest => p ++ 0x2C :: commas rest
  end.

(** An [undefined] member is left out of an object and printed as [null]
    in an array. *)
Fixpoint stringify (v : value) : jsstring :=
  match v with
  | VUndefined | VNull => codes "null"
  | VBool true => codes "true"
  | VBool false => codes "false"
  | VNumber z => number_toString z
  | VString s => quote s
  | VArray items =>
    0x5B :: commas ((fix each (l : list value) : list jsstring :=
                       match l with
                       | [] => []
                       | x :: l' => stringify x :: each l'
                       end) items) ++ [0x5D]
  | VObject props =>
    0x7B :: commas ((fix each (l : list (jsstring * value)) : list jsstring :=
                       match l with
                       | [] => []
                       | (k, VUndefined) :: l' => each l'
                       | (k, x) :: l' =>
                         (quote k ++ 0x3A :: stringify x) :: each l'
                       end) props) ++ [0x7D]
  end.

(** A JSON text written with single quotes in place of double quotes. *)
Definition json (s : string) : jsstring :=
  map (fun c => if c =? 0x27 then 0x22 else c) (js s).

(** The catalogue: search replies by page, lyric replies by numeric id. *)
Fixpoint table_lookup (k : Z) (table : list (Z * jsstring)) : option jsstring :=
  match table with
  | [] => None
  | (k', reply) :: rest => if (k' =? k)%Z then Some reply else table_lookup k rest
  end.

Definition scripted (pages lyrics : list (Z * jsstring)) : Host := {|
  JSON_parse := parse;
  JSON_stringify := stringify;
  World := unit;
  meting_search page w := (table_lookup page pages, w);
  meting_lyric id w :=
    (match id with VNumber z => table_lookup z lyrics | _ => None end, w)
|}.

(** The host without a catalogue, for the passes over the store. *)
Definition offline : Host := scripted [] [].

End MiniJSON.

(** ** Notions used in the statements *)

(** What the lazy [.*?] before a closing bracket does: stop at the first
    closing bracket, give up at a line terminator. *)
Fixpoint until (close : N) (s : jsstring) : option jsstring :=
  match s with
  | [] => None
  | x :: s' =>
    if x =? close then Some s'
    else if is_line_terminator x then None else until close s'
  end.

(** [BRACKETED] as a function. *)
Definition bracketed (s : jsstring) : option jsstring :=
  match s with
  | c :: t =>
    if c =? 0x28 then until 0x29 t
    else if c =? 0xFF08 then until 0xFF09 t else None
  | [] => None
  end.

(** Patterns whose every match consumes input. *)
Definition consuming (r : regex) : Prop :=
  forall s t, exec r s = Some t -> (length t < length s)%nat.

(** The four forms of a timing tag that the specification lists:
    [[mm:ss]], [[mm:ss.ff]], [[mm:ss.fff]] and [[mm:ss:ss.ff]]. *)
Definition TIMING_TAG : regex :=
  ((lit "[" · digits 2 2 · lit ":" · digits 2 2 · lit "]")
   ∣ (lit "[" · digits 2 2 · lit ":" · digits 2 2 · lit "." · digits 2 2 · lit "]")
   ∣ (lit "[" · digits 2 2 · lit ":" · digits 2 2 · lit "." · digits 3 3 · lit "]")
   ∣ (lit "[" · digits 2 2 · lit ":" · digits 2 2 · lit ":" · digits 2 2
        · lit "." · digits 2 2 · lit "]"))%re.

(** The two [cleanLyrics] of the sources, each with its own tag pattern. *)
Inductive cleaner := Collapsing | LineWise.

Definition tag_pattern (c : cleaner) : regex :=
  match c with
  | Collapsing => TAG_FRACTION_OPTIONAL
  | LineWise => TAG_FRACTION_REQUIRED
  end.

Definition cleanLyrics_of (c : cleaner) : jsstring -> jsstring :=
  match c with
  | Collapsing => cleanLyrics_collapse
  | LineWise => cleanLyrics_lines
  end.

Definition OPEN : N := 0x5B.

(** Every [[] of [s] opens a match of [r]. *)
Fixpoint tags_only (r : regex) (s : jsstring) : bool :=
  match s with
  | [] => true
  | c :: s' =>
    (if c =? OPEN then bool_decide (is_Some (exec r s)) else true)
    && tags_only r s'
  end.

(** Patterns without unbounded repetition, read as the lists of shapes
    that they match. *)

(** A shape is a sequence of classes, matched code unit by code unit. *)
Fixpoint shape_match (sh : list cclass) (s : jsstring) : option jsstring :=
  match sh, s with
  | [], _ => Some s
  | c :: sh', x :: s' => if cclass_match c x then shape_match sh' s' else None
  | _ :: _, [] => None
  end.

Fixpoint first_some {A B} (f : A -> option B) (l : list A) : option B :=
  match l with
  | [] => None
  | x :: l' => match f x with Some y => Some y | None => first_some f l' end
  end.

(** Up to [extra] more items, in the order in which the matcher tries
    them. *)
Fixpoint opt_shapes (greedy : bool) (c : cclass) (extra : nat)
    : list (list cclass) :=
  match extra with
  | O => [[]]
  | S h =>
    if greedy then map (cons c) (opt_shapes greedy c h) ++ [[]]
    else [] :: map (cons c) (opt_shapes greedy c h)
  end.

Fixpoint rep_shapes (greedy : bool) (c : cclass) (lo extra : nat)
    : list (list cclass) :=
  match lo with
  | O => opt_shapes greedy c extra
  | S lo' => map (cons c) (rep_shapes greedy c lo' extra)
  end.

(** The shapes that a pattern without unbounded repetition matches, in the
    order in which backtracking tries them. *)
Fixpoint expand (r : regex) : list (list cclass) :=
  match r with
  | RClass c => [[c]]
  | RSeq r1 r2 =>
    flat_map (fun sh1 => map (app sh1) (expand r2)) (expand r1)
  | RAlt r1 r2 => expand r1 ++ expand r2
  | ROpt r1 => expand r1 ++ [[]]
  | RRep g c lo (Some hi) => rep_shapes g c lo (hi - lo)
  | RRep _ _ _ None => []
  end.

Fixpoint bounded (r : regex) : bool :=
  match r with
  | RClass _ => true
  | RSeq r1 r2 | RAlt r1 r2 => bounded r1 && bounded r2
  | ROpt r1 => bounded r1
  | RRep _ _ _ hi => bool_decide (is_Some hi)
  end.

Definition CLOSE : N := 0x5D.

(** A class that matches neither a bracket nor a line feed. *)
Definition plain_class (c : cclass) : bool :=
  match c with
  | CDigit => true
  | CChar x => negb (x =? OPEN) && negb (x =? CLOSE) && negb (x =? LF)
  | CDot => false
  end.

(** The shape of a tag: [[], plain classes, []]. *)
Definition tag_shape (sh : list cclass) : bool :=
  match sh with
  | CChar o :: rest =>
    (o =? OPEN) &&
    match rev rest with
    | CChar cl :: mid => (cl =? CLOSE) && forallb plain_class mid
    | _ => false
    end
  | _ => false
  end.

(** A pattern all of whose matches are tags. *)
Definition tag_like (r : regex) : bool :=
  bounded r && forallb tag_shape (expand r).

(** The first bracket of [s], if any, is a closing one. *)
Fixpoint closes_first (s : jsstring) : bool :=
  match s with
  | [] => true
  | x :: s' =>
    if x =? CLOSE then true else if x =? OPEN then false else closes_first s'
  end.

(** No [[] that fails to open a match of [r] has another [[] before its
    []]. *)
Fixpoint unnested (r : regex) (s : jsstring) : bool :=
  match s with
  | [] => true
  | c :: s' =>
    (if c =? OPEN
     then bool_decide (is_Some (exec r s)) || closes_first s'
     else true)
    && unnested r s'
  end.

(** [s] up to and with its first closing bracket. *)
Fixpoint upto_close (s : jsstring) : jsstring :=
  match s with
  | [] => []
  | x :: s' => if x =? CLOSE then [x] else x :: upto_close s'
  end.

(** [m] stands somewhere in [s]. *)
Definition segment_of (m s : jsstring) : Prop :=
  exists a b, s = a ++ m ++ b.

(** The raw lyric text of the first scenario of the specification. *)
Definition SCENARIO_1 : jsstring :=
  js "[00:00.00]作词：A" ++ LF :: js "[00:03.20]作曲：B" ++ LF ::
  js "[00:05.00]第一行歌词" ++ LF :: js "[00:08.00]第二行歌词".

Definition strings {numbers : Numbers} (names : list jsstring) : list value :=
  VString <$> names.

(** A record comes out of the first ingestor for a track whose [artist] is
    [input], or out of the batch clean pass for a stored object whose
    [p_masters] is [input]. *)
Inductive produced_from {numbers : Numbers} {host : Host} (input rec : value) : Prop :=
| by_ingest song reply :
    prop song "artist" = Some input ->
    Ingest1.lyric_record song reply = Some rec ->
    produced_from input rec
| by_clean line props :
    parse_line line = Some (VObject props) ->
    prop (VObject props) "p_masters" = Some input ->
    CleanExisting.process_line line = Some rec ->
    produced_from input rec.

(** What [p_masters] has to look like for an [input] of each shape. *)
Definition shape_ok {numbers : Numbers} (input : value) (out : list value) : Prop :=
  Forall (fun x => is_string x = true) out /\
  (forall names, input = VArray (strings names) -> out = strings names) /\
  (forall groups, input = VArray ((fun g => VArray (strings g)) <$> groups) ->
     out = strings (concat groups)) /\
  (forall s, input = VString s -> s <> [] -> out = [VString s]).

(** The records appended and the ids fetched, read off the calls made. *)
Definition appended {numbers : Numbers} (ev : list event) : list value :=
  omap (fun e => match e with AppendLine _ r => Some r | _ => None end) ev.

Definition fetched {numbers : Numbers} (ev : list event) : list value :=
  omap (fun e => match e with Lyric id => Some id | _ => None end) ev.


Definition song_key {numbers : Numbers} (song : value) : option jsstring :=
  cleanSongTitle <$> Ingest1.song_name song.

Definition song_id {numbers : Numbers} (song : value) : value :=
  default VUndefined (prop song "id").

(** A text that fits on one line of the store. *)
Definition single_line (s : jsstring) : bool :=
  forallb (fun c => negb (c =? LF)) s.

(** What the store asks of [JSON.stringify] and [JSON.parse] for a record:
    the text is one non-blank line and reads back as the record. *)
Definition storable {numbers : Numbers} {host : Host} (record : value) : Prop :=
  single_line (JSON_stringify record) = true /\
  nonempty (trim (JSON_stringify record)) = true /\
  parse_line (JSON_stringify record) = Some record.

(** A song record as the dataset README describes it: an object whose
    [lyrics], if any, is a string and whose [p_masters], if any, is an
    array or a string. *)
Definition is_song_record {numbers : Numbers} (v : value) : bool :=
  match v with
  | VObject props =>
    match own props (js "lyrics") with
    | None | Some (VString _) => true
    | _ => false
    end &&
    match own props (js "p_masters") with
    | None | Some (VArray _) | Some (VString _) => true
    | _ => false
    end
  | _ => false
  end.

Definition song_line {numbers : Numbers} {host : Host} (line : jsstring) : bool :=
  match parse_line line with
  | Some v => is_song_record v
  | None => false
  end.

Definition unparsable {numbers : Numbers} {host : Host} (line : jsstring) : bool :=
  match parse_line line with
  | Some _ => false
  | None => true
  end.

(** Is [dst] rewritten through [tmp]: all of the new contents written to
    [tmp], and [tmp] later renamed to [dst]? *)
Fixpoint writes_then_renames {numbers : Numbers} (tmp dst : path) (ev : list event) : bool :=
  match ev with
  | [] => false
  | WriteFileSync p _ :: rest =>
    (String.eqb p tmp
     && existsb (fun e => match e with
                          | RenameSync a b => String.eqb a tmp && String.eqb b dst
                          | _ => false
                          end) rest)
    || writes_then_renames tmp dst rest
  | _ :: rest => writes_then_renames tmp dst rest
  end.

(** A system with one file, for the worked examples. *)
Definition one_file {numbers : Numbers} {host : Host} (w : World) (p : path) (content : jsstring) : sys :=
  Sys w {[ p := content ]}.

(** Is the key of [song] in the set? *)
Definition is_known {numbers : Numbers} (existingSongs : gset jsstring)
    (song : value) : bool :=
  match song_key song with
  | Some k => bool_decide (k ∈ existingSongs)
  | None => false
  end.


(** The tracks that a search reply lists. *)
Definition listed {numbers : Numbers} {host : Host} (reply : option jsstring)
    : option (list value) :=
  match reply ≫= JSON_parse with
  | Some (VArray songs) => Some songs
  | _ => None
  end.

(** Would [writeLyricToFile] append this record? *)
Definition has_lyrics {numbers : Numbers} (lyricData : value) : bool :=
  match prop lyricData "lyrics" with
  | Some l => truthy l
  | None => false
  end.


(** The title of a stored record as it stands, when it is a string. *)
Definition raw_title {numbers : Numbers} (rec : value) : option jsstring :=
  match prop rec "song_title" with
  | Some (VString s) => Some s
  | _ => None
  end.

(** What a run of the second ingestor leaves: its set only grows, and
    the string titles of the records appended are pairwise different, were
    not in the set before and are in it afterwards. *)
Definition distinct_titles {numbers : Numbers} (set set' : list value)
    (ev : list event) : Prop :=
  (forall v, Ingest2.has set v = true -> Ingest2.has set' v = true) /\
  NoDup (omap raw_title (appended ev)) /\
  (forall t, t ∈ omap raw_title (appended ev) ->
     Ingest2.has set (VString t) = false /\ Ingest2.has set' (VString t) = true).

(** Worked examples on the [MiniJSON] host. *)
Module Examples.
Import MiniJSON.




(** Three lines with song records and one that is no JSON text. *)
Definition STORE_4 : jsstring :=
  json "{'song_title':'a','p_masters':[['ilem'],'洛天依'],'lyrics':'[00:01.00]la'}"
  ++ LF :: json "{'song_title':'b','p_masters':'洛天依','lyrics':'la'}"
  ++ LF :: js "not a record"
  ++ LF :: json "{'song_title':'c','p_masters':['洛天依','洛天依',''],'lyrics':'la'}"
  ++ [LF].

Definition LINE_NESTED : jsstring :=
  json "{'song_title':'a','p_masters':[['ilem'],'洛天依'],'lyrics':'[00:01.00]la'}".

Definition LINE_REPEATED : jsstring :=
  json "{'song_title':'c','p_masters':['洛天依','洛天依',''],'lyrics':'la'}".

Definition TRACK_REPEATED : value :=
  VObject [(js "id", VNumber 3%Z); (js "name", VString (js "c"));
           (js "artist", VArray [VString (js "洛天依"); VString (js "洛天依");
                                 VString []])].

Definition REPLY_LA : jsstring := json "{'lyric':'[00:01.00]la'}".

Definition store_4 : sys (host:=offline) :=
  one_file (host:=offline) tt CleanExisting.LYRICS_FILE_PATH STORE_4.

(** A catalogue of two pages.  Page 1 lists a song and an instrumental
    piece; page 2 lists a live version of the song, the instrumental piece
    again, and a second song. *)
Definition CATALOGUE : Host := scripted
  [(1%Z, json "[{'id':1,'name':'勾指起誓','artist':['ilem','洛天依']},{'id':2,'name':'夜曲','artist':'洛天依'}]");
   (2%Z, json "[{'id':3,'name':'勾指起誓 (Live)','artist':'洛天依'},{'id':2,'name':'夜曲','artist':'洛天依'},{'id':4,'name':'达拉崩吧','artist':[['ilem'],'洛天依']}]")]
  [(1%Z, json "{'lyric':'[00:00.00]作词：ilem\n[00:05.00]第一行歌词'}");
   (2%Z, json "{'lyric':'纯音乐，请欣赏'}");
   (3%Z, json "{'lyric':'[00:01.00]第一行歌词'}");
   (4%Z, json "{'lyric':'[00:01.00]达拉崩吧'}")].



(** One track whose lyric text is a single timing tag. *)
Definition CATALOGUE_TAG_ONLY : Host := scripted
  [(1%Z, json "[{'id':7,'name':'空','artist':'洛天依'}]")]
  [(7%Z, json "{'lyric':'[00:00.00]'}")].

(** One track whose lyric text is the instrumental marker with a timing
    tag in its middle. *)
Definition CATALOGUE_SPLIT_MARKER : Host := scripted
  [(1%Z, json "[{'id':8,'name':'曲','artist':'洛天依'}]")]
  [(8%Z, json "{'lyric':'纯音乐，[00:00]请欣赏'}")].

(** A system without files. *)
Abbreviation fresh h := (Sys (host:=h) tt ∅).

(** The first ingestor on [CATALOGUE]: page 1 from an empty set, then
    page 2 from where page 1 ended. *)
Definition PAGE_1_SONGS : list value :=
  default [] (listed (host:=CATALOGUE) (meting_search (Host:=CATALOGUE) 1%Z tt).1).




(** A stored [p_masters] with a nested list, and the record that the batch
    clean pass makes of its line. *)
Definition NESTED_INPUT : value :=
  VArray [VArray [VString (js "ilem")]; VString (js "洛天依")].

Definition NESTED_RECORD : value :=
  default VNull (CleanExisting.process_line (host:=offline) LINE_NESTED).

End Examples.

(** ** More notions: titles *)








(** ** More notions: clean texts *)

(** The number of line feeds that [s] begins with. *)
Fixpoint lf_run (s : jsstring) : nat :=
  match s with
  | c :: s' => if c =? LF then S (lf_run s') else O
  | [] => O
  end.

(** A text without white space at either end. *)
Definition trimmed (s : jsstring) : bool :=
  match head s, last s with
  | Some c, Some x => negb (is_space c) && negb (is_space x)
  | _, _ => true
  end.

(** What follows the first line in [join_lines]. *)
Definition join_rest (ls : list jsstring) : jsstring :=
  match ls with
  | [] => []
  | _ :: _ => LF :: join_lines ls
  end.

(** What each [cleanLyrics] leaves besides removing tags: the collapsing
    one a text without white space at either end and without three line
    feeds in a row; the line-wise one an empty text, or lines that are
    not empty and have no white space at either end. *)
Definition tidy (c : cleaner) (s : jsstring) : Prop :=
  match c with
  | Collapsing => trim s = s /\ occurs THREE_OR_MORE_LF s = false
  | LineWise =>
    s = [] \/ Forall (fun line => line <> [] /\ trim line = line) (split_lines s)
  end.

(** ** More notions: runs *)

(** [Number.MAX_SAFE_INTEGER]: the integers up to it are doubles, and a
    sum of two of them that stays in the range is computed exactly. *)
Definition MAX_SAFE_INTEGER : Z := (2 ^ 53 - 1)%Z.

Definition safe_integer (n : Z) : Prop :=
  (- MAX_SAFE_INTEGER <= n <= MAX_SAFE_INTEGER)%Z.

(** The arguments of a run for which the page loop counts in doubles as
    in the integers: the first page, the number of pages and the bound
    [initialPage + pageCount] are safe integers, and so is every page in
    between. *)
Definition safe_pages (initialPage pageCount : Z) : Prop :=
  safe_integer initialPage /\ safe_integer pageCount /\
  safe_integer (initialPage + pageCount).

(** The pages searched, read off the calls made. *)
Definition searched {numbers : Numbers} (ev : list event) : list Z :=
  omap (fun e => match e with SearchPage p => Some p | _ => None end) ev.

(** The text that appending [records] one after the other adds to the
    store. *)
Definition store_lines {numbers : Numbers} {host : Host} (records : list value)
    : jsstring :=
  concat (map (fun r => JSON_stringify r ++ [LF]) records).

(** A property [R] of the system before, the system after and the calls
    made holds of every run of [m]. *)
Definition io_sat {numbers : Numbers} {host : Host} {A : Type}
    (R : sys -> sys -> list event -> Prop) (m : IO A) : Prop :=
  forall s, R s (m s).1.2 (m s).2.

(** The files afterwards are the files before, but for the text of the
    records appended, which stands at the end of the store. *)
Definition appends_only {numbers : Numbers} {host : Host}
    (s s' : sys) (ev : list event) : Prop :=
  disk s' =
  match appended ev with
  | [] => disk s
  | _ :: _ =>
    <[Ingest1.LYRICS_FILE_PATH :=
        default [] (disk s !! Ingest1.LYRICS_FILE_PATH)
        ++ store_lines (appended ev)]> (disk s)
  end.

(** No page is searched. *)
Definition no_search {numbers : Numbers} {host : Host}
    (s s' : sys) (ev : list event) : Prop :=
  searched ev = [].

(** The counters of the second ingestor against the calls made: [newSongs]
    grows by the records appended and so does the set; no record is
    appended without a lyric fetch; [skippedSongs] does not decrease. *)
Definition counts2 {numbers : Numbers}
    (st st' : list value * nat * nat) (ev : list event) : Prop :=
  let '(set, n, k) := st in
  let '(set', n', k') := st' in
  n' = (n + length (appended ev))%nat /\
  length set' = (length set + length (appended ev))%nat /\
  (length (appended ev) <= length (fetched ev))%nat /\
  (k <= k')%nat.

(** The counter and the set of the first ingestor against the calls made:
    [totalNewSongsAdded] grows by at least the records appended and at
    most the lyric fetches; the set grows, by at most the lyric fetches. *)
Definition counts1 {numbers : Numbers}
    (st st' : gset jsstring * nat) (ev : list event) : Prop :=
  (st.2 + length (appended ev) <= st'.2)%nat /\
  (st'.2 <= st.2 + length (fetched ev))%nat /\
  st.1 ⊆ st'.1 /\
  (size st'.1 <= size st.1 + length (fetched ev))%nat.

(** The system when the page loop of the first ingestor begins, and the
    calls made until then: the store is read if it is there and created
    empty if it is not. *)
Definition ingest1_start {numbers : Numbers} {host : Host} (s : sys)
    : sys * list event :=
  match disk s !! Ingest1.LYRICS_FILE_PATH with
  | Some _ =>
    (s, [ExistsSync Ingest1.LYRICS_FILE_PATH;
         ReadFileSync Ingest1.LYRICS_FILE_PATH;
         ExistsSync Ingest1.LYRICS_FILE_PATH])
  | None =>
    (Sys (net s) (<[Ingest1.LYRICS_FILE_PATH := []]> (disk s)),
     [ExistsSync Ingest1.LYRICS_FILE_PATH;
      ExistsSync Ingest1.LYRICS_FILE_PATH;
      WriteFileSync Ingest1.LYRICS_FILE_PATH []])
  end.

(** A record as the first ingestor writes it: a string title, a flat list
    of strings, and lyrics that are not empty and are tidy. *)
Definition ingest1_record {numbers : Numbers} (rec : value) : Prop :=
  exists title p_masters lyrics,
    rec = VObject [(js "song_title", VString title);
                   (js "p_masters", VArray p_masters);
                   (js "lyrics", VString lyrics)] /\
    Forall (fun x => is_string x = true) p_masters /\
    lyrics <> [] /\ tidy Collapsing lyrics.

(** A record as the second ingestor writes it: the title and the artist
    as the catalogue gave them, and lyrics that are tidy and do not hold
    the instrumental marker. *)
Definition ingest2_record {numbers : Numbers} (rec : value) : Prop :=
  exists title artist lyrics,
    rec = VObject [(js "song_title", title);
                   (js "p_masters", artist);
                   (js "lyrics", VString lyrics)] /\
    includes lyrics PURE_MUSIC = false /\
    trim lyrics = lyrics /\ tidy LineWise lyrics.

(** ** More notions: the store between runs *)

(** The key under which [loadExistingSongs] of the first ingestor knows a
    stored record: none for a title that is empty or not a string. *)
Definition stored_key {numbers : Numbers} (rec : value) : option jsstring :=
  match prop rec "song_title" with
  | Some (VString (c :: title)) => Some (cleanSongTitle (c :: title))
  | _ => None
  end.

(** A text that is empty or ends in a line feed: the next line appended
    starts a line of its own. *)
Definition ends_lines (content : jsstring) : bool :=
  match last content with
  | Some c => c =? LF
  | None => true
  end.

(** ** src/song/clean_lyrics.js, the pass over the file *)

(** The two comparisons with zero that the shape of a value does not
    settle: [n > 0] for a number and [ToNumber(s) > 0] for a string. *)
Class Comparisons {numbers : Numbers} := {
  number_positive : number -> bool;
  string_positive : jsstring -> bool
}.

Module ProcessJsonl.
Section ProcessJsonl.
Context {numbers : Numbers} {host : Host} {comparisons : Comparisons}.

Definition INPUT_FILE_PATH : path := "song/song_lyrics.jsonl".
Definition OUTPUT_FILE_PATH : path := "song/lyrics.jsonl".

(** [v > 0] for a value made by [JSON.parse]: [undefined] is compared as
    NaN, [null] as 0, [true] as 1, an array or an object through the
    string that it converts to.  [None] is the TypeError of an object that
    cannot be converted. *)
Definition greater_than_zero (v : value) : option bool :=
  match v with
  | VUndefined | VNull => Some false
  | VBool b => Some b
  | VNumber n => Some (number_positive n)
  | VString s => Some (string_positive s)
  | VArray _ | VObject _ => s ← to_String v; Some (string_positive s)
  end.

(** [songData.p_masters && songData.p_masters.length > 0
       ? [songData.p_masters[0]] : []]
    A string has a length and its first code unit as element [0]; an
    object has them if it has own properties of these names; a number or
    [true] has no [length]. *)
Definition first_p_master (p_masters : value) : option (list value) :=
  if truthy p_masters
  then match p_masters with
       | VString (c :: _) => Some [VString [c]]
       | VArray (x :: _) => Some [x]
       | VObject props =>
         positive ← greater_than_zero
                      (default VUndefined (own props (js "length")));
         Some (if positive : bool
               then [default VUndefined (own props (js "0"))] else [])
       | _ => Some []
       end
  else Some [].

(** The body of the [try] of the line loop (lines 43-72): the record that
    is printed, or [None] when the line is left out, by a [continue] or by
    an exception. *)
Definition process_line (line : jsstring) : option value :=
  songData ← parse_line line;
  match CleanLyrics.usable_lyrics songData with
  | CleanLyrics.Kept cleanedLyrics =>
    (* songData.lyrics = cleanedLyrics; *)
    song_title ← prop songData "song_title";
    p_masters ← prop songData "p_masters";
    first ← first_p_master p_masters;
    Some (VObject [(js "song_title", song_title);
                   (js "p_masters", VArray first);
                   (js "lyrics", VString cleanedLyrics)])
  | _ => None
  end.

(** [for (const line of lines) { if (!line.trim()) continue; ... }] *)
Fixpoint process_lines (lines : list jsstring) (processedLines : list jsstring)
    : list jsstring :=
  match lines with
  | [] => processedLines
  | line :: rest =>
    if nonempty (trim line)
    then match process_line line with
         | Some cleanedSongData =>
           process_lines rest
             (processedLines ++ [JSON_stringify cleanedSongData])
         | None => process_lines rest processedLines
         end
    else process_lines rest processedLines
  end.

(** The result is what the log reports, the number of lines read and the
    number of lines written; [None] when reading the input fails, which
    the outer [catch] only logs. *)
Definition processJsonlFile : IO (option (nat * nat)) :=
  content ← readFileSync INPUT_FILE_PATH;
  match content with
  | Some content =>
    let lines := split_lines content in
    let processedLines := process_lines lines [] in
    writeFileSync OUTPUT_FILE_PATH (join_lines processedLines ++ [LF]);;
    mret (Some (length lines, length processedLines))
  | None => mret None
  end.

End ProcessJsonl.
End ProcessJsonl.

(** A record as [processJsonlFile] prints it: the three fields, at most
    one producer, and lyrics that are tidy, not blank and without the
    instrumental marker. *)
Definition jsonl_record {numbers : Numbers} (rec : value) : Prop :=
  exists song_title first lyrics,
    rec = VObject [(js "song_title", song_title);
                   (js "p_masters", VArray first);
                   (js "lyrics", VString lyrics)] /\
    (length first <= 1)%nat /\
    lyrics <> [] /\ trim lyrics = lyrics /\ tidy LineWise lyrics /\
    includes lyrics PURE_MUSIC = false.

(** The comparisons of the example host: integers, and strings that hold
    an integer literal with white space around it (any other text counts
    as not a number). *)
#[export] Instance Z_comparisons : @Comparisons MiniJSON.Z_numbers :=
  @Build_Comparisons MiniJSON.Z_numbers
    (fun z : Z => (0 <? z)%Z)
    (fun s => match MiniJSON.parse_int (trim s) with
              | Some (z, []) => (0 <? z)%Z
              | _ => false
              end).

(** More worked examples on the [MiniJSON] host. *)
Module MoreExamples.
Import MiniJSON Examples.

(** The titles of page 1 of [CATALOGUE], as the second ingestor keeps
    them. *)
Definition KNOWN_TITLES : list value :=
  [VString (js "勾指起誓"); VString (js "夜曲")].

(** Both pages of [CATALOGUE], from a system without files. *)
Definition RUN_1 :=
  Ingest1.searchLuoTianyiSongs (host:=CATALOGUE) 1 2 (fresh CATALOGUE).

Definition RUN_2 :=
  Ingest2.searchLuoTianyiSongs (host:=CATALOGUE) 1 2 (fresh CATALOGUE).

Definition PAGES_2 :=
  Ingest2.process_pages (host:=CATALOGUE) [1%Z; 2%Z] [] 0%nat 0%nat
    (fresh CATALOGUE).

(** The record that the first ingestor makes of [TRACK_REPEATED]. *)
Definition INGESTED_RECORD : value :=
  default VNull (Ingest1.lyric_record (host:=offline) TRACK_REPEATED (Some REPLY_LA)).

(** A stored line whose producer is a string, and the record that
    [processJsonlFile] prints for it. *)
Definition LINE_STRING_PRODUCER : jsstring :=
  json "{'song_title':'b','p_masters':'洛天依','lyrics':'[00:01.00] la \n\n [00:02.00]la','id':7}".

Definition JSONL_RECORD : value :=
  default VNull (ProcessJsonl.process_line (host:=offline) LINE_STRING_PRODUCER).

(** The same line as [JSON.parse] reads it, and the record that the batch
    clean pass makes of it. *)
Definition PARSED_LINE : value :=
  default VNull (parse_line (host:=offline) LINE_STRING_PRODUCER).

Definition CLEANED_RECORD : value :=
  default VNull (CleanExisting.process_line (host:=offline) LINE_STRING_PRODUCER).



(** One page on which the second track has no name. *)
Definition CATALOGUE_UNNAMED : Host := scripted
  [(1%Z, json "[{'id':1,'name':'勾指起誓','artist':'ilem'},{'id':9,'artist':'洛天依'}]")]
  [(1%Z, json "{'lyric':'[00:00.00]第一行歌词'}")].

Definition UNNAMED_TRACK : value :=
  VObject [(js "id", VNumber 9%Z); (js "artist", VString (js "洛天依"))].

End MoreExamples.

(** * Facts about strings *)

Section StringFacts.
Implicit Types s t : jsstring.

Lemma trimStart_suffix s : trimStart s `suffix_of` s.
Proof.
  induction s as [|c s IH]; simpl; [done|].
  destruct (is_space c); [by apply suffix_cons_r | done].
Qed.

Lemma trimEnd_prefix s : trimEnd s `prefix_of` s.
Proof.
  unfold trimEnd. destruct (trimStart_suffix (rev s)) as [k Hk].
  exists (rev k). apply (f_equal (@rev N)) in Hk.
  rewrite rev_involutive, rev_app_distr in Hk. done.
Qed.

Lemma trimStart_idem s : trimStart (trimStart s) = trimStart s.
Proof.
  induction s as [|c s IH]; simpl; [done|].
  destruct (is_space c) eqn:E; [done|]. simpl. by rewrite E.
Qed.

Lemma trimStart_fixed s :
  match s with c :: _ => is_space c = false | [] => True end ->
  trimStart s = s.
Proof. destruct s as [|c s]; simpl; [done|]. by intros ->. Qed.

Lemma trimStart_head s :
  match trimStart s with c :: _ => is_space c = false | [] => True end.
Proof.
  induction s as [|c s IH]; simpl; [done|].
  destruct (is_space c) eqn:E; [done|]. done.
Qed.

Lemma trimEnd_idem s : trimEnd (trimEnd s) = trimEnd s.
Proof. unfold trimEnd. by rewrite rev_involutive, trimStart_idem. Qed.

Lemma trim_idem s : trim (trim s) = trim s.
Proof.
  unfold trim.
  rewrite (trimStart_fixed (trimEnd (trimStart s))); [apply trimEnd_idem|].
  destruct (trimEnd_prefix (trimStart s)) as [k Hk].
  pose proof (trimStart_head s) as Hh.
  destruct (trimEnd (trimStart s)) as [|c u]; [done|].
  rewrite Hk in Hh. done.
Qed.

Lemma trim_elem s x : x ∈ trim s -> x ∈ s.
Proof.
  unfold trim. intros Hx.
  destruct (trimEnd_prefix (trimStart s)) as [k Hk].
  destruct (trimStart_suffix s) as [k' Hk'].
  rewrite Hk', Hk. set_solver.
Qed.

Lemma split_lines_elem s l x : l ∈ split_lines s -> x ∈ l -> x ∈ s.
Proof.
  revert l. induction s as [|c s IH]; simpl; intros l Hl Hx.
  - apply list_elem_of_singleton in Hl. subst. done.
  - destruct (c =? LF).
    + apply elem_of_cons in Hl as [->|Hl]; [by apply elem_of_nil in Hx|].
      right. eauto.
    + destruct (split_lines s) as [|l0 ls] eqn:E.
      * apply list_elem_of_singleton in Hl. subst.
        apply list_elem_of_singleton in Hx. subst. left.
      * apply elem_of_cons in Hl as [->|Hl].
        -- apply elem_of_cons in Hx as [->|Hx]; [left|right].
           apply (IH l0); [left|done].
        -- right. apply (IH l); [by right|done].
Qed.

Lemma join_lines_elem ls x :
  x ∈ join_lines ls -> x = LF \/ exists l, l ∈ ls /\ x ∈ l.
Proof.
  induction ls as [|l ls IH]; simpl; intros Hx; [by apply elem_of_nil in Hx|].
  destruct ls as [|l' ls'].
  - right. exists l. split; [left|done].
  - apply elem_of_app in Hx as [Hx|Hx].
    + right. exists l. split; [left|done].
    + apply elem_of_cons in Hx as [->|Hx]; [by left|].
      destruct (IH Hx) as [->|(l0 & Hl0 & Hx0)]; [by left|].
      right. exists l0. split; [by right|done].
Qed.

End StringFacts.

(** * Facts about the matcher *)

Section RegexFacts.
Implicit Types (s t : jsstring) (r : regex) (k : jsstring -> option jsstring).

(** Whatever a pattern matches, its continuation runs on a suffix of the
    input. *)
Lemma rep_match_inv g c s : forall lo hi k t,
  rep_match g c lo hi s k = Some t ->
  exists s', k s' = Some t /\ s' `suffix_of` s.
Proof.
  induction s as [|x s IH]; intros lo hi k t.
  - destruct lo; simpl; [|done]. destruct g.
    + intros Hk. exists []. done.
    + destruct (k []) eqn:E; [|done]. intros [= <-]. by exists [].
  - destruct lo as [|lo]; simpl.
    + destruct g.
      * destruct (cclass_match c x && hi_more hi).
        -- destruct (rep_match true c 0 (hi_pred hi) s k) eqn:E.
           ++ intros [= <-]. destruct (IH _ _ _ _ E) as (s' & ? & ?).
              exists s'. split; [done|by apply suffix_cons_r].
           ++ intros Hk. by exists (x :: s).
        -- intros Hk. by exists (x :: s).
      * destruct (k (x :: s)) eqn:E.
        -- intros [= <-]. by exists (x :: s).
        -- destruct (cclass_match c x && hi_more hi); [|done].
           intros E'. destruct (IH _ _ _ _ E') as (s' & ? & ?).
           exists s'. split; [done|by apply suffix_cons_r].
    + destruct (cclass_match c x); [|done].
      intros E. destruct (IH _ _ _ _ E) as (s' & ? & ?).
      exists s'. split; [done|by apply suffix_cons_r].
Qed.

Lemma re_match_inv r : forall s k t,
  re_match r s k = Some t ->
  exists s', k s' = Some t /\ s' `suffix_of` s.
Proof.
  induction r as [c|r1 IH1 r2 IH2|r1 IH1 r2 IH2|r1 IH1|g c lo hi];
    intros s k t; simpl.
  - destruct s as [|x s]; [done|]. destruct (cclass_match c x); [|done].
    intros Hk. exists s. split; [done|]. by apply suffix_cons_r.
  - intros E. destruct (IH1 _ _ _ E) as (s1 & E1 & ?).
    destruct (IH2 _ _ _ E1) as (s2 & ? & ?).
    exists s2. split; [done|]. by etrans.
  - destruct (re_match r1 s k) eqn:E.
    + intros [= <-]. eauto.
    + eauto.
  - destruct (re_match r1 s k) eqn:E.
    + intros [= <-]. eauto.
    + intros Hk. by exists s.
  - apply rep_match_inv.
Qed.

Lemma exec_suffix r s t : exec r s = Some t -> t `suffix_of` s.
Proof.
  intros E. destruct (re_match_inv _ _ _ _ E) as (s' & [= ->] & ?). done.
Qed.

(** A pattern that begins with a literal matches only where that literal
    stands, and consumes it. *)
Lemma exec_lit_seq c r s t :
  exec (RSeq (RClass (CChar c)) r) s = Some t ->
  exists s', s = c :: s' /\ t `suffix_of` s'.
Proof.
  unfold exec. simpl. destruct s as [|x s]; [done|].
  destruct (x =? c) eqn:E; [|done]. apply N.eqb_eq in E as ->.
  intros E. exists s. split; [done|].
  destruct (re_match_inv _ _ _ _ E) as (s' & [= ->] & ?). done.
Qed.

Lemma exec_alt r1 r2 s t :
  exec (RAlt r1 r2) s = Some t -> exec r1 s = Some t \/ exec r2 s = Some t.
Proof.
  unfold exec. simpl. destruct (re_match r1 s Some); [intros [= <-]|]; eauto.
Qed.

Lemma consuming_lit_seq c r : consuming (RSeq (RClass (CChar c)) r).
Proof.
  intros s t E. destruct (exec_lit_seq _ _ _ _ E) as (s' & -> & Hs).
  apply suffix_length in Hs. simpl. lia.
Qed.

Lemma consuming_alt r1 r2 : consuming r1 -> consuming r2 -> consuming (RAlt r1 r2).
Proof. intros H1 H2 s t E. destruct (exec_alt _ _ _ _ E); eauto. Qed.

Lemma replace_fuel_enough r repl : consuming r ->
  forall n m s, (length s <= n)%nat -> (length s <= m)%nat ->
  replace_fuel r repl n s = replace_fuel r repl m s.
Proof.
  intros Hc. induction n as [|n IH]; intros m s Hn Hm.
  - destruct s; [|simpl in Hn; lia]. by destruct m.
  - destruct m as [|m]; [destruct s; [done|simpl in Hm; lia]|].
    simpl. destruct s as [|c s]; [done|]. simpl in Hn, Hm.
    destruct (exec r (c :: s)) as [rest|] eqn:E.
    + apply Hc in E. simpl in E. f_equal. apply IH; lia.
    + f_equal. apply IH; lia.
Qed.

Lemma replace_all_nil r repl : replace_all r repl [] = [].
Proof. done. Qed.

Lemma replace_all_cons r repl c s : consuming r ->
  replace_all r repl (c :: s) =
  match exec r (c :: s) with
  | Some rest => repl ++ replace_all r repl rest
  | None => c :: replace_all r repl s
  end.
Proof.
  intros Hc. unfold replace_all. simpl.
  destruct (exec r (c :: s)) as [rest|] eqn:E; [|done].
  f_equal. apply replace_fuel_enough; [done| |done].
  apply Hc in E. simpl in E. lia.
Qed.

(** Induction along the scan of [replace_all]. *)
Lemma replace_all_ind r repl (P : jsstring -> jsstring -> Prop) :
  consuming r ->
  P [] [] ->
  (forall c s rest, exec r (c :: s) = Some rest ->
     P rest (replace_all r repl rest) ->
     P (c :: s) (repl ++ replace_all r repl rest)) ->
  (forall c s, exec r (c :: s) = None ->
     P s (replace_all r repl s) -> P (c :: s) (c :: replace_all r repl s)) ->
  forall s, P s (replace_all r repl s).
Proof.
  intros Hc Hnil Hhit Hmiss s.
  remember (length s) as n eqn:Hn. revert s Hn.
  induction n as [n IH] using lt_wf_ind. intros [|c s] Hn; [apply Hnil|].
  rewrite replace_all_cons by done.
  destruct (exec r (c :: s)) as [rest|] eqn:E.
  - apply Hhit; [done|]. eapply IH; [|done]. apply Hc in E. by subst.
  - apply Hmiss; [done|]. eapply IH; [|done]. subst. simpl. lia.
Qed.

(** Without an occurrence there is nothing to replace. *)
Lemma occurs_cons_false r c s :
  occurs r (c :: s) = false -> exec r (c :: s) = None /\ occurs r s = false.
Proof. simpl. destruct (exec r (c :: s)); [done|]. done. Qed.

Lemma replace_all_none r repl s :
  occurs r s = false -> replace_all r repl s = s.
Proof.
  unfold replace_all. induction s as [|c s IH]; [done|].
  intros Ho. apply occurs_cons_false in Ho as [E Ho]. simpl.
  rewrite E. f_equal. by apply IH.
Qed.

Lemma occurs_suffix r s t : t `suffix_of` s -> occurs r t = true -> occurs r s = true.
Proof.
  intros [k ->]. induction k as [|c k IH]; [done|].
  intros Ht. simpl. destruct (exec r (c :: k ++ t)); [done|]. by apply IH.
Qed.

Lemma occurs_true r s :
  occurs r s = true -> exists t u, t `suffix_of` s /\ exec r t = Some u.
Proof.
  induction s as [|c s IH]; simpl.
  - destruct (exec r []) eqn:E; [|done]. intros _. by exists [], l.
  - destruct (exec r (c :: s)) eqn:E.
    + intros _. by exists (c :: s), l.
    + intros Ho. destruct (IH Ho) as (t & u & ? & ?).
      exists t, u. split; [by apply suffix_cons_r|done].
Qed.

(** [replace_all] outputs only code units of its input or of the
    replacement. *)
Lemma replace_fuel_elem r repl x : forall n s,
  x ∈ replace_fuel r repl n s -> x ∈ repl \/ x ∈ s.
Proof.
  induction n as [|n IH]; intros s; simpl; [by right|].
  destruct s as [|c s]; [by right|].
  destruct (exec r (c :: s)) as [rest|] eqn:E.
  - intros [Hx|Hx]%elem_of_app; [by left|].
    destruct (IH _ Hx) as [?|Hr]; [by left|right].
    apply exec_suffix in E as [k ->]. set_solver.
  - intros [->|Hx]%elem_of_cons; [right; left|].
    destruct (IH _ Hx) as [?|?]; [by left|right; by right].
Qed.

Lemma replace_all_elem r repl x s :
  x ∈ replace_all r repl s -> x ∈ repl \/ x ∈ s.
Proof. apply replace_fuel_elem. Qed.

End RegexFacts.

(** * The title key *)

Section TitleFacts.
Implicit Types s t : jsstring.

Lemma lazy_dot_until close t :
  rep_match false CDot 0 None t
    (fun s' => match s' with
               | x :: s'' => if cclass_match (CChar close) x then Some s'' else None
               | [] => None
               end) = until close t.
Proof.
  induction t as [|x t IH]; [done|]. simpl.
  destruct (x =? close); [done|].
  rewrite andb_true_r. destruct (is_line_terminator x); simpl; [done|].
  apply IH.
Qed.

Lemma exec_BRACKETED s : exec BRACKETED s = bracketed s.
Proof.
  unfold exec, BRACKETED. change (lit "(") with (RClass (CChar 0x28)).
  change (lit ")") with (RClass (CChar 0x29)).
  change (lit "（") with (RClass (CChar 0xFF08)).
  change (lit "）") with (RClass (CChar 0xFF09)).
  destruct s as [|c t]; [done|].
  cbn [re_match bracketed]. rewrite !lazy_dot_until.
  change (cclass_match (CChar 40) c) with (c =? 40).
  change (cclass_match (CChar 65288) c) with (c =? 65288).
  destruct (c =? 40) eqn:E1; [|done].
  destruct (until 41 t); [done|].
  apply N.eqb_eq in E1 as ->. done.
Qed.

Lemma consuming_BRACKETED : consuming BRACKETED.
Proof.
  apply consuming_alt; unfold lit; simpl; apply consuming_lit_seq.
Qed.

Lemma until_app close m t :
  Forall (fun x => is_line_terminator x = false) m ->
  is_Some (until close t) -> is_Some (until close (m ++ t)).
Proof.
  induction 1 as [|x m Hx _ IH]; [done|]. intros Ht. simpl.
  destruct (x =? close); [done|]. rewrite Hx. by apply IH.
Qed.

Lemma until_extend close t w :
  is_Some (until close t) -> is_Some (until close (t ++ w)).
Proof.
  induction t as [|x t IH]; simpl; [by intros [? ?]|].
  destruct (x =? close); [done|]. by destruct (is_line_terminator x).
Qed.

(** What [until] skips is free of line terminators. *)
Lemma until_split close t u :
  is_line_terminator close = false -> until close t = Some u ->
  exists m, t = m ++ u /\ Forall (fun x => is_line_terminator x = false) m.
Proof.
  intros Hc. induction t as [|x t IH]; simpl; [done|].
  destruct (x =? close) eqn:E.
  - intros [= ->]. apply N.eqb_eq in E as ->. exists [close]. by repeat constructor.
  - destruct (is_line_terminator x) eqn:El; [done|]. intros Hu.
    destruct (IH Hu) as (m & -> & Hm). exists (x :: m). by repeat constructor.
Qed.

Lemma bracketed_split s u :
  bracketed s = Some u ->
  exists m, s = m ++ u /\ Forall (fun x => is_line_terminator x = false) m.
Proof.
  destruct s as [|c t]; simpl; [done|].
  destruct (c =? 0x28) eqn:E1; [|destruct (c =? 0xFF08) eqn:E2; [|done]];
    intros Hu; eapply until_split in Hu as (m & -> & Hm); try done;
    exists (c :: m); (split; [done|]); constructor; try done.
  - by apply N.eqb_eq in E1 as ->.
  - by apply N.eqb_eq in E2 as ->.
Qed.

Local Abbreviation strip := (replace_all BRACKETED []).

(** Removing bracketed parts never brings a closing bracket into reach. *)
Lemma until_strip close s :
  is_Some (until close (strip s)) -> is_Some (until close s).
Proof.
  apply (replace_all_ind BRACKETED []
    (fun s o => is_Some (until close o) -> is_Some (until close s)));
    [apply consuming_BRACKETED|done|..]; clear s.
  - intros c s rest E IH Ho. rewrite exec_BRACKETED in E.
    apply bracketed_split in E as (m & -> & Hm). apply until_app; auto.
  - intros c s E IH. simpl. destruct (c =? close); [done|].
    by destruct (is_line_terminator c).
Qed.

Lemma strip_no_bracketed s : occurs BRACKETED (strip s) = false.
Proof.
  apply (replace_all_ind BRACKETED [] (fun s o => occurs BRACKETED o = false));
    [apply consuming_BRACKETED|done|..]; clear s.
  - intros c s rest E IH. done.
  - intros c s E IH. simpl. rewrite IH.
    rewrite exec_BRACKETED in E |- *. simpl in *.
    destruct (c =? 0x28).
    + destruct (until 0x29 (strip s)) eqn:E'; [|done].
      assert (is_Some (until 0x29 s)) as [? Hs]
        by (apply until_strip; rewrite E'; eauto).
      congruence.
    + destruct (c =? 0xFF08); [|done].
      destruct (until 0xFF09 (strip s)) eqn:E'; [|done].
      assert (is_Some (until 0xFF09 s)) as [? Hs]
        by (apply until_strip; rewrite E'; eauto).
      congruence.
Qed.

Lemma bracketed_extend t w :
  is_Some (bracketed t) -> is_Some (bracketed (t ++ w)).
Proof.
  destruct t as [|c t]; simpl; [by intros [? ?]|].
  destruct (c =? 0x28); [apply until_extend|].
  destruct (c =? 0xFF08); [apply until_extend|by intros [? ?]].
Qed.

Lemma occurs_prefix_BRACKETED p s :
  p `prefix_of` s -> occurs BRACKETED p = true -> occurs BRACKETED s = true.
Proof.
  intros [w ->] Ho. apply occurs_true in Ho as (t & u & [k ->] & E).
  rewrite <- app_assoc. apply (occurs_suffix _ _ (t ++ w)); [by eexists|].
  rewrite exec_BRACKETED in E.
  destruct (bracketed_extend t w) as [u' Hu']; [by eexists|].
  destruct t as [|c t]; [done|]. simpl occurs. rewrite exec_BRACKETED.
  simpl app in Hu'. by rewrite Hu'.
Qed.

Lemma trim_no_bracketed s :
  occurs BRACKETED s = false -> occurs BRACKETED (trim s) = false.
Proof.
  intros Hs. destruct (occurs BRACKETED (trim s)) eqn:E; [|done].
  unfold trim in E.
  apply (occurs_prefix_BRACKETED _ _ (trimEnd_prefix _)) in E.
  apply (occurs_suffix _ _ _ (trimStart_suffix _)) in E. congruence.
Qed.

Lemma cleanSongTitle_no_bracketed x :
  occurs BRACKETED (cleanSongTitle x) = false.
Proof. apply trim_no_bracketed, strip_no_bracketed. Qed.

Lemma cleanSongTitle_idem x :
  cleanSongTitle (cleanSongTitle x) = cleanSongTitle x.
Proof.
  unfold cleanSongTitle at 1.
  rewrite replace_all_none by apply cleanSongTitle_no_bracketed.
  apply trim_idem.
Qed.





End TitleFacts.




(** * Patterns as shapes *)

Section ShapeFacts.
Implicit Types (s t : jsstring) (sh : list cclass) (k : jsstring -> option jsstring).

Lemma first_some_ext {A B} (f g : A -> option B) l :
  (forall x, f x = g x) -> first_some f l = first_some g l.
Proof. intros E. induction l as [|x l IH]; [done|]. simpl. by rewrite E, IH. Qed.

Lemma first_some_app {A B} (f : A -> option B) l1 l2 :
  first_some f (l1 ++ l2) =
  match first_some f l1 with Some y => Some y | None => first_some f l2 end.
Proof. induction l1 as [|x l1 IH]; [done|]. simpl. by destruct (f x). Qed.

Lemma first_some_map {A B C} (f : B -> option C) (g : A -> B) l :
  first_some f (map g l) = first_some (fun x => f (g x)) l.
Proof. induction l as [|x l IH]; [done|]. simpl. by rewrite IH. Qed.

Lemma first_some_flat_map {A B C} (f : B -> option C) (g : A -> list B) l :
  first_some f (flat_map g l) = first_some (fun x => first_some f (g x)) l.
Proof.
  induction l as [|x l IH]; [done|]. simpl. by rewrite first_some_app, IH.
Qed.

Lemma first_some_none {A B} (l : list A) :
  first_some (fun _ => @None B) l = None.
Proof. by induction l. Qed.

Lemma first_some_one {A B} (f : A -> option B) x : first_some f [x] = f x.
Proof. simpl. by destruct (f x). Qed.

Lemma shape_match_app sh1 sh2 s :
  shape_match (sh1 ++ sh2) s = shape_match sh1 s ≫= shape_match sh2.
Proof.
  revert s. induction sh1 as [|c sh1 IH]; intros s; [done|].
  destruct s as [|x s]; [done|]. simpl. by destruct (cclass_match c x).
Qed.

(** Shapes that begin with [c], tried on [s]. *)
Lemma first_some_cons_shape c (shs : list (list cclass)) s k :
  first_some (fun sh => shape_match sh s ≫= k) (map (cons c) shs) =
  match s with
  | x :: s' =>
    if cclass_match c x
    then first_some (fun sh => shape_match sh s' ≫= k) shs
    else None
  | [] => None
  end.
Proof.
  rewrite first_some_map. destruct s as [|x s'].
  - apply first_some_none.
  - simpl. destruct (cclass_match c x); [done|]. apply first_some_none.
Qed.

Lemma opt_match_shapes g c : forall extra s k,
  rep_match g c 0 (Some extra) s k =
  first_some (fun sh => shape_match sh s ≫= k) (opt_shapes g c extra).
Proof.
  induction extra as [|h IH]; intros s k.
  - cbn [opt_shapes]. rewrite first_some_one. cbn [shape_match mbind option_bind].
    destruct s as [|x s]; cbn [rep_match hi_more]; rewrite ?andb_false_r;
      destruct g; by destruct (k _).
  - cbn [opt_shapes]. destruct g.
    + rewrite first_some_app, first_some_cons_shape, first_some_one.
      cbn [shape_match mbind option_bind].
      destruct s as [|x s]; cbn [rep_match hi_more hi_pred fmap option_fmap option_map Nat.pred].
      * by destruct (k []).
      * rewrite andb_true_r. destruct (cclass_match c x); [|by destruct (k _)].
        by rewrite IH.
    + cbn [first_some shape_match mbind option_bind].
      rewrite first_some_cons_shape.
      destruct s as [|x s]; cbn [rep_match hi_more hi_pred fmap option_fmap option_map Nat.pred].
      * by destruct (k []).
      * rewrite andb_true_r. destruct (k (x :: s)); [done|].
        destruct (cclass_match c x); [|done]. by rewrite IH.
Qed.

Lemma rep_match_shapes g c : forall lo hi s k,
  rep_match g c lo (Some hi) s k =
  first_some (fun sh => shape_match sh s ≫= k) (rep_shapes g c lo (hi - lo)).
Proof.
  induction lo as [|lo IH]; intros hi s k.
  - rewrite Nat.sub_0_r. apply opt_match_shapes.
  - cbn [rep_shapes]. rewrite first_some_cons_shape.
    destruct s as [|x s]; cbn [rep_match]; [done|].
    destruct (cclass_match c x); [|done].
    cbn [hi_pred fmap option_fmap option_map]. rewrite IH.
    by replace (Nat.pred hi - lo)%nat with (hi - S lo)%nat by lia.
Qed.

(** The matcher tries the shapes of a bounded pattern in order. *)
Lemma re_match_shapes r : bounded r = true -> forall s k,
  re_match r s k = first_some (fun sh => shape_match sh s ≫= k) (expand r).
Proof.
  induction r as [c|r1 IH1 r2 IH2|r1 IH1 r2 IH2|r1 IH1|g c lo hi];
    cbn [bounded]; intros Hb s k.
  - cbn [expand re_match]. rewrite first_some_one.
    destruct s as [|x s]; [done|]. simpl. by destruct (cclass_match c x).
  - apply andb_true_iff in Hb as [Hb1 Hb2]. cbn [expand re_match].
    rewrite (IH1 Hb1), first_some_flat_map. apply first_some_ext. intros sh1.
    rewrite first_some_map.
    rewrite (first_some_ext _
      (fun sh2 => shape_match sh1 s ≫= fun s' => shape_match sh2 s' ≫= k)).
    + destruct (shape_match sh1 s) as [s'|]; cbn [mbind option_bind].
      * apply (IH2 Hb2).
      * by rewrite first_some_none.
    + intros sh2. rewrite shape_match_app.
      by destruct (shape_match sh1 s).
  - apply andb_true_iff in Hb as [Hb1 Hb2]. cbn [expand re_match].
    by rewrite first_some_app, (IH1 Hb1), (IH2 Hb2).
  - cbn [expand re_match]. rewrite first_some_app, first_some_one, (IH1 Hb).
    done.
  - apply bool_decide_eq_true in Hb as [h ->]. cbn [expand re_match].
    apply rep_match_shapes.
Qed.

Lemma exec_shapes r s : bounded r = true ->
  exec r s = first_some (fun sh => shape_match sh s) (expand r).
Proof.
  intros Hb. unfold exec. rewrite (re_match_shapes r Hb).
  apply first_some_ext. intros sh. by destruct (shape_match sh s).
Qed.

End ShapeFacts.

Section TagShapeFacts.
Implicit Types (s t m : jsstring) (sh : list cclass) (r : regex).

Lemma plain_class_match c x :
  plain_class c = true -> cclass_match c x = true ->
  (x =? OPEN) = false /\ (x =? CLOSE) = false /\ (x =? LF) = false.
Proof.
  destruct c as [y| |]; simpl; [| |done].
  - intros [[H1 H2]%andb_true_iff H3]%andb_true_iff ->%N.eqb_eq.
    by rewrite !negb_true_iff in *.
  - intros _ [H1 H2]%andb_true_iff. apply N.leb_le in H1, H2.
    unfold OPEN, CLOSE, LF. repeat split; apply N.eqb_neq; lia.
Qed.

(** What a shape matched. *)
Lemma shape_match_split sh s u :
  shape_match sh s = Some u ->
  exists m, s = m ++ u /\ Forall2 (fun c x => cclass_match c x = true) sh m.
Proof.
  revert s. induction sh as [|c sh IH]; intros s; simpl.
  - intros [= ->]. by exists [].
  - destruct s as [|x s]; [done|]. destruct (cclass_match c x) eqn:E; [|done].
    intros (m & -> & Hm)%IH. exists (x :: m). split; [done|]. by constructor.
Qed.

Lemma shape_match_matched sh m u :
  Forall2 (fun c x => cclass_match c x = true) sh m ->
  shape_match sh (m ++ u) = Some u.
Proof. induction 1 as [|c x sh m Hc _ IH]; [done|]. simpl. by rewrite Hc. Qed.

(** A shape of plain classes closed by a bracket looks at most as far as
    the first closing bracket. *)
Lemma shape_match_upto_close (mid : list cclass) s :
  forallb plain_class mid = true ->
  is_Some (shape_match (mid ++ [CChar CLOSE]) s) <->
  is_Some (shape_match (mid ++ [CChar CLOSE]) (upto_close s)).
Proof.
  revert s. induction mid as [|c mid IH]; intros s Hp.
  - destruct s as [|x s]; [done|]. simpl. destruct (x =? CLOSE) eqn:E; simpl.
    + by rewrite E.
    + rewrite E. done.
  - apply andb_true_iff in Hp as [Hc Hp]. destruct s as [|x s]; [done|].
    cbn [app shape_match upto_close].
    destruct (cclass_match c x) eqn:E.
    + destruct (plain_class_match _ _ Hc E) as (_ & -> & _).
      cbn [shape_match]. rewrite E. by apply IH.
    + destruct (x =? CLOSE); cbn [shape_match]; rewrite E; done.
Qed.

Lemma tag_shape_inv sh :
  tag_shape sh = true ->
  exists mid, sh = CChar OPEN :: mid ++ [CChar CLOSE] /\
              forallb plain_class mid = true.
Proof.
  destruct sh as [|[o| |] rest]; try done. simpl.
  intros [->%N.eqb_eq Hr]%andb_true_iff.
  destruct (rev rest) as [|[cl| |] mid] eqn:E; try done.
  apply andb_true_iff in Hr as [->%N.eqb_eq Hmid].
  exists (rev mid). split.
  - f_equal. rewrite <- (rev_involutive rest), E. done.
  - rewrite forallb_forall in *. intros x Hx. apply Hmid. by apply in_rev.
Qed.

(** What a tag-like pattern matches. *)
Lemma tag_like_exec r s u :
  tag_like r = true -> exec r s = Some u ->
  exists m, s = OPEN :: m ++ CLOSE :: u /\
            Forall (fun x => (x =? OPEN) = false /\ (x =? CLOSE) = false
                             /\ (x =? LF) = false) m.
Proof.
  intros [Hb Hsh]%andb_true_iff. rewrite (exec_shapes r s Hb).
  rewrite forallb_forall in Hsh.
  induction (expand r) as [|sh shs IH]; [done|]. simpl.
  destruct (shape_match sh s) as [u'|] eqn:E.
  - intros [= ->].
    destruct (tag_shape_inv sh) as (mid & -> & Hmid); [apply Hsh; left; done|].
    change (CChar OPEN :: mid ++ [CChar CLOSE])
      with ([CChar OPEN] ++ mid ++ [CChar CLOSE]) in E.
    apply shape_match_split in E as (m & -> & Hm).
    apply Forall2_app_inv_l in Hm as (m1 & m' & H1 & Hm' & ->).
    apply Forall2_app_inv_l in Hm' as (m2 & m3 & H2 & H3 & ->).
    apply Forall2_cons_inv_l in H1 as (o & ? & ->%N.eqb_eq & ->%Forall2_nil_inv_l & ->).
    apply Forall2_cons_inv_l in H3 as (cl & ? & ->%N.eqb_eq & ->%Forall2_nil_inv_l & ->).
    exists m2. split; [by rewrite <- !app_assoc|].
    clear -H2 Hmid. induction H2 as [|c x mid m2 Hc _ IH]; [done|].
    apply andb_true_iff in Hmid as [Hp Hmid]. constructor; [|by apply IH].
    by eapply plain_class_match.
  - intros Hu. apply IH; [|done]. intros x Hx. apply Hsh. by right.
Qed.

Lemma tag_like_open r s u :
  tag_like r = true -> exec r s = Some u -> exists t, s = OPEN :: t.
Proof. intros Hr (m & -> & _)%(tag_like_exec _ _ _ Hr). by eexists. Qed.

Lemma tag_like_consuming r : tag_like r = true -> consuming r.
Proof.
  intros Hr s u (m & -> & _)%(tag_like_exec _ _ _ Hr). simpl.
  rewrite length_app. simpl. lia.
Qed.

(** Whether a tag opens at a [[] depends on the text up to the first
    []] only. *)
Lemma tag_like_upto_close r s t :
  tag_like r = true -> upto_close s = upto_close t ->
  is_Some (exec r (OPEN :: s)) -> is_Some (exec r (OPEN :: t)).
Proof.
  intros [Hb Hsh]%andb_true_iff Heq. rewrite !(exec_shapes r _ Hb).
  rewrite forallb_forall in Hsh.
  induction (expand r) as [|sh shs IH]; [simpl; by intros [? ?]|]. simpl.
  destruct (tag_shape_inv sh) as (mid & -> & Hmid); [apply Hsh; left; done|].
  cbn [shape_match cclass_match]. rewrite N.eqb_refl.
  destruct (shape_match (mid ++ [CChar CLOSE]) s) as [u|] eqn:Es.
  - intros _.
    assert (is_Some (shape_match (mid ++ [CChar CLOSE]) t)) as [u' ->]; [|by eexists].
    apply (proj2 (shape_match_upto_close mid t Hmid)). rewrite <- Heq.
    apply (proj1 (shape_match_upto_close mid s Hmid)). by eexists.
  - intros Hs. destruct (shape_match (mid ++ [CChar CLOSE]) t); [by eexists|].
    apply IH; [|done]. intros x Hx. apply Hsh. by right.
Qed.

(** A tag-like pattern that matches goes on matching when text is added. *)
Lemma tag_like_extend r s w :
  tag_like r = true -> is_Some (exec r s) -> is_Some (exec r (s ++ w)).
Proof.
  intros Hr [u Hu]. destruct (tag_like_exec _ _ _ Hr Hu) as (m & -> & Hm).
  apply andb_true_iff in Hr as [Hb Hsh].
  rewrite (exec_shapes r _ Hb) in Hu. rewrite (exec_shapes r _ Hb).
  induction (expand r) as [|sh shs IH]; [done|]. simpl in *.
  destruct (shape_match sh (OPEN :: m ++ CLOSE :: u)) as [u'|] eqn:E.
  - apply shape_match_split in E as (m' & E & Hm').
    change (OPEN :: (m ++ CLOSE :: u) ++ w) with ((OPEN :: m ++ CLOSE :: u) ++ w).
    rewrite E, <- app_assoc, (shape_match_matched _ _ _ Hm'). by eexists.
  - destruct (shape_match sh (OPEN :: (m ++ CLOSE :: u) ++ w)); [by eexists|].
    apply IH; [|done]. apply andb_true_iff in Hsh as [_ ?]. done.
Qed.

End TagShapeFacts.

(** * Timing tags *)

Section ScanFacts.
Implicit Types (s t m : jsstring) (r : regex).

Lemma unnested_suffix r s t :
  t `suffix_of` s -> unnested r s = true -> unnested r t = true.
Proof.
  intros [k ->]. induction k as [|c k IH]; [done|].
  simpl. intros [_ ?]%andb_true_iff. auto.
Qed.

Lemma tag_like_head r c s :
  tag_like r = true -> (c =? OPEN) = false -> exec r (c :: s) = None.
Proof.
  intros Hr Hc. destruct (exec r (c :: s)) as [u|] eqn:E; [|done].
  apply (tag_like_open _ _ _ Hr) in E as [t [= -> _]]. by rewrite N.eqb_refl in Hc.
Qed.

(** Up to the first closing bracket the scan changes nothing, when no
    opening bracket comes before it. *)
Lemma strip_upto_close r s :
  tag_like r = true -> closes_first s = true ->
  upto_close (replace_all r [] s) = upto_close s.
Proof.
  intros Hr. induction s as [|c s IH]; [done|].
  rewrite replace_all_cons by (by apply tag_like_consuming).
  cbn [closes_first upto_close].
  destruct (c =? CLOSE) eqn:Ec.
  - apply N.eqb_eq in Ec as ->. rewrite tag_like_head by done. intros _.
    cbn [upto_close]. by rewrite N.eqb_refl.
  - destruct (c =? OPEN) eqn:Eo; [done|]. rewrite tag_like_head by done.
    intros Hs. cbn [upto_close]. rewrite Ec. f_equal. by apply IH.
Qed.

(** The scan of an unnested text leaves no match behind. *)
Lemma strip_no_tag r s :
  tag_like r = true -> unnested r s = true ->
  occurs r (replace_all r [] s) = false.
Proof.
  intros Hr.
  apply (replace_all_ind r []
    (fun s o => unnested r s = true -> occurs r o = false));
    [by apply tag_like_consuming| |..]; clear s.
  - intros _. simpl. destruct (exec r []) as [u|] eqn:E; [|done].
    by apply (tag_like_open _ _ _ Hr) in E as [t ?].
  - intros c s rest E IH Hu. apply IH.
    eapply unnested_suffix; [|done]. by eapply exec_suffix.
  - intros c s E IH. cbn [unnested]. rewrite E.
    intros [Hc Hs]%andb_true_iff. cbn [occurs]. rewrite (IH Hs).
    destruct (exec r (c :: replace_all r [] s)) as [u|] eqn:E'; [exfalso|done].
    destruct (tag_like_open _ _ _ Hr E') as [t [= -> _]].
    rewrite N.eqb_refl in Hc.
    rewrite bool_decide_eq_false_2 in Hc by (by intros [? ?]). simpl in Hc.
    destruct (tag_like_upto_close r (replace_all r [] s) s Hr) as [u' Hu'].
    + by apply strip_upto_close.
    + by eexists.
    + congruence.
Qed.

(** ** Segments *)

Lemma segment_of_suffix m s t : t `suffix_of` s -> segment_of m t -> segment_of m s.
Proof. intros [k ->] (a & b & ->). exists (k ++ a), b. by rewrite <- app_assoc. Qed.

Lemma segment_of_prefix m s t : t `prefix_of` s -> segment_of m t -> segment_of m s.
Proof.
  intros [k ->] (a & b & ->). exists a, (b ++ k). by rewrite <- !app_assoc.
Qed.

Lemma segment_of_trim m s : segment_of m (trim s) -> segment_of m s.
Proof.
  intros Hm. eapply segment_of_suffix; [apply trimStart_suffix|].
  eapply segment_of_prefix; [apply trimEnd_prefix|done].
Qed.

Lemma segment_of_cons m x s :
  segment_of m (x :: s) -> m `prefix_of` (x :: s) \/ segment_of m s.
Proof.
  intros ([|y a] & b & E).
  - left. exists b. done.
  - right. injection E as -> ->. by exists a, b.
Qed.

Lemma prefix_of_segment m s : m `prefix_of` s -> segment_of m s.
Proof. intros [k ->]. by exists [], k. Qed.

Lemma prefix_before m l x rest :
  x ∉ m -> m `prefix_of` (l ++ x :: rest) -> m `prefix_of` l.
Proof.
  revert m. induction l as [|y l IH]; intros m Hx [k E].
  - destruct m as [|z m]; [by exists []|]. injection E as <- _.
    exfalso. apply Hx. left.
  - destruct m as [|z m]; [by eexists|]. injection E as <- E.
    destruct (IH m) as [k' ->]; [set_solver|by exists k|]. by exists k'.
Qed.

(** A segment without [x] lies on one side of an [x]. *)
Lemma segment_of_app_cons m l x rest :
  x ∉ m -> segment_of m (l ++ x :: rest) ->
  segment_of m l \/ segment_of m rest.
Proof.
  intros Hx. induction l as [|y l IH]; intros Hm.
  - apply segment_of_cons in Hm as [Hm|Hm]; [left|by right].
    apply prefix_of_segment. by apply (prefix_before m [] x rest).
  - apply segment_of_cons in Hm as [Hm|Hm].
    + left. apply prefix_of_segment. by apply (prefix_before m (y :: l) x rest).
    + destruct (IH Hm) as [?|?]; [left|by right].
      eapply segment_of_suffix; [|done]. by apply suffix_cons_r.
Qed.

Lemma split_lines_spec s :
  exists l0 ls, split_lines s = l0 :: ls /\ l0 `prefix_of` s /\
                forall l, l ∈ ls -> segment_of l s.
Proof.
  induction s as [|c s (l0 & ls & E & Hp & Hs)].
  - exists [], []. repeat split; [done|]. by intros l ?%elem_of_nil.
  - simpl. rewrite E. destruct (c =? LF).
    + exists [], (l0 :: ls). split; [done|]. split; [by exists (c :: s)|].
      intros l [->|Hl]%elem_of_cons.
      * eapply segment_of_suffix; [by apply suffix_cons_r|].
        by apply prefix_of_segment.
      * eapply segment_of_suffix; [by apply suffix_cons_r|]. by apply Hs.
    + exists (c :: l0), ls. split; [done|]. split.
      * destruct Hp as [k ->]. by exists k.
      * intros l Hl. eapply segment_of_suffix; [by apply suffix_cons_r|].
        by apply Hs.
Qed.

Lemma segment_of_split_lines l s : l ∈ split_lines s -> segment_of l s.
Proof.
  destruct (split_lines_spec s) as (l0 & ls & -> & Hp & Hs).
  intros [->|Hl]%elem_of_cons; [by apply prefix_of_segment|by apply Hs].
Qed.

Lemma segment_of_trans m l s : segment_of m l -> segment_of l s -> segment_of m s.
Proof.
  intros (a & b & ->) (a' & b' & ->). exists (a' ++ a), (b ++ b').
  by rewrite <- !app_assoc.
Qed.

(** A non-empty segment without a line feed lies in one of the lines. *)
Lemma segment_of_join_lines m ls :
  m <> [] -> LF ∉ m -> segment_of m (join_lines ls) ->
  exists l, l ∈ ls /\ segment_of m l.
Proof.
  intros Hne Hlf. induction ls as [|l ls IH]; simpl.
  - intros ([|? ?] & b & E); [|done]. by destruct m.
  - destruct ls as [|l' ls'].
    + intros Hm. exists l. split; [left|done].
    + intros [Hm|Hm]%segment_of_app_cons; [| |done].
      * exists l. split; [left|done].
      * destruct (IH Hm) as (l0 & ? & ?). exists l0. split; [by right|done].
Qed.

(** Collapsing runs of line feeds keeps every segment without a line
    feed where it was. *)
Lemma consuming_THREE_OR_MORE_LF : consuming THREE_OR_MORE_LF.
Proof.
  intros s t. unfold exec, THREE_OR_MORE_LF. cbn [re_match].
  destruct s as [|x s]; [done|]. cbn [rep_match].
  destruct (cclass_match (CChar LF) x); [|done].
  intros (s' & [= ->] & Hs)%rep_match_inv. apply suffix_length in Hs.
  simpl. lia.
Qed.

Lemma segment_of_collapse m s :
  LF ∉ m -> segment_of m (replace_all THREE_OR_MORE_LF [LF; LF] s) ->
  segment_of m s.
Proof.
  revert m.
  cut (forall m, LF ∉ m ->
         (m `prefix_of` replace_all THREE_OR_MORE_LF [LF; LF] s -> m `prefix_of` s) /\
         (segment_of m (replace_all THREE_OR_MORE_LF [LF; LF] s) -> segment_of m s));
    [intros Hc m Hlf; by apply Hc|].
  apply (replace_all_ind THREE_OR_MORE_LF [LF; LF]
    (fun s o => forall m, LF ∉ m ->
                  (m `prefix_of` o -> m `prefix_of` s) /\
                  (segment_of m o -> segment_of m s)));
    [apply consuming_THREE_OR_MORE_LF|done|..]; clear s.
  - intros c s rest E IH m Hlf.
    assert (forall o, m `prefix_of` LF :: o -> m = []) as Hnil.
    { intros o [k Hk]. destruct m as [|x m]; [done|]. injection Hk as <- _.
      exfalso. apply Hlf. left. }
    split.
    + intros ->%Hnil. by eexists.
    + intros [Hm|Hm]%segment_of_cons.
      * rewrite (Hnil _ Hm). by exists [], (c :: s).
      * apply segment_of_cons in Hm as [Hm|Hm].
        -- rewrite (Hnil _ Hm). by exists [], (c :: s).
        -- eapply segment_of_suffix; [by eapply exec_suffix|]. by apply IH.
  - intros c s E IH m Hlf.
    assert (m `prefix_of` c :: replace_all THREE_OR_MORE_LF [LF; LF] s ->
            m `prefix_of` c :: s) as Hp.
    { intros [k Hk]. destruct m as [|x m]; [by eexists|]. injection Hk as <- Hk.
      destruct (IH m) as [[k' ->] _]; [set_solver|by exists k|]. by exists k'. }
    split; [done|].
    intros [Hm|Hm]%segment_of_cons.
    + by apply prefix_of_segment, Hp.
    + eapply segment_of_suffix; [by apply suffix_cons_r|]. by apply IH.
Qed.

End ScanFacts.

Section CleanFacts.
Implicit Types (s t m : jsstring) (r : regex).

Lemma upto_close_app m u :
  Forall (fun x => (x =? CLOSE) = false) m ->
  upto_close (m ++ CLOSE :: u) = m ++ [CLOSE].
Proof.
  induction 1 as [|x m Hx _ IH]; simpl; [done|]. by rewrite Hx, IH.
Qed.

Lemma occurs_head r s : is_Some (exec r s) -> occurs r s = true.
Proof. intros [u Hu]. destruct s; simpl; by rewrite Hu. Qed.

(** No match comes up in a text whose segments without line feed all
    stand in a text without match. *)
Lemma occurs_transfer r o y :
  tag_like r = true ->
  (forall m, m <> [] -> LF ∉ m -> segment_of m o -> segment_of m y) ->
  occurs r y = false -> occurs r o = false.
Proof.
  intros Hr Hseg Hy. destruct (occurs r o) eqn:Ho; [exfalso|done].
  apply occurs_true in Ho as (t & u & [k ->] & E).
  destruct (tag_like_exec _ _ _ Hr E) as (m & -> & Hm).
  destruct (Hseg (OPEN :: m ++ [CLOSE])) as (a & b & ->).
  - done.
  - intros [?|[Hin|Hin]%elem_of_app]%elem_of_cons; [done| |].
    + eapply Forall_forall in Hm as (_ & _ & Hlf); [|exact Hin].
      by rewrite N.eqb_refl in Hlf.
    + by apply list_elem_of_singleton in Hin.
  - exists k, u. simpl. by rewrite <- app_assoc.
  - assert (occurs r ((OPEN :: m ++ [CLOSE]) ++ b) = true) as Hocc.
    { apply occurs_head, tag_like_extend; [done|].
      apply (tag_like_upto_close r (m ++ CLOSE :: u)); [done| |by eexists].
      rewrite upto_close_app.
      - change (m ++ [CLOSE]) with (m ++ CLOSE :: []).
        rewrite upto_close_app; [done|].
        eapply Forall_impl; [exact Hm|]. by intros x (_ & ? & _).
      - eapply Forall_impl; [exact Hm|]. by intros x (_ & ? & _). }
    apply (occurs_suffix r (a ++ (OPEN :: m ++ [CLOSE]) ++ b)) in Hocc;
      [congruence|by eexists].
Qed.

Lemma tag_like_pattern c : tag_like (tag_pattern c) = true.
Proof. destruct c; vm_compute; reflexivity. Qed.

Lemma tag_like_nil r : tag_like r = true -> occurs r [] = false.
Proof.
  intros Hr. simpl. destruct (exec r []) as [u|] eqn:E; [|done].
  by apply (tag_like_open _ _ _ Hr) in E as [t ?].
Qed.

Lemma cleanLyrics_collapse_no_tag s :
  unnested TAG_FRACTION_OPTIONAL s = true ->
  occurs TAG_FRACTION_OPTIONAL (cleanLyrics_collapse s) = false.
Proof.
  pose proof (tag_like_pattern Collapsing) as Hr. cbn [tag_pattern] in Hr.
  intros Hu. unfold cleanLyrics_collapse.
  destruct s as [|c s]; [by apply tag_like_nil|].
  apply (occurs_transfer _ _ (replace_all TAG_FRACTION_OPTIONAL [] (c :: s)));
    [done| |by apply strip_no_tag].
  intros m _ Hlf Hm. by apply segment_of_trim, segment_of_collapse.
Qed.

Lemma cleanLyrics_lines_no_tag s :
  unnested TAG_FRACTION_REQUIRED s = true ->
  occurs TAG_FRACTION_REQUIRED (cleanLyrics_lines s) = false.
Proof.
  pose proof (tag_like_pattern LineWise) as Hr. cbn [tag_pattern] in Hr.
  intros Hu. unfold cleanLyrics_lines.
  destruct s as [|c s]; [by apply tag_like_nil|].
  apply (occurs_transfer _ _ (replace_all TAG_FRACTION_REQUIRED [] (c :: s)));
    [done| |by apply strip_no_tag].
  intros m Hne Hlf (l & Hl & Hm)%segment_of_join_lines; [|done..].
  apply list_elem_of_filter in Hl as [_ Hl].
  apply list_elem_of_fmap in Hl as (l' & -> & Hl').
  eapply segment_of_trans; [exact Hm|].
  eapply segment_of_trans; [|by apply segment_of_split_lines].
  apply segment_of_trim. exists [], []. by rewrite app_nil_r.
Qed.

Lemma tags_only_unnested r s : tags_only r s = true -> unnested r s = true.
Proof.
  induction s as [|c s IH]; [done|]. cbn [tags_only unnested].
  intros [Hc Hs]%andb_true_iff. rewrite (IH Hs), andb_true_r.
  destruct (c =? OPEN); [|done]. by rewrite Hc.
Qed.

End CleanFacts.

Section TagFacts.
Implicit Types s t : jsstring.

Lemma tags_only_suffix r s t :
  t `suffix_of` s -> tags_only r s = true -> tags_only r t = true.
Proof.
  intros [k ->]. induction k as [|c k IH]; [done|].
  simpl. intros [_ ?]%andb_true_iff. auto.
Qed.

Lemma tags_only_replace r s :
  consuming r -> tags_only r s = true -> OPEN ∉ replace_all r [] s.
Proof.
  intros Hc.
  apply (replace_all_ind r [] (fun s o => tags_only r s = true -> OPEN ∉ o));
    [done| |..]; clear s.
  - intros _. apply not_elem_of_nil.
  - intros c s rest E IH Ht. apply IH.
    eapply tags_only_suffix; [|done]. by eapply exec_suffix.
  - intros c s E IH. cbn [tags_only]. rewrite E.
    intros [Hc' Hs]%andb_true_iff. intros [Heq|?]%elem_of_cons; [subst c|by apply IH].
    rewrite N.eqb_refl in Hc'. apply bool_decide_eq_true in Hc' as [? ?]. done.
Qed.

Lemma consuming_tag c : consuming (tag_pattern c).
Proof. destruct c; apply consuming_lit_seq. Qed.

Lemma occurs_TIMING_TAG_open s : occurs TIMING_TAG s = true -> OPEN ∈ s.
Proof.
  intros (t & u & [k ->] & E)%occurs_true.
  assert (exists t', t = OPEN :: t') as [t' ->]; [|set_solver].
  unfold TIMING_TAG in E.
  repeat (apply exec_alt in E as [E|E]);
    apply exec_lit_seq in E as (t' & -> & _); by exists t'.
Qed.

Lemma cleanLyrics_collapse_elem x s :
  x ∈ cleanLyrics_collapse s ->
  x = LF \/ x ∈ replace_all TAG_FRACTION_OPTIONAL [] s.
Proof.
  unfold cleanLyrics_collapse. destruct s as [|c s]; [by intros ?%elem_of_nil|].
  intros [Hx|Hx]%replace_all_elem.
  - left. apply elem_of_cons in Hx as [?|Hx]; [done|].
    by apply list_elem_of_singleton in Hx.
  - right. by apply trim_elem.
Qed.

Lemma cleanLyrics_lines_elem x s :
  x ∈ cleanLyrics_lines s ->
  x = LF \/ x ∈ replace_all TAG_FRACTION_REQUIRED [] s.
Proof.
  unfold cleanLyrics_lines. destruct s as [|c s]; [by intros ?%elem_of_nil|].
  intros [->|(l & Hl & Hx)]%join_lines_elem; [by left|right].
  apply list_elem_of_filter in Hl as [_ Hl].
  apply list_elem_of_fmap in Hl as (l' & -> & Hl').
  eapply split_lines_elem; [done|]. by apply trim_elem.
Qed.

End TagFacts.

(** C1, as the code has it.  Each [cleanLyrics] deletes, in one scan from
    left to right, the timing tags that its own pattern matches
    ([[mm:ss]], [[mm:ss.ff]], [[mm:ss.fff]] for the collapsing one;
    [[mm:ss.ff]], [[mm:ss.fff]] and the same after [[mm:ss:ss]] for the
    line-wise one).  When no [[] of the raw text that fails to open such
    a tag has another [[] before its []], the cleaned text holds no tag
    of that pattern; when moreover every [[] of the raw text opens such a
    tag, the cleaned text holds no timing tag of any of the four
    forms. *)
Theorem cleanLyrics_leaves_no_tag (c : cleaner) (raw : jsstring) :
  unnested (tag_pattern c) raw = true ->
  occurs (tag_pattern c) (cleanLyrics_of c raw) = false /\
  (tags_only (tag_pattern c) raw = true ->
   occurs TIMING_TAG (cleanLyrics_of c raw) = false).
Proof.
  intros Hu. split.
  - destruct c; [by apply cleanLyrics_collapse_no_tag
                |by apply cleanLyrics_lines_no_tag].
  - intros Ht. destruct (occurs TIMING_TAG _) eqn:E; [exfalso|done].
    apply occurs_TIMING_TAG_open in E.
    apply (tags_only_replace _ _ (consuming_tag c)) in Ht.
    destruct c; simpl in *.
    + apply cleanLyrics_collapse_elem in E as [E|E]; [discriminate|done].
    + apply cleanLyrics_lines_elem in E as [E|E]; [discriminate|done].
Qed.

Lemma cleanLyrics_leaves_no_tag_witness :
  unnested (tag_pattern LineWise) SCENARIO_1 = true /\
  occurs (tag_pattern LineWise) (cleanLyrics_of LineWise SCENARIO_1) = false /\
  occurs TIMING_TAG (cleanLyrics_of LineWise SCENARIO_1) = false.
Proof.
  assert (unnested (tag_pattern LineWise) SCENARIO_1 = true) as Hu
    by (vm_compute; reflexivity).
  destruct (cleanLyrics_leaves_no_tag LineWise SCENARIO_1 Hu) as [H1 H2].
  split; [exact Hu|]. split; [exact H1|].
  apply H2. vm_compute. reflexivity.
Defined.

(** A bracket that is no tag stays; the tags around it go. *)
Example cleanLyrics_keeps_other_brackets :
  unnested TAG_FRACTION_OPTIONAL (js "[00:01][chorus] la [00:02.50]") = true /\
  cleanLyrics_collapse (js "[00:01][chorus] la [00:02.50]") = js "[chorus] la".
Proof. vm_compute. split; reflexivity. Qed.

(** C1 as stated fails: a tag that only comes together when a tag nested
    in it is deleted is still there after the single scan. *)
Lemma cleanLyrics_nested_tag_survives :
  cleanLyrics_collapse (js "[00:[00:00]00]la") = js "[00:00]la" /\
  occurs TIMING_TAG (cleanLyrics_collapse (js "[00:[00:00]00]la")) = true /\
  cleanLyrics_lines (js "[00:[00:00.00]00.00]la") = js "[00:00.00]la" /\
  occurs TIMING_TAG (cleanLyrics_lines (js "[00:[00:00.00]00.00]la")) = true.
Proof. vm_compute. repeat split; reflexivity. Qed.

(** Each pattern also leaves one of the four forms alone. *)
Example cleanLyrics_lines_keeps_short_tag :
  cleanLyrics_lines (js "[00:05]la") = js "[00:05]la".
Proof. vm_compute. reflexivity. Qed.

Example cleanLyrics_collapse_keeps_long_tag :
  cleanLyrics_collapse (js "[00:01:02.33]la") = js "[00:01:02.33]la".
Proof. vm_compute. reflexivity. Qed.

Example cleanLyrics_scenario_1 :
  cleanLyrics_lines SCENARIO_1 =
  js "作词：A" ++ LF :: js "作曲：B" ++ LF :: js "第一行歌词" ++ LF :: js "第二行歌词".
Proof. vm_compute. reflexivity. Qed.

Lemma str_eqb_eq (a b : jsstring) : str_eqb a b = true <-> a = b.
Proof.
  revert b. induction a as [|x a IH]; intros [|y b]; simpl; try done.
  rewrite andb_true_iff, N.eqb_eq, IH. split; [by intros [-> ->]|by intros [= -> ->]].
Qed.

(** * The metadata extractor *)

Section ExtractFacts.
Import MetadataExtractor.
Implicit Types (lines : list jsstring) (m : gmap jsstring jsstring).

Lemma extract_lines_residual lines m :
  (extract_lines lines m).1 = filter (fun line => is_credit line = false) lines.
Proof.
  revert m. induction lines as [|line lines IH]; intros m; [done|].
  cbn [extract_lines]. rewrite filter_cons.
  assert (is_credit line = match credit line with Some _ => true | None => false end)
    as Hc by done.
  destruct (credit line) as [[role name]|] eqn:E.
  - rewrite decide_False by (by rewrite Hc). apply IH.
  - rewrite decide_True by done.
    specialize (IH m). destruct (extract_lines lines m). simpl in *. by f_equal.
Qed.

Lemma residual_credit_perm lines :
  filter (fun line => is_credit line = false) lines ++ credit_lines lines ≡ₚ lines.
Proof.
  unfold credit_lines. induction lines as [|line lines IH]; [done|].
  rewrite !filter_cons. destruct (is_credit line) eqn:E.
  - rewrite decide_False, decide_True by done.
    rewrite <- Permutation_middle. by constructor.
  - rewrite decide_True, decide_False by done. simpl. by constructor.
Qed.

Lemma extract_lines_metadata role lines m :
  (extract_lines lines m).2 !! role =
  match last (names_for role lines) with
  | Some name => Some name
  | None => m !! role
  end.
Proof.
  revert m. induction lines as [|line lines IH]; intros m; [done|].
  unfold names_for in *. simpl.
  destruct (credit line) as [[r name]|] eqn:E.
  - rewrite IH. destruct (str_eqb r role) eqn:Er.
    + apply str_eqb_eq in Er as ->. simpl. rewrite last_cons.
      destruct (last _); [done|]. apply lookup_insert_eq.
    + simpl. destruct (last _); [done|]. apply lookup_insert_ne.
      intros ->. rewrite (proj2 (str_eqb_eq role role)) in Er; done.
  - simpl. specialize (IH m). destruct (extract_lines lines m). simpl in *.
    apply IH.
Qed.

End ExtractFacts.

(** C7.  [extract] splits the lines of a cleaned text in two: the residual
    lyrics are exactly the lines that are no credit lines, the removed lines
    exactly the credit lines, each part is a subsequence of the text in its
    original order, and the two parts together hold every line of the text
    once (they are a rearrangement of it).  The metadata map gives a role
    the name of the last line that credits it, and nothing for a role that
    no line credits. *)
Theorem extract_partitions_lines (cleanedText role : jsstring) :
  let lines := split_lines cleanedText in
  let residual := (MetadataExtractor.extract_lines lines ∅).1 in
  let removed := MetadataExtractor.credit_lines lines in
  (MetadataExtractor.extract cleanedText).1 = join_lines residual /\
  residual = filter (fun line => MetadataExtractor.is_credit line = false) lines /\
  residual ++ removed ≡ₚ lines /\
  residual `sublist_of` lines /\
  removed `sublist_of` lines /\
  (MetadataExtractor.extract cleanedText).2 !! role =
    last (MetadataExtractor.names_for role lines).
Proof.
  intros lines residual removed. subst residual removed.
  rewrite extract_lines_residual.
  assert ((MetadataExtractor.extract cleanedText).2 =
          (MetadataExtractor.extract_lines lines ∅).2 /\
          (MetadataExtractor.extract cleanedText).1 =
          join_lines (MetadataExtractor.extract_lines lines ∅).1) as [E2 E1].
  { unfold MetadataExtractor.extract. fold lines.
    by destruct (MetadataExtractor.extract_lines lines ∅). }
  rewrite E1, E2, extract_lines_residual, extract_lines_metadata.
  repeat split.
  - apply residual_credit_perm.
  - apply sublist_filter.
  - apply sublist_filter.
  - rewrite lookup_empty. by destruct (last _).
Qed.

Example extract_scenario_1 :
  MetadataExtractor.extract (cleanLyrics_lines SCENARIO_1) =
  (js "第一行歌词" ++ LF :: js "第二行歌词",
   {[ js "作词" := js "A"; js "作曲" := js "B" ]}).
Proof. vm_compute. reflexivity. Qed.

Example extract_last_wins :
  (MetadataExtractor.extract
     (js "作词：A" ++ LF :: js "la" ++ LF :: js "作词:B")).2 !! js "作词"
  = Some (js "B").
Proof. vm_compute. reflexivity. Qed.

(** * Producers *)

Section ProducerFacts.
Context {numbers : Numbers} {host : Host}.
Implicit Types (v : value) (props : list (jsstring * value)).

Lemma own_put props k x : own (put props k x) k = Some x.
Proof.
  induction props as [|[k' v] props IH]; simpl.
  - by rewrite (proj2 (str_eqb_eq k k)).
  - destruct (str_eqb k' k) eqn:E; simpl; by rewrite E.
Qed.

Lemma own_put_ne props k k' x :
  k <> k' -> own (put props k x) k' = own props k'.
Proof.
  intros Hne. induction props as [|[k0 v] props IH]; simpl.
  - destruct (str_eqb k k') eqn:E; [by apply str_eqb_eq in E|done].
  - destruct (str_eqb k0 k) eqn:E; simpl.
    + apply str_eqb_eq in E as ->.
      destruct (str_eqb k k') eqn:E'; [by apply str_eqb_eq in E'|done].
    + by rewrite IH.
Qed.

Lemma flat_strings names : flat (strings names) = strings names.
Proof. induction names as [|n names IH]; [done|]. unfold flat in *. simpl. by f_equal. Qed.

Lemma filter_strings names :
  filter (fun item => is_string item = true) (strings names) = strings names.
Proof.
  induction names as [|n names IH]; [done|]. unfold strings in *. simpl.
  rewrite filter_cons, decide_True by done. by f_equal.
Qed.

Lemma flat_groups (groups : list (list jsstring)) :
  flat ((fun g => VArray (strings g)) <$> groups) = strings (concat groups).
Proof.
  induction groups as [|g groups IH]; [done|]. unfold flat, strings in *. simpl.
  rewrite fmap_app. by f_equal.
Qed.

Lemma Forall_filter_string (items : list value) :
  Forall (fun x => is_string x = true) (filter (fun item => is_string item = true) items).
Proof. apply Forall_forall. by intros x [? _]%list_elem_of_filter. Qed.

Lemma cleanP_masters_shape input out :
  CleanExisting.cleanP_masters input = Some out -> shape_ok input out.
Proof.
  unfold CleanExisting.cleanP_masters, shape_ok. intros Hout.
  assert (forall items, input = VArray items ->
            out = filter (fun item => is_string item = true) (flat items)) as Harr.
  { intros items ->. by injection Hout. }
  repeat split.
  - destruct input; simpl in Hout;
      try (injection Hout as <-; by repeat constructor);
      try (destruct (to_String _) in Hout; simpl in Hout;
           injection Hout as <-; by repeat constructor); try done.
    + destruct b; simpl in Hout; injection Hout as <-; by repeat constructor.
    + destruct (number_truthy n); simpl in Hout;
        injection Hout as <-; by repeat constructor.
    + injection Hout as <-. apply Forall_filter_string.
    + destruct (own props _); simpl in Hout; [done|].
      injection Hout as <-. by repeat constructor.
  - intros names Hi. rewrite (Harr _ Hi), flat_strings. apply filter_strings.
  - intros groups Hi. rewrite (Harr _ Hi), flat_groups. apply filter_strings.
  - intros s -> _. by injection Hout.
Qed.

Lemma p_masters_of_shape song input out :
  prop song "artist" = Some input ->
  Ingest1.p_masters_of song = Some out -> shape_ok input out.
Proof.
  unfold Ingest1.p_masters_of, shape_ok. intros -> Hout. simpl in Hout.
  assert (forall items, input = VArray items ->
            out = filter (fun item => is_string item = true) (flat items)) as Harr.
  { intros items ->. by injection Hout. }
  repeat split.
  - destruct input; simpl in Hout;
      try (injection Hout as <-; by repeat constructor); try done.
    + destruct b; simpl in Hout; injection Hout as <-; by repeat constructor.
    + destruct (number_truthy n); simpl in Hout;
        injection Hout as <-; by repeat constructor.
    + destruct s; simpl in Hout; injection Hout as <-; by repeat constructor.
    + injection Hout as <-. apply Forall_filter_string.
    + destruct (own props _); simpl in Hout; [done|].
      injection Hout as <-. by repeat constructor.
  - intros names Hi. rewrite (Harr _ Hi), flat_strings. apply filter_strings.
  - intros groups Hi. rewrite (Harr _ Hi), flat_groups. apply filter_strings.
  - intros s -> Hs. destruct s; [done|]. by injection Hout.
Qed.

End ProducerFacts.

Section ProducedFacts.
Context {numbers : Numbers} {host : Host}.

Lemma lyric_record_inv song reply rec :
  Ingest1.lyric_record song reply = Some rec ->
  exists lyricData s p_masters name,
    reply ≫= JSON_parse = Some lyricData /\
    prop lyricData "lyric" = Some (VString s) /\
    nonempty (trim s) = true /\ includes s PURE_MUSIC = false /\
    Ingest1.p_masters_of song = Some p_masters /\
    prop song "name" = Some name /\
    rec = VObject [(js "song_title", name);
                   (js "p_masters", VArray p_masters);
                   (js "lyrics", VString (Ingest1.cleanLyrics s))].
Proof.
  unfold Ingest1.lyric_record. intros Hr.
  destruct reply as [lyricResult|]; [|done]. simpl in Hr.
  destruct (JSON_parse lyricResult) as [lyricData|] eqn:Ep; [|done]. simpl in Hr.
  destruct (prop lyricData "lyric") as [l|] eqn:El; [|done]. simpl in Hr.
  destruct (truthy l); [|done]. destruct l; try done.
  destruct (nonempty (trim s)) eqn:Et; [|done].
  destruct (includes s PURE_MUSIC) eqn:Ei; [done|]. simpl in Hr.
  destruct (Ingest1.p_masters_of song) as [pm|] eqn:Epm; [|done]. simpl in Hr.
  destruct (prop song "name") as [name|] eqn:En; [|done]. simpl in Hr.
  injection Hr as <-. exists lyricData, s, pm, name. simpl. by rewrite Ep.
Qed.

Lemma process_line_inv line props rec :
  parse_line line = Some (VObject props) ->
  CleanExisting.process_line line = Some rec ->
  exists props1 cleaned,
    own props1 (js "p_masters") = own props (js "p_masters") /\
    CleanExisting.cleanP_masters
      (default VUndefined (own props (js "p_masters"))) = Some cleaned /\
    rec = VObject (put props1 (js "p_masters") (VArray cleaned)).
Proof.
  unfold CleanExisting.process_line, CleanExisting.clean_record.
  intros -> Hr. cbn [mbind option_bind prop] in Hr.
  set (l := default VUndefined (own props (js "lyrics"))) in *.
  destruct (truthy l).
  - destruct l; try done. cbn [assign mbind option_bind prop] in Hr.
    rewrite own_put_ne in Hr by (by vm_compute).
    destruct (CleanExisting.cleanP_masters _) as [cleaned|] eqn:Ec; [|done].
    injection Hr as <-. eexists _, cleaned. split; [|done].
    apply own_put_ne. by vm_compute.
  - cbn [assign mbind option_bind prop] in Hr.
    destruct (CleanExisting.cleanP_masters _) as [cleaned|] eqn:Ec; [|done].
    injection Hr as <-. by exists props, cleaned.
Qed.

End ProducedFacts.

(** C4, as the code has it.  In every record that the first ingestor or the
    batch clean pass produces, [p_masters] is a flat sequence of strings:
    a flat list of names is kept as it is, a list of lists of names is
    flattened in order, a single non-empty name becomes a one-element
    list.  Nothing removes duplicates or empty strings. *)
Theorem p_masters_flat_strings {numbers : Numbers} {host : Host} (input rec : value) :
  produced_from input rec ->
  exists out,
    prop rec "p_masters" = Some (VArray out) /\
    Forall (fun x => is_string x = true) out /\
    (forall names, input = VArray (strings names) -> out = strings names) /\
    (forall groups, input = VArray ((fun g => VArray (strings g)) <$> groups) ->
       out = strings (concat groups)) /\
    (forall s, input = VString s -> s <> [] -> out = [VString s]).
Proof.
  intros [song reply Ha Hr|line props Hp Hi Hr].
  - apply lyric_record_inv in Hr
      as (lyricData & s & pm & name & _ & _ & _ & _ & Hpm & _ & ->).
    exists pm. split; [by vm_compute|].
    by apply (p_masters_of_shape song).
  - destruct (process_line_inv _ _ _ Hp Hr) as (props1 & cleaned & Ho & Hc & ->).
    exists cleaned. split; [simpl; by rewrite own_put|].
    apply cleanP_masters_shape. simpl in Hi. by injection Hi as <-.
Qed.

(** * The store *)

Section StoreFacts.
Context {numbers : Numbers} {host : Host}.
Implicit Types (l : jsstring) (ls : list jsstring).

Lemma split_lines_single l : single_line l = true -> split_lines l = [l].
Proof.
  induction l as [|c l IH]; [done|]. simpl.
  intros [Hc Hl]%andb_true_iff. apply negb_true_iff in Hc. rewrite Hc.
  by rewrite (IH Hl).
Qed.

Lemma split_lines_app_LF l rest :
  single_line l = true ->
  split_lines (l ++ LF :: rest) = l :: split_lines rest.
Proof.
  induction l as [|c l IH]; [done|]. simpl.
  intros [Hc Hl]%andb_true_iff. apply negb_true_iff in Hc. rewrite Hc.
  by rewrite (IH Hl).
Qed.

Lemma nonblank_lines_cons l rest :
  single_line l = true -> nonempty (trim l) = true ->
  nonblank_lines (l ++ LF :: rest) = l :: nonblank_lines rest.
Proof.
  intros Hl Hn. unfold nonblank_lines.
  rewrite split_lines_app_LF, filter_cons, decide_True by done. done.
Qed.

(** The lines of a store file are the texts it was written from. *)
Lemma nonblank_lines_join ls :
  Forall (fun l => single_line l = true /\ nonempty (trim l) = true) ls ->
  nonblank_lines (join_lines ls ++ [LF]) = ls.
Proof.
  induction 1 as [|l ls [Hl Hn] Hls IH]; [done|].
  destruct ls as [|l' ls'].
  - simpl. by rewrite nonblank_lines_cons.
  - change (join_lines (l :: l' :: ls')) with (l ++ LF :: join_lines (l' :: ls')).
    rewrite <- app_assoc, <- app_comm_cons.
    rewrite nonblank_lines_cons by done. by rewrite IH.
Qed.

Lemma process_lines_spec lines : forall arr p k,
  CleanExisting.process_lines lines arr p k =
  (arr ++ omap CleanExisting.process_line lines,
   (p + length (omap CleanExisting.process_line lines))%nat,
   (k + length (filter (fun line => CleanExisting.process_line line = None) lines))%nat).
Proof.
  induction lines as [|line lines IH]; intros arr p k.
  - simpl. by rewrite app_nil_r, !Nat.add_0_r.
  - simpl. rewrite filter_cons.
    destruct (CleanExisting.process_line line) as [r|] eqn:E.
    + rewrite IH, decide_False by done. rewrite <- app_assoc. simpl.
      by rewrite Nat.add_succ_r.
    + rewrite IH, decide_True by done. simpl. by rewrite Nat.add_succ_r.
Qed.

Lemma song_line_processed line :
  song_line line = true -> is_Some (CleanExisting.process_line line).
Proof.
  unfold song_line, CleanExisting.process_line.
  destruct (parse_line line) as [v|]; [|done]. simpl.
  destruct v as [| | | | | |props]; try done. unfold is_song_record.
  intros [Hl Hp]%andb_true_iff.
  unfold CleanExisting.clean_record. cbn [prop mbind option_bind].
  assert (forall props1, own props1 (js "p_masters") = own props (js "p_masters") ->
    is_Some (prop (VObject props1) "p_masters"
             ≫= λ p, CleanExisting.cleanP_masters p
             ≫= λ cleaned, assign (VObject props1) "p_masters" (VArray cleaned)))
    as Hrest.
  { intros props1 Ho. cbn [prop mbind option_bind]. rewrite Ho.
    destruct (own props (js "p_masters")) as [p|]; simpl; [|by eexists].
    destruct p; try done; simpl; by eexists. }
  destruct (own props (js "lyrics")) as [l|] eqn:El; cbn [default from_option id].
  - destruct l; try done. cbn [truthy].
    destruct (nonempty s); cbn [assign mbind option_bind]; apply Hrest; [|done].
    apply own_put_ne. by vm_compute.
  - cbn [truthy mbind option_bind]. by apply Hrest.
Qed.

Lemma unparsable_skipped line :
  unparsable line = true -> CleanExisting.process_line line = None.
Proof.
  unfold unparsable, CleanExisting.process_line.
  by destruct (parse_line line).
Qed.

Lemma length_omap_filter {A B} (f : A -> option B) (l : list A) :
  (length (omap f l) + length (filter (fun x => f x = None) l) = length l)%nat.
Proof.
  induction l as [|x l IH]; [done|]. rewrite filter_cons. cbn [omap list_omap].
  destruct (f x) eqn:E.
  - rewrite decide_False by done. simpl in *. lia.
  - rewrite decide_True by done. simpl in *. lia.
Qed.

Lemma filter_length_le {A} (P Q : A -> Prop)
    `{!forall x, Decision (P x)} `{!forall x, Decision (Q x)} (l : list A) :
  (forall x, P x -> Q x) -> (length (filter P l) <= length (filter Q l))%nat.
Proof.
  intros Hpq. induction l as [|x l IH]; [done|]. rewrite !filter_cons.
  destruct (decide (P x)) as [Hp|Hp].
  - rewrite decide_True by auto. simpl. lia.
  - destruct (decide (Q x)); simpl; lia.
Qed.

End StoreFacts.

Section PassFacts.
Context {numbers : Numbers} {host : Host}.

(** What a run of the batch pass over an existing store file does. *)
Lemma cleanExistingLyrics_run (s : sys) (content : jsstring) :
  disk s !! CleanExisting.LYRICS_FILE_PATH = Some content ->
  let lines := nonblank_lines content in
  let records := omap CleanExisting.process_line lines in
  CleanExisting.cleanExistingLyrics s =
  (Some (records, length records,
         length (filter (fun line => CleanExisting.process_line line = None) lines)),
   Sys (net s) (<[CleanExisting.LYRICS_FILE_PATH := jsonl records]> (disk s)),
   [ExistsSync CleanExisting.LYRICS_FILE_PATH;
    ReadFileSync CleanExisting.LYRICS_FILE_PATH;
    WriteFileSync CleanExisting.LYRICS_FILE_PATH (jsonl records)]).
Proof.
  intros Hc lines records.
  unfold CleanExisting.cleanExistingLyrics, mbind, IO_bind, bind, existsSync,
    readFileSync, writeFileSync, mret, IO_ret, ret.
  rewrite Hc. rewrite bool_decide_eq_true_2 by eauto.
  cbn [default from_option id]. fold lines.
  rewrite process_lines_spec. rewrite !Hc.
  cbn [default from_option id app Nat.add]. done.
Qed.

End PassFacts.




(** C8.  The batch pass over a store file takes every non-blank line in:
    the records it keeps are those of the lines that go through, in
    order; every line is either kept or counted as skipped; a line that
    does not parse is among the skipped and the loop goes on after it; a
    line that holds a song record is among the kept.  A file of three
    song-record lines and one line that does not parse gives three
    records and a count of one. *)
Theorem load_skips_malformed {numbers : Numbers} {host : Host} (s : sys) (content : jsstring) :
  disk s !! CleanExisting.LYRICS_FILE_PATH = Some content ->
  let lines := nonblank_lines content in
  exists records processedLines skippedLines,
    (CleanExisting.cleanExistingLyrics s).1.1
      = Some (records, processedLines, skippedLines) /\
    records = omap CleanExisting.process_line lines /\
    processedLines = length records /\
    (processedLines + skippedLines = length lines)%nat /\
    (length (filter (fun line => unparsable line = true) lines) <= skippedLines)%nat /\
    (length (filter (fun line => song_line line = true) lines) <= processedLines)%nat /\
    (length (filter (fun line => song_line line = true) lines) = 3%nat ->
     length (filter (fun line => unparsable line = true) lines) = 1%nat ->
     length lines = 4%nat ->
     length records = 3%nat /\ skippedLines = 1%nat).
Proof.
  intros Hc lines. rewrite (cleanExistingLyrics_run _ _ Hc). fold lines.
  eexists _, _, _. split; [done|]. split; [done|]. split; [done|].
  pose proof (length_omap_filter CleanExisting.process_line lines) as Hlen.
  assert (length (filter (fun line => unparsable line = true) lines)
          <= length (filter (fun line => CleanExisting.process_line line = None) lines))%nat
    as Hbad by (apply filter_length_le; apply unparsable_skipped).
  assert (length (filter (fun line => song_line line = true) lines)
          <= length (omap CleanExisting.process_line lines))%nat as Hok.
  { clear. induction lines as [|line lines IH]; [done|].
    rewrite filter_cons. cbn [omap list_omap].
    destruct (decide (song_line line = true)) as [Hs|Hs].
    - apply song_line_processed in Hs as [r ->]. simpl in *. lia.
    - destruct (CleanExisting.process_line line); simpl in *; lia. }
  repeat split; try done; lia.
Qed.

Section Witnesses.
#[local] Existing Instance MiniJSON.Z_numbers.
#[local] Existing Instance MiniJSON.offline.



Lemma load_skips_malformed_witness :
  disk Examples.store_4 !! CleanExisting.LYRICS_FILE_PATH = Some Examples.STORE_4 /\
  exists records processedLines skippedLines,
    (CleanExisting.cleanExistingLyrics Examples.store_4).1.1
      = Some (records, processedLines, skippedLines) /\
    length records = 3%nat /\ skippedLines = 1%nat.
Proof.
  assert (disk Examples.store_4 !! CleanExisting.LYRICS_FILE_PATH
          = Some Examples.STORE_4) as Hd by (vm_compute; reflexivity).
  split; [exact Hd|].
  destruct (load_skips_malformed Examples.store_4 Examples.STORE_4 Hd)
    as (records & p & k & Hrun & _ & _ & _ & _ & _ & Hscenario).
  exists records, p, k. split; [exact Hrun|].
  apply Hscenario; vm_compute; reflexivity.
Defined.

Example store_4_loaded :
  exists r1 r2 r3,
    (CleanExisting.cleanExistingLyrics Examples.store_4).1.1
      = Some ([r1; r2; r3], 3%nat, 1%nat).
Proof. eexists _, _, _. vm_compute. reflexivity. Qed.

End Witnesses.

(** C2, as the code has it.  The batch pass rewrites the store with one
    [writeFileSync] of the complete new contents straight to the store
    file: its calls are the existence test, the read and that write; the
    temporary path is never written and nothing is renamed, so there is no
    swap.  After the pass the store file holds the new contents and every
    other file is as before. *)
Theorem rewrite_is_one_direct_write {numbers : Numbers} {host : Host}
    (s : sys) (content : jsstring) :
  disk s !! CleanExisting.LYRICS_FILE_PATH = Some content ->
  let records := omap CleanExisting.process_line (nonblank_lines content) in
  let '(_, s', ev) := CleanExisting.cleanExistingLyrics s in
  ev = [ExistsSync CleanExisting.LYRICS_FILE_PATH;
        ReadFileSync CleanExisting.LYRICS_FILE_PATH;
        WriteFileSync CleanExisting.LYRICS_FILE_PATH (jsonl records)] /\
  writes_then_renames CleanExisting.TEMP_FILE_PATH
    CleanExisting.LYRICS_FILE_PATH ev = false /\
  disk s' !! CleanExisting.LYRICS_FILE_PATH = Some (jsonl records) /\
  forall p, p <> CleanExisting.LYRICS_FILE_PATH -> disk s' !! p = disk s !! p.
Proof.
  intros Hc records. rewrite (cleanExistingLyrics_run _ _ Hc). fold records.
  split; [done|]. split; [done|]. cbn [disk]. split.
  - apply lookup_insert_eq.
  - intros p Hp. by apply lookup_insert_ne.
Qed.

Section Witnesses2.
#[local] Existing Instance MiniJSON.Z_numbers.
#[local] Existing Instance MiniJSON.offline.

Lemma rewrite_is_one_direct_write_witness :
  disk Examples.store_4 !! CleanExisting.LYRICS_FILE_PATH = Some Examples.STORE_4 /\
  let records := omap CleanExisting.process_line (nonblank_lines Examples.STORE_4) in
  let '(_, s', ev) := CleanExisting.cleanExistingLyrics Examples.store_4 in
  ev = [ExistsSync CleanExisting.LYRICS_FILE_PATH;
        ReadFileSync CleanExisting.LYRICS_FILE_PATH;
        WriteFileSync CleanExisting.LYRICS_FILE_PATH (jsonl records)] /\
  writes_then_renames CleanExisting.TEMP_FILE_PATH
    CleanExisting.LYRICS_FILE_PATH ev = false /\
  disk s' !! CleanExisting.LYRICS_FILE_PATH = Some (jsonl records) /\
  forall p, p <> CleanExisting.LYRICS_FILE_PATH ->
    disk s' !! p = disk Examples.store_4 !! p.
Proof.
  split; [vm_compute; reflexivity|].
  apply (rewrite_is_one_direct_write Examples.store_4 Examples.STORE_4).
  vm_compute. reflexivity.
Defined.

(** C2 as stated fails: on a store of four lines the pass writes nothing
    to the temporary path and renames nothing. *)
Lemma rewrite_uses_no_temporary_file :
  let '(_, s', ev) := CleanExisting.cleanExistingLyrics Examples.store_4 in
  writes_then_renames CleanExisting.TEMP_FILE_PATH
    CleanExisting.LYRICS_FILE_PATH ev = false /\
  Forall (fun e => match e with
                   | WriteFileSync p _ => p <> CleanExisting.TEMP_FILE_PATH
                   | RenameSync _ _ => False
                   | _ => True
                   end) ev /\
  disk s' !! CleanExisting.TEMP_FILE_PATH = None.
Proof.
  vm_compute. split; [reflexivity|]. split; [|reflexivity].
  repeat constructor. discriminate.
Qed.

Lemma p_masters_flat_strings_witness :
  produced_from Examples.NESTED_INPUT Examples.NESTED_RECORD /\
  exists out,
    prop Examples.NESTED_RECORD "p_masters" = Some (VArray out) /\
    Forall (fun x => is_string x = true) out /\
    (forall names, Examples.NESTED_INPUT = VArray (strings names) ->
       out = strings names) /\
    (forall groups,
       Examples.NESTED_INPUT = VArray ((fun g => VArray (strings g)) <$> groups) ->
       out = strings (concat groups)) /\
    (forall s, Examples.NESTED_INPUT = VString s -> s <> [] -> out = [VString s]).
Proof.
  assert (produced_from Examples.NESTED_INPUT Examples.NESTED_RECORD) as Hp.
  { eapply (by_clean _ _ Examples.LINE_NESTED); vm_compute; reflexivity. }
  split; [exact Hp|].
  exact (p_masters_flat_strings Examples.NESTED_INPUT Examples.NESTED_RECORD Hp).
Defined.

(** C4 as stated fails: a repeated name and an empty name stay, in the
    batch clean pass and in the first ingestor alike. *)
Lemma p_masters_keeps_duplicates_and_empty :
  let out := [VString (js "洛天依"); VString (js "洛天依"); VString []] in
  (exists rec, CleanExisting.process_line Examples.LINE_REPEATED = Some rec /\
               prop rec "p_masters" = Some (VArray out)) /\
  (exists rec, Ingest1.lyric_record Examples.TRACK_REPEATED
                 (Some Examples.REPLY_LA) = Some rec /\
               prop rec "p_masters" = Some (VArray out)) /\
  ~ NoDup out /\ VString [] ∈ out.
Proof.
  intros out. split; [|split; [|split]].
  - eexists. split; vm_compute; reflexivity.
  - eexists. split; vm_compute; reflexivity.
  - intros Hn. apply NoDup_cons in Hn as [Hn _]. apply Hn. left.
  - do 2 right. left.
Qed.

End Witnesses2.

(** * The first ingestor *)

Section IngestFacts.
Context {numbers : Numbers} {host : Host}.
Implicit Types (song rec : value) (existing : gset jsstring) (s : sys).

Lemma getSongLyric_run song s :
  Ingest1.getSongLyric song s =
  match prop song "id" with
  | Some id =>
    let '(reply, w) := meting_lyric id (net s) in
    (Ingest1.lyric_record song reply, Sys w (disk s), [Lyric id])
  | None => (None, s, [])
  end.
Proof.
  unfold Ingest1.getSongLyric. destruct (prop song "id") as [id|]; [|done].
  unfold mbind, IO_bind, bind, lyric, mret, IO_ret, ret.
  by destruct (meting_lyric id (net s)).
Qed.

Lemma writeLyricToFile_run rec s :
  Ingest1.writeLyricToFile rec s =
  if has_lyrics rec
  then (appendLine Ingest1.LYRICS_FILE_PATH rec s)
  else (tt, s, []).
Proof.
  unfold Ingest1.writeLyricToFile, has_lyrics.
  destruct (prop rec "lyrics") as [l|]; [|done]. by destruct (truthy l).
Qed.


Lemma new_songs_spec songs existing ns :
  Ingest1.new_songs songs existing = Some ns ->
  ns = filter (fun song => is_known existing song = false) songs /\
  Forall (fun song => is_Some (Ingest1.song_name song)) songs.
Proof.
  revert ns. induction songs as [|song songs IH]; intros ns; simpl.
  - intros [= <-]. done.
  - destruct (Ingest1.song_name song) as [name|] eqn:En; [|done]. simpl.
    destruct (Ingest1.new_songs songs existing) as [keep|]; [|done]. simpl.
    destruct (IH keep eq_refl) as [-> Hall]. intros [= <-].
    split; [|constructor; [by eexists|done]].
    assert (is_known existing song = bool_decide (cleanSongTitle name ∈ existing))
      as Hknown by (unfold is_known, song_key; by rewrite En).
    rewrite filter_cons, Hknown.
    destruct (decide (cleanSongTitle name ∈ existing)) as [Hk|Hk].
    + rewrite bool_decide_eq_true_2 by done. by rewrite decide_False.
    + rewrite bool_decide_eq_false_2 by done. by rewrite decide_True.
Qed.

Lemma song_name_id song name :
  Ingest1.song_name song = Some name ->
  prop song "id" = Some (song_id song) /\ song_key song = Some (cleanSongTitle name).
Proof.
  unfold song_id, song_key. intros Hn. rewrite Hn. split; [|done].
  unfold Ingest1.song_name in Hn. by destruct song.
Qed.


End IngestFacts.

Section PageFacts.
Context {numbers : Numbers} {host : Host}.
Implicit Types (song rec : value) (existing : gset jsstring) (s : sys).

Lemma appended_app (ev1 ev2 : list event) :
  appended (ev1 ++ ev2) = appended ev1 ++ appended ev2.
Proof. apply omap_app. Qed.

Lemma process_page_run page existing added s :
  Ingest1.process_page page existing added s =
  let '(reply, w) := meting_search page (net s) in
  match listed reply ≫= (fun songs => Ingest1.new_songs songs existing) with
  | Some newSongs =>
    let '(r, s', ev) :=
      Ingest1.process_songs newSongs existing added (Sys w (disk s)) in
    (r, s', SearchPage page :: ev)
  | None => ((existing, added), Sys w (disk s), [SearchPage page])
  end.
Proof.
  unfold Ingest1.process_page, mbind at 1, IO_bind, bind, search, listed.
  destruct (meting_search page (net s)) as [reply w].
  destruct (reply ≫= JSON_parse) as [v|]; [|done].
  destruct v; try done. cbn [mbind option_bind].
  destruct (Ingest1.new_songs items existing) as [ns|]; [|done].
  by destruct (Ingest1.process_songs ns existing added _) as [[[? ?] ?] ?].
Qed.







End PageFacts.



Section IngestWitnesses.
#[local] Existing Instance MiniJSON.Z_numbers.
Import Examples.



End IngestWitnesses.

Section IngestExamples.
#[local] Existing Instance MiniJSON.Z_numbers.
Import Examples.



(** The run over both pages of [CATALOGUE]: the instrumental piece is
    fetched on page 1, rejected, and not fetched again on page 2; the
    report counts it. *)
Example rejected_track_counted :
  let r := Ingest1.searchLuoTianyiSongs (host:=CATALOGUE) 1 2 (fresh CATALOGUE) in
  fetched r.2 = [VNumber 1%Z; VNumber 2%Z; VNumber 4%Z] /\
  length (appended r.2) = 2%nat /\
  r.1.1 = (2%nat, 3%nat).
Proof. vm_compute. repeat split; reflexivity. Qed.

(** C6 on the code.  The second ingestor appends a record whose lyrics are
    empty when the lyric text is nothing but a timing tag, where the first
    ingestor and [clean_lyrics.js] leave such a song out; and the first
    ingestor appends a record whose lyrics are the instrumental marker when
    the marker only comes together once a tag inside it is removed. *)
Theorem unusable_lyrics_are_saved :
  appended (Ingest2.searchLuoTianyiSongs (host:=CATALOGUE_TAG_ONLY) 1 1
              (fresh CATALOGUE_TAG_ONLY)).2
  = [VObject [(js "song_title", VString (js "空"));
              (js "p_masters", VString (js "洛天依"));
              (js "lyrics", VString [])]] /\
  Ingest2.cleanLyrics (js "[00:00.00]") = [] /\
  appended (Ingest1.searchLuoTianyiSongs (host:=CATALOGUE_TAG_ONLY) 1 1
              (fresh CATALOGUE_TAG_ONLY)).2 = [] /\
  CleanLyrics.usable_lyrics
    (VObject [(js "lyrics", VString (js "[00:00.00]"))]) = CleanLyrics.Skipped /\
  appended (Ingest1.searchLuoTianyiSongs (host:=CATALOGUE_SPLIT_MARKER) 1 1
              (fresh CATALOGUE_SPLIT_MARKER)).2
  = [VObject [(js "song_title", VString (js "曲"));
              (js "p_masters", VArray [VString (js "洛天依")]);
              (js "lyrics", VString PURE_MUSIC)]].
Proof. vm_compute. repeat split; reflexivity. Qed.

End IngestExamples.

(** * What the filters do keep out *)

Section FilterFacts.
Context {numbers : Numbers} {host : Host}.

(** [clean_lyrics.js] keeps a line only with lyrics that are not blank and
    do not hold the instrumental marker. *)
Lemma usable_lyrics_kept (songData : value) (cleaned : jsstring) :
  CleanLyrics.usable_lyrics songData = CleanLyrics.Kept cleaned ->
  nonempty (trim cleaned) = true /\ includes cleaned PURE_MUSIC = false.
Proof.
  unfold CleanLyrics.usable_lyrics.
  destruct (prop songData "lyrics") as [l|]; [|done].
  destruct (truthy l); [|done]. destruct l; try done.
  - destruct (_ || _ || _); [done|].
    destruct (nonempty (trim (CleanLyrics.cleanLyrics s))) eqn:En; [|done].
    destruct (includes (CleanLyrics.cleanLyrics s) PURE_MUSIC) eqn:Ei; [done|].
    simpl. by intros [= <-].
  - by destruct (existsb _ _).
Qed.

(** The first ingestor appends a record only with lyrics that are not
    empty, made from a text that is not blank and does not hold the
    marker. *)
Lemma ingest1_appends_lyrics (song rec : value) (reply : option jsstring) :
  Ingest1.lyric_record song reply = Some rec -> has_lyrics rec = true ->
  exists s, prop rec "lyrics" = Some (VString (Ingest1.cleanLyrics s)) /\
            Ingest1.cleanLyrics s <> [] /\
            nonempty (trim s) = true /\ includes s PURE_MUSIC = false.
Proof.
  intros (d & s & pm & nm & _ & _ & Ht & Hi & _ & _ & ->)%lyric_record_inv Hl.
  exists s. assert (prop (VObject [(js "song_title", nm);
                                   (js "p_masters", VArray pm);
                                   (js "lyrics", VString (Ingest1.cleanLyrics s))])
                      "lyrics" = Some (VString (Ingest1.cleanLyrics s))) as Hp
    by (by vm_compute).
  split; [done|]. split; [|done].
  unfold has_lyrics in Hl. rewrite Hp in Hl. simpl in Hl.
  by destruct (Ingest1.cleanLyrics s).
Qed.

(** Every reader of the store passes over a line that does not parse. *)
Lemma readers_skip_unparsable (line : jsstring) (set : list value) :
  unparsable line = true ->
  CleanExisting.process_line line = None /\
  Ingest1.existing_title line = None /\
  Ingest2.load_line set line = set.
Proof.
  unfold unparsable, CleanExisting.process_line, Ingest1.existing_title,
    Ingest2.load_line.
  by destruct (parse_line line).
Qed.

End FilterFacts.

(** In [clean_lyrics.js] a record without lyrics is left out by a
    TypeError and not by a [continue]. *)
Example absent_lyrics_throw :
  CleanLyrics.usable_lyrics (numbers:=MiniJSON.Z_numbers)
    (VObject [(js "song_title", VString (js "空"))]) = CleanLyrics.Thrown /\
  CleanLyrics.usable_lyrics (numbers:=MiniJSON.Z_numbers)
    (VObject [(js "lyrics", VString PURE_MUSIC)]) = CleanLyrics.Skipped.
Proof. vm_compute. split; reflexivity. Qed.

(** * The second ingestor *)

Section Ingest2Facts.
Context {numbers : Numbers} {host : Host}.
Implicit Types (song rec v w : value) (set : list value) (s : sys) (t : jsstring).

Lemma has_add_mono set v w :
  Ingest2.has set v = true -> Ingest2.has (Ingest2.add set w) v = true.
Proof.
  unfold Ingest2.add. destruct (Ingest2.has set w); [done|].
  unfold Ingest2.has. rewrite existsb_app. by intros ->.
Qed.

Lemma has_add_string set t :
  Ingest2.has (Ingest2.add set (VString t)) (VString t) = true.
Proof.
  unfold Ingest2.add. destruct (Ingest2.has set (VString t)) eqn:E; [done|].
  unfold Ingest2.has. rewrite existsb_app. simpl.
  rewrite (proj2 (str_eqb_eq t t) eq_refl). by rewrite orb_true_r.
Qed.

Lemma has_add_false set v w :
  Ingest2.has (Ingest2.add set w) v = false -> Ingest2.has set v = false.
Proof.
  intros H. destruct (Ingest2.has set v) eqn:E; [|done].
  by rewrite has_add_mono in H.
Qed.

Lemma distinct_titles_silent set ev1 :
  appended ev1 = [] -> distinct_titles set set ev1.
Proof.
  intros E. unfold distinct_titles. rewrite E. split; [done|].
  split; [apply NoDup_nil_2|]. by intros t ?%elem_of_nil.
Qed.

Lemma distinct_titles_nil set : distinct_titles set set [].
Proof. by apply distinct_titles_silent. Qed.

Lemma distinct_titles_app set1 set2 set3 ev1 ev2 :
  distinct_titles set1 set2 ev1 -> distinct_titles set2 set3 ev2 ->
  distinct_titles set1 set3 (ev1 ++ ev2).
Proof.
  intros (Hm1 & Hn1 & Ht1) (Hm2 & Hn2 & Ht2).
  unfold distinct_titles, appended in *. rewrite !omap_app.
  split; [auto|]. split.
  - apply NoDup_app. split; [done|split; [|done]].
    intros t [_ H1]%Ht1 [H2 _]%Ht2. congruence.
  - intros t [[? ?]%Ht1|[H2 H3]%Ht2]%elem_of_app; [auto|].
    split; [|done]. destruct (Ingest2.has set1 (VString t)) eqn:E; [|done].
    apply Hm1 in E. congruence.
Qed.

Lemma raw_title_record title artist l :
  raw_title (VObject [(js "song_title", title); (js "p_masters", artist);
                      (js "lyrics", l)])
  = match title with VString t => Some t | _ => None end.
Proof. reflexivity. Qed.

Lemma distinct_titles_append set title artist l p :
  Ingest2.has set title = false ->
  distinct_titles set (Ingest2.add set title)
    [AppendLine p (VObject [(js "song_title", title); (js "p_masters", artist);
                            (js "lyrics", l)])].
Proof.
  intros Hhas. unfold distinct_titles, appended. cbn [omap list_omap].
  rewrite raw_title_record. split; [intros v; apply has_add_mono|].
  destruct title as [| | | |t| |]; cbn [mbind option_bind from_option];
    (split; [try apply NoDup_nil_2|intros t' Ht'; try by apply elem_of_nil in Ht']).
  - apply NoDup_singleton.
  - apply list_elem_of_singleton in Ht' as ->. split; [done|apply has_add_string].
Qed.

Lemma getSongLyric2_run song s :
  exists s1 ev1, (Ingest2.getSongLyric song s).1.2 = s1 /\
    (Ingest2.getSongLyric song s).2 = ev1 /\ appended ev1 = [].
Proof.
  unfold Ingest2.getSongLyric. destruct (prop song "id") as [id|].
  - unfold mbind, IO_bind, bind, lyric, mret, IO_ret, ret.
    destruct (meting_lyric id (net s)) as [reply w]. simpl. by eexists _, _.
  - by eexists _, _.
Qed.

Lemma process_songs2_spec songs : forall set n k s set' n' k' s' ev,
  Ingest2.process_songs songs set n k s = ((set', n', k'), s', ev) ->
  distinct_titles set set' ev.
Proof.
  induction songs as [|song rest IH]; intros set n k s set' n' k' s' ev.
  - intros [= <- <- <- <- <-]. apply distinct_titles_nil.
  - cbn [Ingest2.process_songs].
    destruct (prop song "name") as [songTitle|]; [|intros [= <- <- <- <- <-];
      apply distinct_titles_nil].
    destruct (prop song "artist") as [artist|]; [|intros [= <- <- <- <- <-];
      apply distinct_titles_nil].
    destruct (to_String songTitle) as [printed|]; [|intros [= <- <- <- <- <-];
      apply distinct_titles_nil].
    destruct (Ingest2.has set songTitle) eqn:Ehas; [by apply IH|].
    unfold mbind, IO_bind, bind.
    destruct (getSongLyric2_run song s) as (s1 & ev1 & Hs1 & Hev1 & Ha1).
    destruct (Ingest2.getSongLyric song s) as [[lyricResult s1'] ev1'].
    simpl in Hs1, Hev1. subst s1' ev1'.
    destruct lyricResult as [l|].
    + destruct (includes (Ingest2.cleanLyrics l) PURE_MUSIC).
      * destruct (Ingest2.process_songs rest set n k s1)
          as [[[[set2 n2] k2] s2] ev2] eqn:E2.
        intros [= <- <- <- <- <-].
        eapply distinct_titles_app; [by apply distinct_titles_silent|by eapply IH].
      * unfold appendLine, delay. cbn [net disk].
        match goal with
        | |- context [Ingest2.process_songs rest ?e ?a ?b ?st] =>
          destruct (Ingest2.process_songs rest e a b st)
            as [[[[set2 n2] k2] s2] ev2] eqn:E2
        end.
        intros [= <- <- <- <- <-]. apply IH in E2.
        eapply distinct_titles_app; [by apply distinct_titles_silent|].
        apply (distinct_titles_app _ (Ingest2.add set songTitle) _ [_]);
          [by apply distinct_titles_append|].
        by apply (distinct_titles_app _ (Ingest2.add set songTitle) _ [Delay]);
          [apply distinct_titles_silent|].
    + destruct (Ingest2.process_songs rest set n k s1)
        as [[[[set2 n2] k2] s2] ev2] eqn:E2.
      intros [= <- <- <- <- <-].
      eapply distinct_titles_app; [by apply distinct_titles_silent|by eapply IH].
Qed.

Lemma process_page2_spec page set n k s set' n' k' s' ev :
  Ingest2.process_page page set n k s = ((set', n', k'), s', ev) ->
  distinct_titles set set' ev.
Proof.
  unfold Ingest2.process_page, mbind, IO_bind, bind, search.
  destruct (meting_search page (net s)) as [searchResult w].
  destruct (option_bind _ _ JSON_parse searchResult) as [[| | | | |songs|]|];
    try (intros [= <- <- <- <- <-]; by apply (distinct_titles_silent _ [_])).
  destruct (Ingest2.process_songs songs set n k _)
    as [[[[set2 n2] k2] s2] ev2] eqn:E2.
  intros [= <- <- <- <- <-]. apply process_songs2_spec in E2.
  by apply (distinct_titles_app _ set _ [_]); [apply distinct_titles_silent|].
Qed.

(** X21.  The second ingestor keeps raw titles in its set and looks each
    track up just before it fetches it: over a whole run no two records
    appended have the same string title, and none has a title that was in
    the set when the run began. *)
Lemma ingest2_appends_distinct_titles pages : forall set n k s set' n' k' s' ev,
  Ingest2.process_pages pages set n k s = ((set', n', k'), s', ev) ->
  distinct_titles set set' ev.
Proof.
  induction pages as [|page rest IH]; intros set n k s set' n' k' s' ev.
  - intros [= <- <- <- <- <-]. apply distinct_titles_nil.
  - cbn [Ingest2.process_pages]. unfold mbind, IO_bind, bind.
    destruct (Ingest2.process_page page set n k s)
      as [[[[set1 n1] k1] s1] ev1] eqn:E1.
    destruct (Ingest2.process_pages rest set1 n1 k1 s1)
      as [[[[set2 n2] k2] s2] ev2] eqn:E2.
    intros [= <- <- <- <- <-].
    eapply distinct_titles_app; [by eapply process_page2_spec|by eapply IH].
Qed.

End Ingest2Facts.

(** * Clean texts *)

Section CleanTextFacts.
Implicit Types (s t : jsstring) (ls : list jsstring).

(** ** Runs of line feeds *)

Lemma rep_match_LF s : forall lo,
  rep_match true (CChar LF) lo None s Some =
  if decide (lo <= lf_run s)%nat then Some (drop (lf_run s) s) else None.
Proof.
  induction s as [|x s IH]; intros [|lo]; cbn [rep_match lf_run cclass_match];
    try done.
  - destruct (x =? LF) eqn:Ex; cbn [andb hi_more hi_pred fmap option_fmap option_map].
    + rewrite IH. rewrite !decide_True by lia. done.
    + done.
  - destruct (x =? LF) eqn:Ex; cbn [hi_pred fmap option_fmap option_map].
    + rewrite IH. destruct (decide (lo <= lf_run s)%nat).
      * by rewrite decide_True by lia.
      * by rewrite decide_False by lia.
    + by rewrite decide_False by lia.
Qed.

Lemma exec_THREE s :
  exec THREE_OR_MORE_LF s =
  if decide (3 <= lf_run s)%nat then Some (drop (lf_run s) s) else None.
Proof. apply rep_match_LF. Qed.

Lemma lf_run_LF s : lf_run (LF :: s) = S (lf_run s).
Proof. cbn [lf_run]. by rewrite N.eqb_refl. Qed.

Lemma lf_run_drop s : lf_run (drop (lf_run s) s) = O.
Proof.
  induction s as [|x s IH]; [done|]. cbn [lf_run].
  destruct (x =? LF) eqn:Ex; [done|]. cbn [drop lf_run]. by rewrite Ex.
Qed.

Lemma lf_run_sublist s :
  (LF :: LF :: drop (lf_run s) s) `sublist_of` s \/ (lf_run s < 2)%nat.
Proof.
  destruct s as [|a [|b s]]; cbn [lf_run]; [right; lia| |].
  - destruct (a =? LF); right; lia.
  - destruct (a =? LF) eqn:Ea; [|right; lia].
    destruct (b =? LF) eqn:Eb; [|right; lia]. left.
    apply N.eqb_eq in Ea as ->, Eb as ->. cbn [drop].
    do 2 apply sublist_skip. apply sublist_drop.
Qed.

(** What collapsing leaves: no run of three, the leading run cut to two,
    nothing that was not there. *)
Lemma collapse_spec s :
  let out := replace_all THREE_OR_MORE_LF [LF; LF] s in
  occurs THREE_OR_MORE_LF out = false /\
  lf_run out = Nat.min (lf_run s) 2 /\
  out `sublist_of` s.
Proof.
  cbv zeta.
  apply (replace_all_ind THREE_OR_MORE_LF [LF; LF]
    (fun s out => occurs THREE_OR_MORE_LF out = false /\
                  lf_run out = Nat.min (lf_run s) 2 /\ out `sublist_of` s));
    [apply consuming_THREE_OR_MORE_LF|by repeat split|..]; clear s.
  - intros c s rest E (Ho & Hr & Hs). rewrite exec_THREE in E.
    destruct (decide (3 <= lf_run (c :: s))%nat) as [Hk|]; [|done].
    pose proof (lf_run_drop (c :: s)) as Hd. assert (rest = drop (lf_run (c :: s)) (c :: s)) as -> by congruence.
    clear E. rewrite Hd in Hr. cbn [Nat.min] in Hr.
    set (out := replace_all THREE_OR_MORE_LF [LF; LF] (drop (lf_run (c :: s)) (c :: s))) in *.
    split; [|split].
    + cbn [app occurs]. rewrite !exec_THREE, !lf_run_LF, Hr.
      by rewrite !decide_False by lia.
    + cbn [app]. rewrite !lf_run_LF, Hr. lia.
    + cbn [app]. destruct (lf_run_sublist (c :: s)) as [H|H]; [|lia].
      etrans; [|exact H]. by do 2 apply sublist_skip.
  - intros c s E (Ho & Hr & Hs). rewrite exec_THREE in E.
    destruct (decide (3 <= lf_run (c :: s))%nat) as [|Hk]; [done|].
    split; [|split].
    + cbn [occurs]. rewrite exec_THREE, Ho.
      rewrite decide_False; [done|]. cbn [lf_run] in *.
      destruct (c =? LF); lia.
    + cbn [lf_run] in *. destruct (c =? LF); lia.
    + by apply sublist_skip.
Qed.

Lemma collapse_snoc s x :
  (x =? LF) = false ->
  replace_all THREE_OR_MORE_LF [LF; LF] (s ++ [x]) =
  replace_all THREE_OR_MORE_LF [LF; LF] s ++ [x].
Proof.
  intros Hx.
  assert (forall t, lf_run (t ++ [x]) = lf_run t) as Hrun.
  { induction t as [|c t IH]; cbn [app lf_run]; [by rewrite Hx|].
    by rewrite IH. }
  assert (forall t, (lf_run t <= length t)%nat) as Hlen.
  { induction t as [|c t IH]; cbn [lf_run length]; [lia|].
    destruct (c =? LF); lia. }
  assert (replace_all THREE_OR_MORE_LF [LF; LF] [x] = [x]) as Hnil.
  { rewrite replace_all_cons by apply consuming_THREE_OR_MORE_LF.
    rewrite exec_THREE. cbn [lf_run]. rewrite Hx. by rewrite decide_False by lia. }
  assert (forall n t, (length t <= n)%nat ->
            replace_all THREE_OR_MORE_LF [LF; LF] (t ++ [x]) =
            replace_all THREE_OR_MORE_LF [LF; LF] t ++ [x]) as H; [|by eapply H].
  induction n as [|n IH]; intros [|c t] Hn; simpl in Hn; try lia; try done.
  change ((c :: t) ++ [x]) with (c :: (t ++ [x])).
  rewrite !replace_all_cons by apply consuming_THREE_OR_MORE_LF.
  rewrite !exec_THREE.
  change (c :: t ++ [x]) with ((c :: t) ++ [x]). rewrite Hrun.
  destruct (decide (3 <= lf_run (c :: t))%nat) as [Hk|Hk].
  - rewrite drop_app_le by apply Hlen. rewrite IH; [done|].
    rewrite length_drop. simpl length. lia.
  - cbn [app]. rewrite IH; [done|]. lia.
Qed.

(** ** Trimmed texts *)

Lemma trimmed_inv s :
  trimmed s = true ->
  s = [] \/
  (exists c s', s = c :: s' /\ is_space c = false) /\
  (exists s0 x, s = s0 ++ [x] /\ is_space x = false).
Proof.
  unfold trimmed. destruct s as [|c s']; [by left|]. cbn [head].
  destruct (last (c :: s')) as [x|] eqn:El; [|by apply last_None in El].
  apply last_Some in El as [s0 E].
  intros [Hc Hx]%andb_true_iff. apply negb_true_iff in Hc, Hx. right.
  split; [by exists c, s'|by exists s0, x].
Qed.

Lemma trimmed_intro c s' s0 x :
  c :: s' = s0 ++ [x] -> is_space c = false -> is_space x = false ->
  trimmed (c :: s') = true.
Proof.
  intros E Hc Hx. unfold trimmed. cbn [head]. rewrite E at 1.
  by rewrite last_snoc, Hc, Hx.
Qed.

Lemma trim_fixed s : trimmed s = true -> trim s = s.
Proof.
  intros [->|[(c & s' & -> & Hc) (s0 & x & E & Hx)]]%trimmed_inv; [done|].
  unfold trim, trimEnd. cbn [trimStart]. rewrite Hc, E, rev_unit.
  cbn [trimStart]. rewrite Hx. by rewrite <- rev_unit, rev_involutive.
Qed.

Lemma trim_shorter s : trimmed s = false -> (length (trim s) < length s)%nat.
Proof.
  unfold trimmed. destruct s as [|c s']; [done|]. cbn [head].
  destruct (last (c :: s')) as [x|] eqn:El; [|by apply last_None in El].
  apply last_Some in El as [s0 E].
  intros [Hc|Hx]%andb_false_iff; apply negb_false_iff in Hc || apply negb_false_iff in Hx.
  - unfold trim. cbn [trimStart]. rewrite Hc.
    pose proof (prefix_length _ _ (trimEnd_prefix (trimStart s'))).
    pose proof (suffix_length _ _ (trimStart_suffix s')). simpl. lia.
  - pose proof (suffix_length _ _ (trimStart_suffix (c :: s'))) as H1.
    unfold trim. destruct (decide (trimStart (c :: s') = c :: s')) as [->|Hne].
    + unfold trimEnd. rewrite E, rev_unit. cbn [trimStart]. rewrite Hx.
      rewrite length_rev.
      pose proof (suffix_length _ _ (trimStart_suffix (rev s0))) as H2.
      rewrite length_rev in H2. rewrite length_app. simpl. lia.
    + pose proof (prefix_length _ _ (trimEnd_prefix (trimStart (c :: s')))) as H2.
      assert (length (trimStart (c :: s')) <> length (c :: s')) as H3.
      { intros Hl. apply Hne. destruct (trimStart_suffix (c :: s')) as [k Hk].
        rewrite Hk in Hl at 2. rewrite length_app in Hl.
        destruct k; [by rewrite Hk at 2|simpl in Hl; lia]. }
      lia.
Qed.

Lemma trimmed_iff s : trimmed s = true <-> trim s = s.
Proof.
  split; [apply trim_fixed|]. intros E.
  destruct (trimmed s) eqn:Et; [done|]. apply trim_shorter in Et.
  rewrite E in Et. lia.
Qed.

Lemma trimmed_trim s : trimmed (trim s) = true.
Proof. apply trimmed_iff, trim_idem. Qed.

Lemma collapse_trimmed s :
  trimmed s = true -> trimmed (replace_all THREE_OR_MORE_LF [LF; LF] s) = true.
Proof.
  intros [->|[(c & s' & -> & Hc) (s0 & x & E & Hx)]]%trimmed_inv; [done|].
  assert (forall y, is_space y = false -> (y =? LF) = false) as Hlf.
  { intros y Hy. destruct (y =? LF) eqn:Ey; [|done].
    apply N.eqb_eq in Ey as ->. done. }
  pose proof (collapse_snoc s0 x (Hlf _ Hx)) as Hs. rewrite <- E in Hs.
  rewrite replace_all_cons in Hs |- * by apply consuming_THREE_OR_MORE_LF.
  rewrite exec_THREE in Hs |- *. cbn [lf_run] in Hs |- *.
  rewrite (Hlf _ Hc) in Hs |- *. rewrite decide_False in Hs |- * by lia.
  by eapply trimmed_intro.
Qed.

(** ** Lines *)

Lemma join_lines_cons l ls : join_lines (l :: ls) = l ++ join_rest ls.
Proof. destruct ls; [by rewrite app_nil_r|done]. Qed.

Lemma join_split s : join_lines (split_lines s) = s.
Proof.
  induction s as [|c s IH]; [done|]. cbn [split_lines].
  destruct (c =? LF) eqn:Ec.
  - apply N.eqb_eq in Ec as ->. rewrite join_lines_cons.
    destruct (split_lines s) eqn:E; [by destruct s; simpl in E; try destruct (_ =? _), (split_lines _)|].
    cbn [app join_rest]. by rewrite IH.
  - destruct (split_lines s) as [|l ls] eqn:E; [by destruct s; simpl in E; try destruct (_ =? _), (split_lines _)|].
    rewrite join_lines_cons in IH |- *. cbn [app]. by rewrite IH.
Qed.

Lemma split_lines_single_line s : Forall (fun l => single_line l = true) (split_lines s).
Proof.
  induction s as [|c s IH]; [by repeat constructor|]. cbn [split_lines].
  destruct (c =? LF) eqn:Ec; [by constructor|].
  destruct (split_lines s) as [|l ls]; [repeat constructor; simpl; by rewrite Ec|].
  apply Forall_cons in IH as [Hl Hls]. constructor; [|done].
  simpl. by rewrite Ec.
Qed.

Lemma split_join ls :
  ls <> [] -> Forall (fun l => single_line l = true) ls ->
  split_lines (join_lines ls) = ls.
Proof.
  induction ls as [|l ls IH]; [done|]. intros _ [Hl Hls]%Forall_cons.
  destruct ls as [|l' ls]; [by apply split_lines_single|].
  change (join_lines (l :: l' :: ls)) with (l ++ LF :: join_lines (l' :: ls)).
  rewrite split_lines_app_LF by done. f_equal. by apply IH.
Qed.

Lemma single_line_sublist s t :
  s `sublist_of` t -> single_line t = true -> single_line s = true.
Proof.
  induction 1 as [|x s t Hs IH|x s t Hs IH]; simpl; [done|..].
  - intros [Hx Ht]%andb_true_iff. by rewrite Hx, IH.
  - intros [_ Ht]%andb_true_iff. by apply IH.
Qed.

Lemma trim_sublist s : trim s `sublist_of` s.
Proof.
  unfold trim. destruct (trimEnd_prefix (trimStart s)) as [k Hk].
  destruct (trimStart_suffix s) as [k' Hk'].
  rewrite Hk' at 2. apply sublist_inserts_l. rewrite Hk at 2.
  by apply sublist_inserts_r.
Qed.

Lemma join_lines_sublist ls' ls :
  Forall2 sublist ls' ls -> join_lines ls' `sublist_of` join_lines ls.
Proof.
  induction 1 as [|l' l ls' ls Hl Hls IH]; [done|].
  rewrite !join_lines_cons. apply sublist_app; [done|].
  destruct Hls; [done|]. cbn [join_rest]. by apply sublist_skip.
Qed.

Lemma join_lines_filter_sublist ls :
  join_lines (filter (fun line => nonempty line = true) ls)
    `sublist_of` join_lines ls.
Proof.
  induction ls as [|l ls IH]; [done|]. rewrite filter_cons.
  destruct (decide (nonempty l = true)) as [Hl|Hl].
  - rewrite !join_lines_cons. apply sublist_app; [done|].
    destruct (filter _ ls) eqn:E; [apply sublist_nil_l|].
    destruct ls; [done|]. cbn [join_rest]. by apply sublist_skip.
  - rewrite join_lines_cons. destruct l; [|done]. cbn [app].
    destruct ls; [done|]. cbn [join_rest]. by apply sublist_cons.
Qed.

End CleanTextFacts.

Section CleanerFacts.
Implicit Types (s t : jsstring) (ls : list jsstring) (c : cleaner).

Lemma strip_sublist r s : consuming r -> replace_all r [] s `sublist_of` s.
Proof.
  intros Hc. apply (replace_all_ind r [] (fun s out => out `sublist_of` s));
    [done|done|..]; clear s.
  - intros c s rest E IH. cbn [app]. etrans; [exact IH|].
    destruct (exec_suffix _ _ _ E) as [k ->]. by apply sublist_inserts_l.
  - intros c s E IH. by apply sublist_skip.
Qed.

Lemma strip_shorter r s :
  consuming r -> occurs r s = true ->
  (length (replace_all r [] s) < length s)%nat.
Proof.
  intros Hc.
  apply (replace_all_ind r []
    (fun s out => occurs r s = true -> (length out < length s)%nat));
    [done|..]; clear s.
  - simpl. intros H. destruct (exec r []) as [t|] eqn:E; [|done].
    apply Hc in E. simpl in E. lia.
  - intros c s rest E _ _. cbn [app].
    pose proof (sublist_length _ _ (strip_sublist r rest Hc)).
    apply Hc in E. lia.
  - intros c s E IH. cbn [occurs]. rewrite E. intros H%IH. simpl. lia.
Qed.

Lemma lines_of_cleaned s :
  let ls := filter (fun line => nonempty line = true) (map trim (split_lines s)) in
  Forall (fun l => single_line l = true /\ l <> [] /\ trimmed l = true) ls.
Proof.
  cbv zeta. apply Forall_forall. intros l [Hn Hl]%list_elem_of_filter.
  apply list_elem_of_fmap in Hl as (l' & -> & Hl').
  split; [|split].
  - eapply single_line_sublist; [apply trim_sublist|].
    by eapply Forall_forall in Hl'; [|apply split_lines_single_line].
  - by destruct (trim l').
  - apply trimmed_trim.
Qed.

Lemma join_lines_trimmed ls :
  Forall (fun l => l <> [] /\ trimmed l = true) ls ->
  trimmed (join_lines ls) = true /\ (ls <> [] -> join_lines ls <> []).
Proof.
  induction 1 as [|l ls [Hne Hl] Hls [IH1 IH2]]; [done|].
  rewrite join_lines_cons.
  apply trimmed_inv in Hl as [->|[(c & l' & -> & Hc) (l0 & x & E & Hx)]]; [done|].
  split; [|done]. destruct ls as [|l2 ls]; cbn [join_rest].
  - rewrite app_nil_r. by eapply trimmed_intro.
  - destruct (trimmed_inv _ IH1) as [E0|[_ (m0 & y & Ey & Hy)]];
      [by apply IH2 in E0|].
    apply (trimmed_intro c _ (c :: l' ++ LF :: m0) y); [|done..].
    rewrite Ey. cbn [app]. f_equal. by rewrite <- app_assoc.
Qed.

Lemma cleanLyrics_lines_spec s :
  let ls := filter (fun line => nonempty line = true)
              (map trim (split_lines (replace_all TAG_FRACTION_REQUIRED [] s))) in
  cleanLyrics_lines s = join_lines ls /\
  (ls <> [] -> split_lines (cleanLyrics_lines s) = ls).
Proof.
  cbv zeta. destruct s as [|c s]; [by split|]. split; [done|].
  intros Hne. unfold cleanLyrics_lines. apply split_join; [done|].
  eapply Forall_impl; [apply lines_of_cleaned|]. by intros l (? & _).
Qed.

Lemma tidy_lines_fixed s :
  tidy LineWise s ->
  join_lines (filter (fun line => nonempty line = true) (map trim (split_lines s)))
  = s.
Proof.
  intros [->|Hall]; [done|].
  assert (map trim (split_lines s) = split_lines s) as ->.
  { rewrite <- (map_id (split_lines s)) at 2. apply map_ext_Forall.
    eapply Forall_impl; [exact Hall|]. by intros l [_ ?]. }
  assert (filter (fun line => nonempty line = true) (split_lines s) = split_lines s)
    as ->; [|apply join_split].
  induction Hall as [|l ls [Hl _] _ IH]; [done|].
  rewrite filter_cons, decide_True by (by destruct l). by rewrite IH.
Qed.

Lemma trim_lines_sublist t :
  join_lines (filter (fun line => nonempty line = true) (map trim (split_lines t)))
    `sublist_of` t.
Proof.
  etrans; [apply join_lines_filter_sublist|].
  transitivity (join_lines (split_lines t)); [|by rewrite join_split].
  apply join_lines_sublist, Forall2_fmap_l, Forall_Forall2_diag, Forall_forall.
  intros l _. apply trim_sublist.
Qed.

Lemma collapse_tidy s : tidy Collapsing (cleanLyrics_collapse s).
Proof.
  unfold cleanLyrics_collapse. destruct s as [|c s]; [done|].
  split; [|apply collapse_spec].
  apply trimmed_iff, collapse_trimmed, trimmed_trim.
Qed.

Lemma lines_tidy s :
  trim (cleanLyrics_lines s) = cleanLyrics_lines s /\
  tidy LineWise (cleanLyrics_lines s).
Proof.
  destruct (cleanLyrics_lines_spec s) as [E Hs].
  pose proof (lines_of_cleaned (replace_all TAG_FRACTION_REQUIRED [] s)) as Hl.
  cbv zeta in *.
  set (ls := filter _ _) in *. split.
  - rewrite E. apply trimmed_iff, join_lines_trimmed.
    eapply Forall_impl; [exact Hl|]. by intros l (_ & ? & ?).
  - destruct ls as [|l ls'] eqn:Els; [left; by rewrite E|right].
    rewrite Hs by done. eapply Forall_impl; [exact Hl|].
    intros l0 (_ & ? & ?). split; [done|]. by apply trimmed_iff.
Qed.

Lemma cleaned_sublist c s : cleanLyrics_of c s `sublist_of` s.
Proof.
  destruct c; cbn [cleanLyrics_of].
  - unfold cleanLyrics_collapse. destruct s as [|x s]; [done|].
    etrans; [apply collapse_spec|]. etrans; [apply trim_sublist|].
    apply strip_sublist, (tag_like_consuming _ (tag_like_pattern Collapsing)).
  - unfold cleanLyrics_lines. destruct s as [|x s]; [done|].
    etrans; [apply trim_lines_sublist|].
    apply strip_sublist, (tag_like_consuming _ (tag_like_pattern LineWise)).
Qed.

(** A text is given back as it is exactly when it has no tag of the
    pattern and is tidy already. *)
Lemma cleaned_fixed c s :
  cleanLyrics_of c s = s <-> occurs (tag_pattern c) s = false /\ tidy c s.
Proof.
  pose proof (tag_like_consuming _ (tag_like_pattern c)) as Hc.
  split.
  - intros E. split.
    + destruct (occurs (tag_pattern c) s) eqn:Ho; [exfalso|done].
      apply (strip_shorter _ _ Hc) in Ho.
      assert (length s <= length (replace_all (tag_pattern c) [] s))%nat; [|lia].
      rewrite <- E at 1. apply sublist_length.
      destruct c; cbn [cleanLyrics_of tag_pattern] in *.
      * unfold cleanLyrics_collapse. destruct s as [|x s]; [done|].
        etrans; [apply collapse_spec|]. apply trim_sublist.
      * unfold cleanLyrics_lines. destruct s as [|x s]; [done|].
        apply trim_lines_sublist.
    + rewrite <- E. destruct c; cbn [cleanLyrics_of].
      * apply collapse_tidy.
      * apply lines_tidy.
  - intros [Ho Ht]. destruct c; cbn [cleanLyrics_of tag_pattern tidy] in *.
    + unfold cleanLyrics_collapse. destruct s as [|x s]; [done|].
      destruct Ht as [Ht H3]. rewrite (replace_all_none _ _ _ Ho), Ht.
      by apply replace_all_none.
    + unfold cleanLyrics_lines. destruct s as [|x s]; [done|].
      rewrite (replace_all_none _ _ _ Ho). by apply tidy_lines_fixed.
Qed.

End CleanerFacts.

(** X1.  The [cleanLyrics] of the first ingestor and of the batch clean pass
    returns a text without white space at either end and without three
    line feeds in a row, whatever it is given. *)
Theorem cleanLyrics_collapse_is_tidy (lyrics : jsstring) :
  trim (cleanLyrics_collapse lyrics) = cleanLyrics_collapse lyrics /\
  occurs THREE_OR_MORE_LF (cleanLyrics_collapse lyrics) = false.
Proof. apply collapse_tidy. Qed.

(** X2.  The [cleanLyrics] of the second ingestor and of [clean_lyrics.js]
    returns the empty text or a text in which no line is empty and no line
    has white space at either end; the text as a whole has none either. *)
Theorem cleanLyrics_lines_is_tidy (lyrics : jsstring) :
  trim (cleanLyrics_lines lyrics) = cleanLyrics_lines lyrics /\
  (cleanLyrics_lines lyrics = [] \/
   Forall (fun line => line <> [] /\ trim line = line)
          (split_lines (cleanLyrics_lines lyrics))).
Proof. apply lines_tidy. Qed.

(** X3.  Neither [cleanLyrics] adds anything: the cleaned text is the raw text
    with some of its code units deleted, the others in their order; so it
    is never longer than the raw text. *)
Theorem cleanLyrics_only_deletes (c : cleaner) (raw : jsstring) :
  cleanLyrics_of c raw `sublist_of` raw /\
  (length (cleanLyrics_of c raw) <= length raw)%nat.
Proof.
  split; [apply cleaned_sublist|apply sublist_length, cleaned_sublist].
Qed.

(** X4.  The texts that a [cleanLyrics] gives back as they are, are those that
    hold no tag of its pattern and are tidy already; every other text
    comes back shorter. *)
Theorem cleanLyrics_fixed_points (c : cleaner) (s : jsstring) :
  (cleanLyrics_of c s = s <-> occurs (tag_pattern c) s = false /\ tidy c s) /\
  (cleanLyrics_of c s <> s -> (length (cleanLyrics_of c s) < length s)%nat).
Proof.
  split; [apply cleaned_fixed|]. intros Hne.
  pose proof (cleaned_sublist c s) as Hs.
  pose proof (sublist_length _ _ Hs) as Hl.
  destruct (decide (length (cleanLyrics_of c s) = length s)) as [E|]; [|lia].
  exfalso. apply Hne. clear -Hs E.
  induction Hs as [|x l1 l2 Hs IH|x l1 l2 Hs IH]; [done| |].
  - f_equal. apply IH. simpl in E. lia.
  - apply sublist_length in Hs. simpl in E. lia.
Qed.

(** X5.  Cleaning a cleaned text changes nothing, when no bracket of the raw
    text is nested in a bracket that is not a tag. *)
Theorem cleanLyrics_idempotent (c : cleaner) (raw : jsstring) :
  unnested (tag_pattern c) raw = true ->
  cleanLyrics_of c (cleanLyrics_of c raw) = cleanLyrics_of c raw.
Proof.
  intros Hu. apply cleaned_fixed. split.
  - destruct c; [by apply cleanLyrics_collapse_no_tag
                |by apply cleanLyrics_lines_no_tag].
  - destruct c; cbn [cleanLyrics_of]; [apply collapse_tidy|apply lines_tidy].
Qed.

Lemma cleanLyrics_idempotent_witness :
  unnested (tag_pattern Collapsing) (js "[00:01][chorus] la [00:02.50]") = true /\
  cleanLyrics_of Collapsing
    (cleanLyrics_of Collapsing (js "[00:01][chorus] la [00:02.50]"))
  = cleanLyrics_of Collapsing (js "[00:01][chorus] la [00:02.50]").
Proof.
  split; [vm_compute; reflexivity|].
  apply (cleanLyrics_idempotent Collapsing). vm_compute. reflexivity.
Defined.

(** Without the condition a second cleaning does remove more. *)
Example cleanLyrics_twice_on_nested_tags :
  cleanLyrics_collapse (js "[00:[00:00]00]la") = js "[00:00]la" /\
  cleanLyrics_collapse (js "[00:00]la") = js "la".
Proof. vm_compute. split; reflexivity. Qed.

(** * Runs of the ingestors *)

Section RunFacts.
Context {numbers : Numbers} {host : Host}.
Implicit Types (s : sys) (ev : list event).

Lemma searched_app ev1 ev2 : searched (ev1 ++ ev2) = searched ev1 ++ searched ev2.
Proof. apply omap_app. Qed.

Lemma fetched_app ev1 ev2 : fetched (ev1 ++ ev2) = fetched ev1 ++ fetched ev2.
Proof. apply omap_app. Qed.

Lemma store_lines_app (rs1 rs2 : list value) :
  store_lines (rs1 ++ rs2) = store_lines rs1 ++ store_lines rs2.
Proof. unfold store_lines. by rewrite map_app, concat_app. Qed.

(** ** Properties that hold step by step *)

Section Steps.
Context (R : sys -> sys -> list event -> Prop).
Hypothesis R_nil : forall s, R s s [].
Hypothesis R_app : forall s s1 s2 ev1 ev2,
  R s s1 ev1 -> R s1 s2 ev2 -> R s s2 (ev1 ++ ev2).

Lemma io_sat_ret {A} (a : A) : io_sat R (mret a).
Proof. intros s. apply R_nil. Qed.

Lemma io_sat_bind {A B} (m : IO A) (f : A -> IO B) :
  io_sat R m -> (forall a, io_sat R (f a)) -> io_sat R (m ≫= f).
Proof.
  intros Hm Hf s. unfold mbind, IO_bind, bind.
  specialize (Hm s). destruct (m s) as [[a s1] ev1].
  specialize (Hf a s1). destruct (f a s1) as [[b s2] ev2].
  by eapply R_app.
Qed.

Hypothesis R_lyric : forall id, io_sat R (lyric id).
Hypothesis R_append : forall rec, io_sat R (appendLine Ingest1.LYRICS_FILE_PATH rec).
Hypothesis R_delay : io_sat R delay.

Lemma getSongLyric1_sat song : io_sat R (Ingest1.getSongLyric song).
Proof.
  unfold Ingest1.getSongLyric. destruct (prop song "id"); [|apply io_sat_ret].
  apply io_sat_bind; [done|]. intros reply. apply io_sat_ret.
Qed.

Lemma writeLyricToFile_sat rec : io_sat R (Ingest1.writeLyricToFile rec).
Proof.
  unfold Ingest1.writeLyricToFile. destruct (prop rec "lyrics") as [l|];
    [|apply io_sat_ret]. destruct (truthy l); [done|apply io_sat_ret].
Qed.

Lemma process_songs1_sat newSongs : forall existing added,
  io_sat R (Ingest1.process_songs newSongs existing added).
Proof.
  induction newSongs as [|song rest IH]; intros existing added;
    cbn [Ingest1.process_songs]; [apply io_sat_ret|].
  apply io_sat_bind; [apply getSongLyric1_sat|]. intros lyricData.
  apply io_sat_bind.
  - destruct lyricData; [|apply io_sat_ret].
    apply io_sat_bind; [apply writeLyricToFile_sat|]. intros _. apply io_sat_ret.
  - intros added'. destruct (Ingest1.song_name song); [|apply io_sat_ret].
    apply io_sat_bind; [done|]. intros _. apply IH.
Qed.

Lemma getSongLyric2_sat song : io_sat R (Ingest2.getSongLyric song).
Proof.
  unfold Ingest2.getSongLyric. destruct (prop song "id"); [|apply io_sat_ret].
  apply io_sat_bind; [done|]. intros reply. apply io_sat_ret.
Qed.

Lemma process_songs2_sat songs : forall set n k,
  io_sat R (Ingest2.process_songs songs set n k).
Proof.
  induction songs as [|song rest IH]; intros set n k;
    cbn [Ingest2.process_songs]; [apply io_sat_ret|].
  destruct (prop song "name") as [songTitle|]; [|apply io_sat_ret].
  destruct (prop song "artist") as [artist|]; [|apply io_sat_ret].
  destruct (to_String songTitle) as [printed|]; [|apply io_sat_ret].
  destruct (Ingest2.has set songTitle); [apply IH|].
  apply io_sat_bind; [apply getSongLyric2_sat|]. intros [l|]; [|apply IH].
  destruct (includes _ _); [apply IH|].
  apply io_sat_bind; [apply R_append|]. intros _.
  apply io_sat_bind; [done|]. intros _. apply IH.
Qed.

End Steps.

(** ** The store only grows *)

Lemma appends_only_nil s : appends_only s s [].
Proof. done. Qed.

Lemma appends_only_app s s1 s2 ev1 ev2 :
  appends_only s s1 ev1 -> appends_only s1 s2 ev2 ->
  appends_only s s2 (ev1 ++ ev2).
Proof.
  unfold appends_only. rewrite appended_app. intros H1 H2.
  destruct (appended ev1) as [|r1 rs1] eqn:E1.
  - cbn [app]. by rewrite H2, H1.
  - destruct (appended ev2) as [|r2 rs2] eqn:E2.
    + rewrite app_nil_r. by rewrite H2, H1.
    + rewrite H2, H1. rewrite lookup_insert_eq. cbn [default from_option id].
      rewrite insert_insert_eq. cbn [app]. f_equal.
      rewrite <- app_assoc. f_equal.
      change (r1 :: rs1 ++ r2 :: rs2) with ((r1 :: rs1) ++ (r2 :: rs2)).
      by rewrite store_lines_app.
Qed.

Lemma appends_only_lyric id : io_sat appends_only (lyric id).
Proof. intros s. unfold lyric. by destruct (meting_lyric id (net s)). Qed.

Lemma appends_only_search page : io_sat appends_only (search page).
Proof. intros s. unfold search. by destruct (meting_search page (net s)). Qed.

Lemma appends_only_append rec :
  io_sat appends_only (appendLine Ingest1.LYRICS_FILE_PATH rec).
Proof.
  intros s. unfold appends_only, appendLine, appended, store_lines. simpl.
  by rewrite app_nil_r.
Qed.

Lemma appends_only_delay : io_sat appends_only delay.
Proof. done. Qed.

Lemma process_page1_appends page existing added :
  io_sat appends_only (Ingest1.process_page page existing added).
Proof.
  unfold Ingest1.process_page.
  apply (io_sat_bind _ appends_only_app); [apply appends_only_search|].
  intros reply. destruct (reply ≫= JSON_parse) as [[| |?|?|?|songs|?]|];
    try apply (io_sat_ret _ appends_only_nil).
  destruct (Ingest1.new_songs songs existing);
    [|apply (io_sat_ret _ appends_only_nil)].
  apply (process_songs1_sat _ appends_only_nil appends_only_app
           appends_only_lyric appends_only_append appends_only_delay).
Qed.

Lemma process_pages1_appends pages : forall existing added,
  io_sat appends_only (Ingest1.process_pages pages existing added).
Proof.
  induction pages as [|page rest IH]; intros existing added;
    cbn [Ingest1.process_pages]; [apply (io_sat_ret _ appends_only_nil)|].
  apply (io_sat_bind _ appends_only_app); [apply process_page1_appends|].
  intros [ex ad]. apply IH.
Qed.

Lemma process_page2_appends page set n k :
  io_sat appends_only (Ingest2.process_page page set n k).
Proof.
  unfold Ingest2.process_page.
  apply (io_sat_bind _ appends_only_app); [apply appends_only_search|].
  intros reply. destruct (reply ≫= JSON_parse) as [[| |?|?|?|songs|?]|];
    try apply (io_sat_ret _ appends_only_nil).
  apply (process_songs2_sat _ appends_only_nil appends_only_app
           appends_only_lyric appends_only_append appends_only_delay).
Qed.

Lemma process_pages2_appends pages : forall set n k,
  io_sat appends_only (Ingest2.process_pages pages set n k).
Proof.
  induction pages as [|page rest IH]; intros set n k;
    cbn [Ingest2.process_pages]; [apply (io_sat_ret _ appends_only_nil)|].
  apply (io_sat_bind _ appends_only_app); [apply process_page2_appends|].
  intros [[set' n'] k']. apply IH.
Qed.

End RunFacts.

Section SearchFacts.
Context {numbers : Numbers} {host : Host}.
Implicit Types (s : sys) (ev : list event).

(** ** Loading the titles *)

Lemma loadExistingSongs1_run s :
  Ingest1.loadExistingSongs s =
  match disk s !! Ingest1.LYRICS_FILE_PATH with
  | Some content =>
    (list_to_set (omap Ingest1.existing_title (nonblank_lines content)), s,
     [ExistsSync Ingest1.LYRICS_FILE_PATH; ReadFileSync Ingest1.LYRICS_FILE_PATH])
  | None => (∅, s, [ExistsSync Ingest1.LYRICS_FILE_PATH])
  end.
Proof.
  unfold Ingest1.loadExistingSongs, mbind, IO_bind, bind, existsSync, readFileSync,
    mret, IO_ret, ret.
  destruct (disk s !! Ingest1.LYRICS_FILE_PATH) as [content|] eqn:E.
  - rewrite bool_decide_eq_true_2 by (by eexists). by rewrite E.
  - by rewrite bool_decide_eq_false_2 by (by intros [? ?]).
Qed.

Lemma loadExistingSongs2_run s :
  Ingest2.loadExistingSongs s =
  match disk s !! Ingest2.LYRICS_FILE_PATH with
  | Some content =>
    (foldl Ingest2.load_line [] (nonblank_lines content), s,
     [ExistsSync Ingest2.LYRICS_FILE_PATH; ReadFileSync Ingest2.LYRICS_FILE_PATH])
  | None => ([], s, [ExistsSync Ingest2.LYRICS_FILE_PATH])
  end.
Proof.
  unfold Ingest2.loadExistingSongs, mbind, IO_bind, bind, existsSync, readFileSync,
    mret, IO_ret, ret.
  destruct (disk s !! Ingest2.LYRICS_FILE_PATH) as [content|] eqn:E.
  - rewrite bool_decide_eq_true_2 by (by eexists). by rewrite E.
  - by rewrite bool_decide_eq_false_2 by (by intros [? ?]).
Qed.

(** ** The pages of a run *)

Lemma page_range_seqZ (initialPage pageCount : Z) :
  Ingest1.page_range initialPage pageCount = seqZ initialPage pageCount.
Proof.
  unfold Ingest1.page_range, seqZ. apply map_ext. intros i. lia.
Qed.

Lemma page_range_elem (initialPage pageCount page : Z) :
  page ∈ Ingest1.page_range initialPage pageCount <->
  (initialPage <= page < initialPage + pageCount)%Z.
Proof.
  unfold Ingest1.page_range. rewrite list_elem_of_fmap. split.
  - intros (i & -> & Hi%elem_of_seq). lia.
  - intros H. exists (Z.to_nat (page - initialPage)). split; [lia|].
    apply elem_of_seq. lia.
Qed.

Lemma page_range_NoDup (initialPage pageCount : Z) :
  NoDup (Ingest1.page_range initialPage pageCount).
Proof.
  unfold Ingest1.page_range. apply NoDup_fmap_2; [|apply NoDup_seq].
  intros i j H. lia.
Qed.

Lemma no_search_nil s : no_search s s [].
Proof. done. Qed.

Lemma no_search_app s s1 s2 ev1 ev2 :
  no_search s s1 ev1 -> no_search s1 s2 ev2 -> no_search s s2 (ev1 ++ ev2).
Proof. unfold no_search. rewrite searched_app. by intros -> ->. Qed.

Lemma no_search_lyric id : io_sat no_search (lyric id).
Proof. intros s. unfold lyric. by destruct (meting_lyric id (net s)). Qed.

Lemma no_search_append rec :
  io_sat no_search (appendLine Ingest1.LYRICS_FILE_PATH rec).
Proof. done. Qed.

Lemma no_search_delay : io_sat no_search delay.
Proof. done. Qed.

Lemma process_page1_searched page existing added s :
  searched (Ingest1.process_page page existing added s).2 = [page].
Proof.
  unfold Ingest1.process_page, mbind at 1, IO_bind, bind, search, mret, IO_ret, ret.
  destruct (meting_search page (net s)) as [reply w].
  destruct (reply ≫= JSON_parse) as [[| |?|?|?|songs|?]|]; try done.
  destruct (Ingest1.new_songs songs existing) as [newSongs|]; [|done].
  pose proof (process_songs1_sat _ no_search_nil no_search_app no_search_lyric
                no_search_append no_search_delay newSongs existing added
                (Sys w (disk s))) as H.
  destruct (Ingest1.process_songs _ _ _ _) as [[r s'] ev].
  simpl in *. unfold no_search in H. by rewrite H.
Qed.

Lemma process_pages1_searched pages : forall existing added s,
  searched (Ingest1.process_pages pages existing added s).2 = pages.
Proof.
  induction pages as [|page rest IH]; intros existing added s; [done|].
  cbn [Ingest1.process_pages]. unfold mbind, IO_bind, bind.
  pose proof (process_page1_searched page existing added s) as H1.
  destruct (Ingest1.process_page page existing added s) as [[[ex1 ad1] s1] ev1].
  specialize (IH ex1 ad1 s1).
  destruct (Ingest1.process_pages rest ex1 ad1 s1) as [[r s2] ev2].
  simpl in *. by rewrite searched_app, H1, IH.
Qed.

Lemma process_page2_run page set n k s :
  Ingest2.process_page page set n k s =
  let '(reply, w) := meting_search page (net s) in
  match listed reply with
  | Some songs =>
    let '(r, s', ev) := Ingest2.process_songs songs set n k (Sys w (disk s)) in
    (r, s', SearchPage page :: ev)
  | None => ((set, n, k), Sys w (disk s), [SearchPage page])
  end.
Proof.
  unfold Ingest2.process_page, mbind at 1, IO_bind, bind, search, listed.
  destruct (meting_search page (net s)) as [reply w].
  destruct (reply ≫= JSON_parse) as [v|]; [|done].
  by destruct v.
Qed.

Lemma process_page2_searched page set n k s :
  searched (Ingest2.process_page page set n k s).2 = [page].
Proof.
  unfold Ingest2.process_page, mbind at 1, IO_bind, bind, search, mret, IO_ret, ret.
  destruct (meting_search page (net s)) as [reply w].
  destruct (reply ≫= JSON_parse) as [[| |?|?|?|songs|?]|]; try done.
  pose proof (process_songs2_sat _ no_search_nil no_search_app no_search_lyric
                no_search_append no_search_delay songs set n k
                (Sys w (disk s))) as H.
  destruct (Ingest2.process_songs _ _ _ _ _) as [[r s'] ev].
  simpl in *. unfold no_search in H. by rewrite H.
Qed.

Lemma process_pages2_searched pages : forall set n k s,
  searched (Ingest2.process_pages pages set n k s).2 = pages.
Proof.
  induction pages as [|page rest IH]; intros set n k s; [done|].
  cbn [Ingest2.process_pages]. unfold mbind, IO_bind, bind.
  pose proof (process_page2_searched page set n k s) as H1.
  destruct (Ingest2.process_page page set n k s) as [[[[set1 n1] k1] s1] ev1].
  specialize (IH set1 n1 k1 s1).
  destruct (Ingest2.process_pages rest set1 n1 k1 s1) as [[r s2] ev2].
  simpl in *. by rewrite searched_app, H1, IH.
Qed.

End SearchFacts.

(** X8.  When the first page, the number of pages and their sum are safe
    integers, a run of the first ingestor searches the pages
    [initialPage], ..., [initialPage + pageCount - 1], each of them once
    and in this order, whatever the catalogue answers: a page that fails
    does not end the run.  A [pageCount] of zero or less searches
    nothing.  (Beyond the safe integers the page counter of the source,
    a double, no longer counts in steps of one.) *)
Theorem ingest1_searches_every_page {numbers : Numbers} {host : Host}
    (initialPage pageCount : Z) (s : sys) :
  safe_pages initialPage pageCount ->
  let pages := searched (Ingest1.searchLuoTianyiSongs initialPage pageCount s).2 in
  pages = seqZ initialPage pageCount /\
  NoDup pages /\
  (forall page, page ∈ pages <->
     (initialPage <= page < initialPage + pageCount)%Z) /\
  ((pageCount <= 0)%Z -> pages = []).
Proof.
  intros _. cbv zeta.
  assert (searched (Ingest1.searchLuoTianyiSongs initialPage pageCount s).2
          = Ingest1.page_range initialPage pageCount) as E.
  { unfold Ingest1.searchLuoTianyiSongs, mbind at 1, IO_bind, bind.
    rewrite loadExistingSongs1_run.
    pose proof (process_pages1_searched
                  (Ingest1.page_range initialPage pageCount)) as Hp.
    unfold mbind, IO_bind, bind, existsSync, writeFileSync, mret, IO_ret, ret.
    destruct (disk s !! Ingest1.LYRICS_FILE_PATH) as [content|] eqn:Ed; cbn [disk net].
    - rewrite Ed. rewrite bool_decide_eq_true_2 by (by eexists).
      match goal with
      | |- context [Ingest1.process_pages ?p ?e ?a ?st] =>
        specialize (Hp e a st); destruct (Ingest1.process_pages p e a st)
          as [[[ex' ad'] s'] ev]
      end. simpl in *. by rewrite app_nil_r.
    - rewrite Ed. rewrite bool_decide_eq_false_2 by (by intros [? ?]).
      match goal with
      | |- context [Ingest1.process_pages ?p ?e ?a ?st] =>
        specialize (Hp e a st); destruct (Ingest1.process_pages p e a st)
          as [[[ex' ad'] s'] ev]
      end. simpl in *. by rewrite app_nil_r. }
  rewrite E. split; [apply page_range_seqZ|]. split; [apply page_range_NoDup|].
  split; [apply page_range_elem|].
  intros Hn. unfold Ingest1.page_range. by replace (Z.to_nat pageCount) with O by lia.
Qed.

(** X16.  When the first page, the number of pages and their sum are
    safe integers, a run of the second ingestor searches the pages
    [initialPage], ..., [initialPage + pageCount - 1], each of them once
    and in this order, whatever the catalogue answers: a page that fails
    or lists nothing does not end the run.  A [pageCount] of zero or less
    searches nothing. *)
Theorem ingest2_searches_every_page {numbers : Numbers} {host : Host}
    (initialPage pageCount : Z) (s : sys) :
  safe_pages initialPage pageCount ->
  let pages := searched (Ingest2.searchLuoTianyiSongs initialPage pageCount s).2 in
  pages = seqZ initialPage pageCount /\
  NoDup pages /\
  (forall page, page ∈ pages <->
     (initialPage <= page < initialPage + pageCount)%Z) /\
  ((pageCount <= 0)%Z -> pages = []).
Proof.
  intros _. cbv zeta.
  assert (searched (Ingest2.searchLuoTianyiSongs initialPage pageCount s).2
          = Ingest1.page_range initialPage pageCount) as E.
  { unfold Ingest2.searchLuoTianyiSongs, mbind at 1, IO_bind, bind.
    rewrite loadExistingSongs2_run.
    pose proof (process_pages2_searched
                  (Ingest1.page_range initialPage pageCount)) as Hp.
    unfold mbind, IO_bind, bind, mret, IO_ret, ret.
    destruct (disk s !! Ingest2.LYRICS_FILE_PATH) as [content|] eqn:Ed.
    - match goal with
      | |- context [Ingest2.process_pages ?p ?e ?a ?b ?st] =>
        specialize (Hp e a b st); destruct (Ingest2.process_pages p e a b st)
          as [[[[set' n'] k'] s'] ev]
      end. simpl in *. by rewrite app_nil_r.
    - match goal with
      | |- context [Ingest2.process_pages ?p ?e ?a ?b ?st] =>
        specialize (Hp e a b st); destruct (Ingest2.process_pages p e a b st)
          as [[[[set' n'] k'] s'] ev]
      end. simpl in *. by rewrite app_nil_r. }
  rewrite E. split; [apply page_range_seqZ|]. split; [apply page_range_NoDup|].
  split; [apply page_range_elem|].
  intros Hn. unfold Ingest1.page_range. by replace (Z.to_nat pageCount) with O by lia.
Qed.

(** X10.  A run of the first ingestor leaves the store file in place, holding
    what it held before (nothing, if it was not there) followed by one
    line for each record appended, in the order of the appends; no other
    file is created or changed. *)
Theorem ingest1_store_only_grows {numbers : Numbers} {host : Host}
    (initialPage pageCount : Z) (s : sys) :
  let '(_, s', ev) := Ingest1.searchLuoTianyiSongs initialPage pageCount s in
  disk s' =
  <[Ingest1.LYRICS_FILE_PATH :=
      default [] (disk s !! Ingest1.LYRICS_FILE_PATH)
      ++ store_lines (appended ev)]> (disk s).
Proof.
  unfold Ingest1.searchLuoTianyiSongs, mbind at 1, IO_bind, bind.
  rewrite loadExistingSongs1_run.
  pose proof (process_pages1_appends
                (Ingest1.page_range initialPage pageCount)) as Hp.
  unfold mbind, IO_bind, bind, existsSync, writeFileSync, mret, IO_ret, ret.
  destruct (disk s !! Ingest1.LYRICS_FILE_PATH) as [content|] eqn:Ed; cbn [disk net].
  - rewrite Ed. rewrite bool_decide_eq_true_2 by (by eexists).
    match goal with
    | |- context [Ingest1.process_pages ?p ?e ?a ?st] =>
      specialize (Hp e a st); destruct (Ingest1.process_pages p e a st)
        as [[[ex' ad'] s'] ev]
    end. unfold appends_only in Hp. simpl in *.
    rewrite app_nil_r. destruct (appended ev).
    + rewrite Hp. unfold store_lines. simpl. rewrite app_nil_r.
      by rewrite insert_id.
    + by rewrite Hp, Ed.
  - rewrite Ed. rewrite bool_decide_eq_false_2 by (by intros [? ?]).
    match goal with
    | |- context [Ingest1.process_pages ?p ?e ?a ?st] =>
      specialize (Hp e a st); destruct (Ingest1.process_pages p e a st)
        as [[[ex' ad'] s'] ev]
    end. unfold appends_only in Hp. simpl in *.
    rewrite app_nil_r. destruct (appended ev).
    + by rewrite Hp.
    + rewrite Hp, lookup_insert_eq. simpl. by rewrite insert_insert_eq.
Qed.

(** X18.  A run of the second ingestor changes no file when it appends nothing
    (it does not create the store); otherwise the store holds what it
    held before followed by one line for each record appended, and no
    other file is changed. *)
Theorem ingest2_store_only_grows {numbers : Numbers} {host : Host}
    (initialPage pageCount : Z) (s : sys) :
  let '(_, s', ev) := Ingest2.searchLuoTianyiSongs initialPage pageCount s in
  disk s' =
  match appended ev with
  | [] => disk s
  | _ :: _ =>
    <[Ingest2.LYRICS_FILE_PATH :=
        default [] (disk s !! Ingest2.LYRICS_FILE_PATH)
        ++ store_lines (appended ev)]> (disk s)
  end.
Proof.
  unfold Ingest2.searchLuoTianyiSongs, mbind at 1, IO_bind, bind.
  rewrite loadExistingSongs2_run.
  pose proof (process_pages2_appends
                (Ingest1.page_range initialPage pageCount)) as Hp.
  unfold mbind, IO_bind, bind, mret, IO_ret, ret.
  destruct (disk s !! Ingest2.LYRICS_FILE_PATH) as [content|] eqn:Ed.
  - match goal with
    | |- context [Ingest2.process_pages ?p ?e ?a ?b ?st] =>
      specialize (Hp e a b st); destruct (Ingest2.process_pages p e a b st)
        as [[[[set' n'] k'] s'] ev]
    end. unfold appends_only in Hp. simpl in *. rewrite app_nil_r.
    change Ingest2.LYRICS_FILE_PATH with Ingest1.LYRICS_FILE_PATH in *.
    rewrite Ed in Hp. exact Hp.
  - match goal with
    | |- context [Ingest2.process_pages ?p ?e ?a ?b ?st] =>
      specialize (Hp e a b st); destruct (Ingest2.process_pages p e a b st)
        as [[[[set' n'] k'] s'] ev]
    end. unfold appends_only in Hp. simpl in *. rewrite app_nil_r.
    change Ingest2.LYRICS_FILE_PATH with Ingest1.LYRICS_FILE_PATH in *.
    rewrite Ed in Hp. exact Hp.
Qed.

(** * What the ingestors report *)

Section Ingest2Steps.
Context {numbers : Numbers} {host : Host}.
Implicit Types (s : sys) (ev : list event) (set : list value).

(** A property [T] of the set and counters before and after and of the
    calls made, that holds of each step of the second ingestor, holds of
    its loops. *)
Context (T : list value * nat * nat -> list value * nat * nat -> list event -> Prop).
Hypothesis T_refl : forall st, T st st [].
Hypothesis T_trans : forall st st1 st2 ev1 ev2,
  T st st1 ev1 -> T st1 st2 ev2 -> T st st2 (ev1 ++ ev2).
Hypothesis T_search : forall st page, T st st [SearchPage page].
Hypothesis T_lyric : forall st id, T st st [Lyric id].
Hypothesis T_skip : forall set n k title,
  Ingest2.has set title = true -> T (set, n, k) (set, n, S k) [].
Hypothesis T_append : forall set n k id title artist l,
  Ingest2.has set title = false ->
  includes (Ingest2.cleanLyrics l) PURE_MUSIC = false ->
  T (set, n, k) (Ingest2.add set title, S n, k)
    [Lyric id;
     AppendLine Ingest2.LYRICS_FILE_PATH
       (VObject [(js "song_title", title); (js "p_masters", artist);
                 (js "lyrics", VString (Ingest2.cleanLyrics l))]); Delay].

Lemma getSongLyric2_eq song s :
  Ingest2.getSongLyric song s =
  match prop song "id" with
  | Some id =>
    let '(reply, w) := meting_lyric id (net s) in
    (Ingest2.lyric_text song reply, Sys w (disk s), [Lyric id])
  | None => (None, s, [])
  end.
Proof.
  unfold Ingest2.getSongLyric. destruct (prop song "id") as [id|]; [|done].
  unfold mbind, IO_bind, bind, lyric, mret, IO_ret, ret.
  by destruct (meting_lyric id (net s)).
Qed.

Lemma process_songs2_steps songs : forall set n k s,
  T (set, n, k) (Ingest2.process_songs songs set n k s).1.1
    (Ingest2.process_songs songs set n k s).2.
Proof.
  induction songs as [|song rest IH]; intros set n k s; [apply T_refl|].
  cbn [Ingest2.process_songs].
  destruct (prop song "name") as [songTitle|]; [|apply T_refl].
  destruct (prop song "artist") as [artist|]; [|apply T_refl].
  destruct (to_String songTitle) as [printed|]; [|apply T_refl].
  destruct (Ingest2.has set songTitle) eqn:Ehas.
  - apply (T_trans _ (set, n, S k) _ []); [by eapply T_skip|apply IH].
  - unfold mbind, IO_bind, bind. rewrite getSongLyric2_eq.
    destruct (prop song "id") as [id|].
    + destruct (meting_lyric id (net s)) as [reply w].
      destruct (Ingest2.lyric_text song reply) as [l|].
      * destruct (includes (Ingest2.cleanLyrics l) PURE_MUSIC) eqn:Ei.
        -- specialize (IH set n k (Sys w (disk s))).
           destruct (Ingest2.process_songs rest set n k _) as [[st2 s2] ev2].
           simpl in *. apply (T_trans _ (set, n, k) _ [_]); [apply T_lyric|done].
        -- unfold appendLine, delay. cbn [net disk].
           match goal with
           | |- context [Ingest2.process_songs rest ?e ?a ?b ?st] =>
             specialize (IH e a b st);
             destruct (Ingest2.process_songs rest e a b st) as [[st2 s2] ev2]
           end. simpl in *.
           apply (T_trans _ (Ingest2.add set songTitle, S n, k) _ [_; _; _]);
             [by apply T_append|exact IH].
      * specialize (IH set n k (Sys w (disk s))).
        destruct (Ingest2.process_songs rest set n k _) as [[st2 s2] ev2].
        simpl in *. apply (T_trans _ (set, n, k) _ [_]); [apply T_lyric|done].
    + specialize (IH set n k s).
      destruct (Ingest2.process_songs rest set n k s) as [[st2 s2] ev2].
      simpl in *. done.
Qed.

Lemma process_page2_steps page set n k s :
  T (set, n, k) (Ingest2.process_page page set n k s).1.1
    (Ingest2.process_page page set n k s).2.
Proof.
  rewrite process_page2_run.
  destruct (meting_search page (net s)) as [reply w].
  destruct (listed reply) as [songs|]; [|apply T_search].
  pose proof (process_songs2_steps songs set n k (Sys w (disk s))) as H.
  destruct (Ingest2.process_songs _ _ _ _ _) as [[st2 s2] ev2]. simpl in *.
  apply (T_trans _ (set, n, k) _ [_]); [apply T_search|done].
Qed.

Lemma process_pages2_steps pages : forall set n k s,
  T (set, n, k) (Ingest2.process_pages pages set n k s).1.1
    (Ingest2.process_pages pages set n k s).2.
Proof.
  induction pages as [|page rest IH]; intros set n k s; [apply T_refl|].
  cbn [Ingest2.process_pages]. unfold mbind, IO_bind, bind.
  pose proof (process_page2_steps page set n k s) as H1.
  destruct (Ingest2.process_page page set n k s) as [[[[set1 n1] k1] s1] ev1].
  specialize (IH set1 n1 k1 s1).
  destruct (Ingest2.process_pages rest set1 n1 k1 s1) as [[st2 s2] ev2].
  simpl in *. by eapply T_trans.
Qed.

End Ingest2Steps.

Section Ingest1Steps.
Context {numbers : Numbers} {host : Host}.
Implicit Types (s : sys) (ev : list event) (existing : gset jsstring).

(** The same for the first ingestor: a step is what the loop does for one
    new track. *)
Context (T : gset jsstring * nat -> gset jsstring * nat -> list event -> Prop).
Hypothesis T_refl : forall st, T st st [].
Hypothesis T_trans : forall st st1 st2 ev1 ev2,
  T st st1 ev1 -> T st1 st2 ev2 -> T st st2 (ev1 ++ ev2).
Hypothesis T_search : forall st page, T st st [SearchPage page].
Hypothesis T_saved : forall existing added song name reply rec,
  Ingest1.song_name song = Some name ->
  Ingest1.lyric_record song reply = Some rec -> has_lyrics rec = true ->
  T (existing, added) ({[cleanSongTitle name]} ∪ existing, S added)
    [Lyric (song_id song); AppendLine Ingest1.LYRICS_FILE_PATH rec; Delay].
Hypothesis T_unsaved : forall existing added song name reply rec,
  Ingest1.song_name song = Some name ->
  Ingest1.lyric_record song reply = Some rec -> has_lyrics rec = false ->
  T (existing, added) ({[cleanSongTitle name]} ∪ existing, S added)
    [Lyric (song_id song); Delay].
Hypothesis T_rejected : forall existing added song name reply,
  Ingest1.song_name song = Some name ->
  Ingest1.lyric_record song reply = None ->
  T (existing, added) ({[cleanSongTitle name]} ∪ existing, added)
    [Lyric (song_id song); Delay].

Lemma process_songs1_steps newSongs : forall existing added s,
  Forall (fun song => is_Some (Ingest1.song_name song)) newSongs ->
  T (existing, added) (Ingest1.process_songs newSongs existing added s).1.1
    (Ingest1.process_songs newSongs existing added s).2.
Proof.
  induction newSongs as [|song rest IH]; intros existing added s Hall;
    [apply T_refl|].
  apply Forall_cons in Hall as [[name En] Hall].
  cbn [Ingest1.process_songs]. unfold mbind, IO_bind, bind.
  rewrite getSongLyric_run, En. destruct (song_name_id _ _ En) as [-> _].
  destruct (meting_lyric (song_id song) (net s)) as [reply w].
  destruct (Ingest1.lyric_record song reply) as [rec|] eqn:Er.
  - rewrite writeLyricToFile_run.
    destruct (has_lyrics rec) eqn:Eh; unfold appendLine, mret, IO_ret, ret, delay;
      cbn [net disk];
      match goal with
      | |- context [Ingest1.process_songs rest ?e ?a ?st] =>
        specialize (IH e a st Hall);
        destruct (Ingest1.process_songs rest e a st) as [[st2 s2] ev2]
      end; simpl in *.
    + apply (T_trans _ ({[cleanSongTitle name]} ∪ existing, S added) _ [_; _; _]);
        [by eapply T_saved|done].
    + apply (T_trans _ ({[cleanSongTitle name]} ∪ existing, S added) _ [_; _]);
        [by eapply T_unsaved|done].
  - unfold mret, IO_ret, ret, delay; cbn [net disk].
    match goal with
    | |- context [Ingest1.process_songs rest ?e ?a ?st] =>
      specialize (IH e a st Hall);
      destruct (Ingest1.process_songs rest e a st) as [[st2 s2] ev2]
    end. simpl in *.
    apply (T_trans _ ({[cleanSongTitle name]} ∪ existing, added) _ [_; _]);
      [by eapply T_rejected|done].
Qed.

Lemma process_page1_steps page existing added s :
  T (existing, added) (Ingest1.process_page page existing added s).1.1
    (Ingest1.process_page page existing added s).2.
Proof.
  rewrite process_page_run.
  destruct (meting_search page (net s)) as [reply w].
  destruct (listed reply) as [songs|]; cbn [mbind option_bind]; [|apply T_search].
  destruct (Ingest1.new_songs songs existing) as [newSongs|] eqn:En;
    [|apply T_search].
  destruct (new_songs_spec _ _ _ En) as [Hns Hall].
  assert (Forall (fun song => is_Some (Ingest1.song_name song)) newSongs) as Hall'.
  { rewrite Hns. apply Forall_forall. intros x [_ Hx]%list_elem_of_filter.
    by eapply Forall_forall in Hall. }
  pose proof (process_songs1_steps newSongs existing added (Sys w (disk s)) Hall') as H.
  destruct (Ingest1.process_songs _ _ _ _) as [[st2 s2] ev2]. simpl in *.
  apply (T_trans _ (existing, added) _ [_]); [apply T_search|done].
Qed.

Lemma process_pages1_steps pages : forall existing added s,
  T (existing, added) (Ingest1.process_pages pages existing added s).1.1
    (Ingest1.process_pages pages existing added s).2.
Proof.
  induction pages as [|page rest IH]; intros existing added s; [apply T_refl|].
  cbn [Ingest1.process_pages]. unfold mbind, IO_bind, bind.
  pose proof (process_page1_steps page existing added s) as H1.
  destruct (Ingest1.process_page page existing added s) as [[[ex1 ad1] s1] ev1].
  specialize (IH ex1 ad1 s1).
  destruct (Ingest1.process_pages rest ex1 ad1 s1) as [[st2 s2] ev2].
  simpl in *. by eapply T_trans.
Qed.

End Ingest1Steps.

Section Counts.
Context {numbers : Numbers} {host : Host}.
Implicit Types (s : sys) (ev : list event) (set : list value).

Lemma counts2_refl st : counts2 st st [].
Proof. destruct st as [[set n] k]. unfold counts2. simpl. lia. Qed.

Lemma counts2_trans st st1 st2 ev1 ev2 :
  counts2 st st1 ev1 -> counts2 st1 st2 ev2 -> counts2 st st2 (ev1 ++ ev2).
Proof.
  destruct st as [[set n] k], st1 as [[set1 n1] k1], st2 as [[set2 n2] k2].
  unfold counts2. rewrite appended_app, fetched_app, !length_app. lia.
Qed.

Lemma add_length set v :
  Ingest2.has set v = false -> length (Ingest2.add set v) = S (length set).
Proof. unfold Ingest2.add. intros ->. rewrite length_app. simpl. lia. Qed.

Lemma process_pages2_counts pages set n k s :
  counts2 (set, n, k) (Ingest2.process_pages pages set n k s).1.1
    (Ingest2.process_pages pages set n k s).2.
Proof.
  apply (process_pages2_steps counts2 counts2_refl counts2_trans).
  - intros [[set0 n0] k0] page. unfold counts2. simpl. lia.
  - intros [[set0 n0] k0] id. unfold counts2. simpl. lia.
  - intros set0 n0 k0 title _. unfold counts2. simpl. lia.
  - intros set0 n0 k0 id title artist l Hhas _. unfold counts2. simpl.
    rewrite add_length by done. lia.
Qed.

(** ** The first ingestor *)

Lemma size_add_key (k : jsstring) (existing : gset jsstring) :
  (size ({[k]} ∪ existing) <= S (size existing))%nat.
Proof.
  rewrite size_union_alt, size_singleton.
  assert (existing ∖ {[k]} ⊆ existing) as H%subseteq_size by set_solver. lia.
Qed.

Lemma process_songs1_counts newSongs : forall existing added s,
  counts1 (existing, added) (Ingest1.process_songs newSongs existing added s).1.1
    (Ingest1.process_songs newSongs existing added s).2.
Proof.
  induction newSongs as [|song rest IH]; intros existing added s.
  - unfold counts1, Ingest1.process_songs, mret, IO_ret, ret. simpl.
    split; [lia|]. split; [lia|]. split; [done|lia].
  - cbn [Ingest1.process_songs]. unfold mbind, IO_bind, bind.
    rewrite getSongLyric_run.
    destruct (Ingest1.song_name song) as [name|] eqn:En.
    + destruct (song_name_id _ _ En) as [-> _].
      pose proof (size_add_key (cleanSongTitle name) existing) as Hsz.
      destruct (meting_lyric (song_id song) (net s)) as [reply w].
      destruct (Ingest1.lyric_record song reply) as [rec|].
      * rewrite writeLyricToFile_run.
        destruct (has_lyrics rec); unfold appendLine, mret, IO_ret, ret, delay;
          cbn [net disk];
          match goal with
          | |- context [Ingest1.process_songs rest ?e ?a ?st] =>
            specialize (IH e a st);
            destruct (Ingest1.process_songs rest e a st) as [[[ex2 ad2] s2] ev2]
          end; unfold counts1 in *; simpl in *;
          destruct IH as (H1 & H2 & H3 & H4);
          (split; [lia|split; [lia|split; [set_solver|lia]]]).
      * unfold mret, IO_ret, ret, delay; cbn [net disk].
        match goal with
        | |- context [Ingest1.process_songs rest ?e ?a ?st] =>
          specialize (IH e a st);
          destruct (Ingest1.process_songs rest e a st) as [[[ex2 ad2] s2] ev2]
        end. unfold counts1 in *. simpl in *.
        destruct IH as (H1 & H2 & H3 & H4).
        split; [lia|split; [lia|split; [set_solver|lia]]].
    + destruct (prop song "id") as [id|].
      * destruct (meting_lyric id (net s)) as [reply w].
        destruct (Ingest1.lyric_record song reply) as [rec|].
        -- rewrite writeLyricToFile_run.
           destruct (has_lyrics rec); unfold appendLine, mret, IO_ret, ret;
             unfold counts1; simpl; (split; [lia|split; [lia|split; [done|lia]]]).
        -- unfold mret, IO_ret, ret, counts1. simpl.
           split; [lia|]. split; [lia|]. split; [done|lia].
      * unfold mret, IO_ret, ret, counts1. simpl.
        split; [lia|]. split; [lia|]. split; [done|lia].
Qed.

Lemma counts1_trans st st1 st2 ev1 ev2 :
  counts1 st st1 ev1 -> counts1 st1 st2 ev2 -> counts1 st st2 (ev1 ++ ev2).
Proof.
  destruct st as [ex ad], st1 as [ex1 ad1], st2 as [ex2 ad2].
  unfold counts1. rewrite appended_app, fetched_app, !length_app. simpl.
  intros (? & ? & ? & ?) (? & ? & ? & ?).
  split; [lia|]. split; [lia|]. split; [set_solver|lia].
Qed.

Lemma process_page1_counts page existing added s :
  counts1 (existing, added) (Ingest1.process_page page existing added s).1.1
    (Ingest1.process_page page existing added s).2.
Proof.
  rewrite process_page_run.
  destruct (meting_search page (net s)) as [reply w].
  destruct (listed reply ≫= _) as [newSongs|].
  - pose proof (process_songs1_counts newSongs existing added (Sys w (disk s))) as H.
    destruct (Ingest1.process_songs _ _ _ _) as [[st2 s2] ev2]. simpl in *.
    unfold counts1 in *. simpl. destruct st2. exact H.
  - unfold counts1. simpl. split; [lia|]. split; [lia|]. split; [done|lia].
Qed.

Lemma process_pages1_counts pages : forall existing added s,
  counts1 (existing, added) (Ingest1.process_pages pages existing added s).1.1
    (Ingest1.process_pages pages existing added s).2.
Proof.
  induction pages as [|page rest IH]; intros existing added s.
  - unfold counts1, Ingest1.process_pages, mret, IO_ret, ret. simpl.
    split; [lia|]. split; [lia|]. split; [done|lia].
  - cbn [Ingest1.process_pages]. unfold mbind, IO_bind, bind.
    pose proof (process_page1_counts page existing added s) as H1.
    destruct (Ingest1.process_page page existing added s) as [[[ex1 ad1] s1] ev1].
    specialize (IH ex1 ad1 s1).
    destruct (Ingest1.process_pages rest ex1 ad1 s1) as [[st2 s2] ev2].
    simpl in *. by eapply counts1_trans.
Qed.

End Counts.

Section WholeRuns.
Context {numbers : Numbers} {host : Host}.
Implicit Types (s : sys) (ev : list event).

Lemma searchLuoTianyiSongs1_run initialPage pageCount s :
  Ingest1.searchLuoTianyiSongs initialPage pageCount s =
  let '(s0, ev0) := ingest1_start s in
  let '((existing, added), s', ev) :=
    Ingest1.process_pages (Ingest1.page_range initialPage pageCount)
      (Ingest1.loadExistingSongs s).1.1 0%nat s0 in
  ((added, size existing), s', ev0 ++ ev).
Proof.
  unfold Ingest1.searchLuoTianyiSongs, mbind at 1, IO_bind, bind, ingest1_start.
  rewrite loadExistingSongs1_run.
  unfold mbind, IO_bind, bind, existsSync, writeFileSync, mret, IO_ret, ret.
  destruct (disk s !! Ingest1.LYRICS_FILE_PATH) as [content|] eqn:Ed; cbn [disk net fst snd].
  - rewrite Ed. rewrite bool_decide_eq_true_2 by (by eexists).
    destruct (Ingest1.process_pages _ _ _ _) as [[[ex' ad'] s'] ev].
    simpl. by rewrite app_nil_r.
  - rewrite Ed. rewrite bool_decide_eq_false_2 by (by intros [? ?]).
    destruct (Ingest1.process_pages _ _ _ _) as [[[ex' ad'] s'] ev].
    simpl. by rewrite app_nil_r.
Qed.

Lemma searchLuoTianyiSongs2_run initialPage pageCount s :
  Ingest2.searchLuoTianyiSongs initialPage pageCount s =
  let '((set, n, k), s', ev) :=
    Ingest2.process_pages (Ingest1.page_range initialPage pageCount)
      (Ingest2.loadExistingSongs s).1.1 0%nat 0%nat s in
  ((n, k, length set), s', (Ingest2.loadExistingSongs s).2 ++ ev).
Proof.
  unfold Ingest2.searchLuoTianyiSongs, mbind at 1, IO_bind, bind.
  rewrite loadExistingSongs2_run.
  unfold mbind, IO_bind, bind, mret, IO_ret, ret.
  destruct (disk s !! Ingest2.LYRICS_FILE_PATH) as [content|] eqn:Ed; cbn [fst snd].
  - destruct (Ingest2.process_pages _ _ _ _ _) as [[[[set' n'] k'] s'] ev].
    simpl. by rewrite app_nil_r.
  - destruct (Ingest2.process_pages _ _ _ _ _) as [[[[set' n'] k'] s'] ev].
    simpl. by rewrite app_nil_r.
Qed.

Lemma ingest1_start_quiet s :
  appended (ingest1_start s).2 = [] /\ fetched (ingest1_start s).2 = [].
Proof.
  unfold ingest1_start. by destruct (disk s !! Ingest1.LYRICS_FILE_PATH).
Qed.

Lemma loadExistingSongs2_quiet s :
  appended (Ingest2.loadExistingSongs s).2 = [] /\
  fetched (Ingest2.loadExistingSongs s).2 = [].
Proof.
  rewrite loadExistingSongs2_run. by destruct (disk s !! Ingest2.LYRICS_FILE_PATH).
Qed.

(** ** The records written *)

Lemma ingest1_record_intro song name reply rec :
  Ingest1.song_name song = Some name ->
  Ingest1.lyric_record song reply = Some rec -> has_lyrics rec = true ->
  ingest1_record rec.
Proof.
  intros En Er Hl.
  destruct (lyric_record_inv _ _ _ Er) as (d & l & pm & nm & _ & _ & _ & _ & Hpm & Hnm & ->).
  unfold Ingest1.song_name in En. rewrite Hnm in En.
  destruct nm as [| |?|?|title|?|?]; try done. injection En as ->.
  exists name, pm, (Ingest1.cleanLyrics l). split; [done|]. split; [|split].
  - unfold Ingest1.p_masters_of in Hpm.
    destruct (prop song "artist") as [artist|] eqn:Ea; [|done].
    by destruct (p_masters_of_shape song artist pm Ea) as [? _];
      [unfold Ingest1.p_masters_of; rewrite Ea|].
  - intros E.
    change (nonempty (Ingest1.cleanLyrics l) = true) in Hl. by rewrite E in Hl.
  - apply collapse_tidy.
Qed.

End WholeRuns.

Lemma appended_Forall_app {numbers : Numbers} (P : value -> Prop)
    (ev1 ev2 : list event) :
  Forall P (appended ev1) -> Forall P (appended ev2) ->
  Forall P (appended (ev1 ++ ev2)).
Proof. intros H1 H2. rewrite appended_app. by apply Forall_app. Qed.

(** X11.  The number of songs that the first ingestor reports as added is at
    least the number of records it appended and at most the number of
    lyric fetches; the size of the set that it reports as the number of
    songs in the store is at least the number of keys loaded and exceeds
    it by at most the number of lyric fetches. *)
Theorem ingest1_report_bounds {numbers : Numbers} {host : Host}
    (initialPage pageCount : Z) (s : sys) :
  let '((added, total), _, ev) :=
    Ingest1.searchLuoTianyiSongs initialPage pageCount s in
  let loaded := (Ingest1.loadExistingSongs s).1.1 in
  (length (appended ev) <= added <= length (fetched ev))%nat /\
  (size loaded <= total <= size loaded + length (fetched ev))%nat.
Proof.
  rewrite searchLuoTianyiSongs1_run.
  destruct (ingest1_start_quiet s) as [Ha Hf].
  destruct (ingest1_start s) as [s0 ev0].
  pose proof (process_pages1_counts (Ingest1.page_range initialPage pageCount)
                (Ingest1.loadExistingSongs s).1.1 0%nat s0) as H.
  destruct (Ingest1.process_pages _ _ _ _) as [[[ex' ad'] s'] ev].
  unfold counts1 in H. simpl in *.
  rewrite appended_app, fetched_app, Ha, Hf. simpl.
  destruct H as (H1 & H2 & H3%subseteq_size & H4). lia.
Qed.

(** The count can exceed the records appended: a track whose lyric text
    is a single timing tag is counted as added and nothing is written. *)
Example ingest1_counts_unsaved_track :
  let r := Ingest1.searchLuoTianyiSongs (numbers:=MiniJSON.Z_numbers)
             (host:=Examples.CATALOGUE_TAG_ONLY) 1 1
             (Examples.fresh Examples.CATALOGUE_TAG_ONLY) in
  r.1.1 = (1%nat, 1%nat) /\ appended r.2 = [].
Proof. vm_compute. split; reflexivity. Qed.

(** X19.  The second ingestor reports as new songs exactly the number of
    records it appended, and as the final total the number of titles
    loaded plus that number; every record appended comes after a lyric
    fetch of its own. *)
Theorem ingest2_report_is_exact {numbers : Numbers} {host : Host}
    (initialPage pageCount : Z) (s : sys) :
  let '((newSongs, skippedSongs, total), _, ev) :=
    Ingest2.searchLuoTianyiSongs initialPage pageCount s in
  let loaded := (Ingest2.loadExistingSongs s).1.1 in
  newSongs = length (appended ev) /\
  total = (length loaded + newSongs)%nat /\
  (newSongs <= length (fetched ev))%nat.
Proof.
  rewrite searchLuoTianyiSongs2_run.
  destruct (loadExistingSongs2_quiet s) as [Ha Hf].
  pose proof (process_pages2_counts (Ingest1.page_range initialPage pageCount)
                (Ingest2.loadExistingSongs s).1.1 0%nat 0%nat s) as H.
  destruct (Ingest2.process_pages _ _ _ _ _) as [[[[set' n'] k'] s'] ev].
  unfold counts2 in H. simpl in *.
  rewrite appended_app, fetched_app, Ha, Hf. simpl. lia.
Qed.

(** X12.  Every record that the first ingestor appends is an object with the
    fields [song_title], [p_masters] and [lyrics] in this order, whose
    title is a string, whose [p_masters] is a flat list of strings and
    whose lyrics are not empty, have no white space at either end and
    never three line feeds in a row. *)
Theorem ingest1_saves_tidy_records {numbers : Numbers} {host : Host}
    (initialPage pageCount : Z) (s : sys) :
  Forall ingest1_record
    (appended (Ingest1.searchLuoTianyiSongs initialPage pageCount s).2).
Proof.
  rewrite searchLuoTianyiSongs1_run.
  destruct (ingest1_start_quiet s) as [Ha _].
  destruct (ingest1_start s) as [s0 ev0].
  assert (Forall ingest1_record
            (appended (Ingest1.process_pages
                         (Ingest1.page_range initialPage pageCount)
                         (Ingest1.loadExistingSongs s).1.1 0%nat s0).2)) as H.
  { apply (process_pages1_steps
             (fun _ _ ev => Forall ingest1_record (appended ev))).
    - by constructor.
    - intros _ _ _ ev1 ev2. apply appended_Forall_app.
    - by constructor.
    - intros _ _ song name reply rec En Er Hl. repeat constructor.
      by eapply ingest1_record_intro.
    - by constructor.
    - by constructor. }
  destruct (Ingest1.process_pages _ _ _ _) as [[[ex' ad'] s'] ev].
  simpl in *. rewrite appended_app, Ha. exact H.
Qed.

(** X20.  Every record that the second ingestor appends is an object with the
    fields [song_title], [p_masters] and [lyrics] in this order, whose
    lyrics do not hold the instrumental marker and have no empty line and
    no line with white space at either end.  (They may be empty.) *)
Theorem ingest2_saves_clean_records {numbers : Numbers} {host : Host}
    (initialPage pageCount : Z) (s : sys) :
  Forall ingest2_record
    (appended (Ingest2.searchLuoTianyiSongs initialPage pageCount s).2).
Proof.
  rewrite searchLuoTianyiSongs2_run.
  destruct (loadExistingSongs2_quiet s) as [Ha _].
  assert (Forall ingest2_record
            (appended (Ingest2.process_pages
                         (Ingest1.page_range initialPage pageCount)
                         (Ingest2.loadExistingSongs s).1.1 0%nat 0%nat s).2)) as H.
  { apply (process_pages2_steps
             (fun _ _ ev => Forall ingest2_record (appended ev))).
    - by constructor.
    - intros _ _ _ ev1 ev2. apply appended_Forall_app.
    - by constructor.
    - by constructor.
    - by constructor.
    - intros _ _ _ id title artist l _ Hi. repeat constructor.
      exists title, artist, (Ingest2.cleanLyrics l).
      split; [done|]. split; [done|]. apply lines_tidy. }
  destruct (Ingest2.process_pages _ _ _ _ _) as [[[[set' n'] k'] s'] ev].
  simpl in *. rewrite appended_app, Ha. exact H.
Qed.

(** A title that is in the set is a primitive value, and prints. *)
Lemma has_prints {numbers : Numbers} (set : list value) (title : value) :
  Ingest2.has set title = true -> is_Some (to_String title).
Proof.
  unfold Ingest2.has. intros (v & _ & Hv)%existsb_exists.
  destruct title as [| |b|n|t|items|props]; try (by destruct v).
  destruct b; by eexists.
Qed.

(** X17.  When the title of every track of a page is in the set already, the
    second ingestor fetches no lyric for the page and appends nothing: it
    only counts the tracks as skipped. *)
Theorem ingest2_skips_known_tracks {numbers : Numbers} {host : Host}
    (songs set : list value) (newSongs skippedSongs : nat) (s : sys) :
  Forall (fun song => exists title, prop song "name" = Some title /\
                                    Ingest2.has set title = true) songs ->
  Ingest2.process_songs songs set newSongs skippedSongs s =
  ((set, newSongs, (skippedSongs + length songs)%nat), s, []).
Proof.
  revert skippedSongs. induction songs as [|song rest IH]; intros skippedSongs.
  - intros _. simpl. by rewrite Nat.add_0_r.
  - intros [(title & Hn & Hh) Hall]%Forall_cons. cbn [Ingest2.process_songs].
    rewrite Hn. destruct (prop song "artist") eqn:Ea.
    + destruct (has_prints _ _ Hh) as [printed ->].
      rewrite Hh, (IH _ Hall). simpl. do 3 f_equal. lia.
    + by destruct song.
Qed.

(** * The store between runs *)

Section BetweenRuns.
Context {numbers : Numbers} {host : Host}.
Implicit Types (s : sys) (ev : list event) (rec : value).

Lemma split_lines_app a b :
  split_lines (a ++ LF :: b) = split_lines a ++ split_lines b.
Proof.
  induction a as [|c a IH]; [done|]. cbn [app split_lines].
  rewrite IH. destruct (c =? LF); [done|].
  destruct (split_lines a) as [|l ls] eqn:E; [|done].
  exfalso. destruct a as [|x a]; [done|]. simpl in E.
  destruct (x =? LF); [done|]. by destruct (split_lines a).
Qed.

Lemma nonblank_lines_app a b :
  nonblank_lines (a ++ LF :: b) = nonblank_lines a ++ nonblank_lines b.
Proof. unfold nonblank_lines. by rewrite split_lines_app, filter_app. Qed.

Lemma nonblank_lines_after old text :
  ends_lines old = true ->
  nonblank_lines (old ++ text) = nonblank_lines old ++ nonblank_lines text.
Proof.
  unfold ends_lines. destruct (last old) as [c|] eqn:El.
  - apply last_Some in El as [o ->]. intros ->%N.eqb_eq.
    rewrite <- app_assoc. cbn [app]. rewrite nonblank_lines_app.
    replace (o ++ [LF]) with (o ++ LF :: [] ) by done.
    rewrite nonblank_lines_app. by rewrite app_nil_r.
  - apply last_None in El as ->. done.
Qed.

Lemma nonblank_lines_store (records : list value) :
  Forall storable records ->
  nonblank_lines (store_lines records) = JSON_stringify <$> records.
Proof.
  induction 1 as [|rec records (Hs & Hn & _) _ IH]; [done|].
  unfold store_lines. cbn [map concat fmap list_fmap].
  rewrite <- app_assoc. cbn [app]. rewrite nonblank_lines_app.
  fold (store_lines records). rewrite IH. f_equal.
  unfold nonblank_lines. rewrite split_lines_single by done.
  by rewrite filter_cons, decide_True by done.
Qed.

Lemma store_lines_ends (records : list value) old :
  ends_lines old = true -> ends_lines (old ++ store_lines records) = true.
Proof.
  intros Ho. induction records as [|rec records IH] using rev_ind.
  - unfold store_lines. simpl. by rewrite app_nil_r.
  - rewrite store_lines_app. unfold store_lines at 2. simpl.
    rewrite app_nil_r, !app_assoc. unfold ends_lines. rewrite last_snoc.
    apply N.eqb_refl.
Qed.

Lemma existing_title_stored rec :
  storable rec -> Ingest1.existing_title (JSON_stringify rec) = stored_key rec.
Proof.
  intros (_ & _ & Hp). unfold Ingest1.existing_title, stored_key.
  rewrite Hp. cbn [mbind option_bind].
  destruct (prop rec "song_title") as [title|]; [|done].
  destruct title as [| |b|n|[|c t]|items|props];
    cbn [mbind option_bind truthy nonempty]; try done.
  - by destruct b.
  - by destruct (number_truthy n).
Qed.

Lemma load_line_stored set rec :
  storable rec ->
  Ingest2.load_line set (JSON_stringify rec) =
  match prop rec "song_title" with
  | Some title => if truthy title then Ingest2.add set title else set
  | None => set
  end.
Proof. intros (_ & _ & Hp). unfold Ingest2.load_line. by rewrite Hp. Qed.

(** The files after a run of the first ingestor. *)
Lemma searchLuoTianyiSongs1_disk initialPage pageCount s :
  disk (Ingest1.searchLuoTianyiSongs initialPage pageCount s).1.2 =
  <[Ingest1.LYRICS_FILE_PATH :=
      default [] (disk s !! Ingest1.LYRICS_FILE_PATH)
      ++ store_lines
           (appended (Ingest1.searchLuoTianyiSongs initialPage pageCount s).2)]>
    (disk s).
Proof.
  rewrite searchLuoTianyiSongs1_run.
  destruct (ingest1_start_quiet s) as [Ha _].
  pose proof (process_pages1_appends
                (Ingest1.page_range initialPage pageCount)
                (Ingest1.loadExistingSongs s).1.1 0%nat (ingest1_start s).1) as Hp.
  unfold ingest1_start in *.
  destruct (disk s !! Ingest1.LYRICS_FILE_PATH) as [content|] eqn:Ed;
    cbn [fst snd] in *;
    destruct (Ingest1.process_pages _ _ _ _) as [[[ex' ad'] s'] ev];
    unfold appends_only in Hp; simpl in *.
  - destruct (appended ev).
    + rewrite Hp. unfold store_lines. simpl. rewrite app_nil_r.
      by rewrite insert_id.
    + by rewrite Hp, Ed.
  - destruct (appended ev).
    + by rewrite Hp.
    + rewrite Hp, lookup_insert_eq. simpl. by rewrite insert_insert_eq.
Qed.

(** The files after a run of the second ingestor. *)
Lemma searchLuoTianyiSongs2_disk initialPage pageCount s :
  appends_only s (Ingest2.searchLuoTianyiSongs initialPage pageCount s).1.2
    (Ingest2.searchLuoTianyiSongs initialPage pageCount s).2.
Proof.
  rewrite searchLuoTianyiSongs2_run.
  destruct (loadExistingSongs2_quiet s) as [Ha _].
  pose proof (process_pages2_appends
                (Ingest1.page_range initialPage pageCount)
                (Ingest2.loadExistingSongs s).1.1 0%nat 0%nat s) as Hp.
  destruct (Ingest2.process_pages _ _ _ _ _) as [[[[set' n'] k'] s'] ev].
  unfold appends_only in *. simpl in *. by rewrite appended_app, Ha.
Qed.

Lemma foldl_load_has (records : list value) : forall set v,
  Ingest2.has set v = true ->
  Ingest2.has (foldl Ingest2.load_line set (JSON_stringify <$> records)) v = true.
Proof.
  induction records as [|rec records IH]; intros set v Hv; [done|].
  cbn [fmap list_fmap foldl]. apply IH. unfold Ingest2.load_line.
  destruct (parse_line _ ≫= _) as [title|]; [|done].
  destruct (truthy title); [|done]. by apply has_add_mono.
Qed.

End BetweenRuns.

(** X13.  What a run of the first ingestor saved, the next run knows: when the
    store was empty, missing or ended in a line feed, and the records
    appended can be stored as JSON lines, loading the titles after the run
    gives the keys loaded before it together with the keys of the records
    appended.  So the key of every record appended under a title that is
    not empty is in the set from which the next run starts. *)
Theorem ingest1_knows_what_it_saved {numbers : Numbers} {host : Host}
    (initialPage pageCount : Z) (s s' : sys) (r : nat * nat) (ev : list event) :
  Ingest1.searchLuoTianyiSongs initialPage pageCount s = (r, s', ev) ->
  ends_lines (default [] (disk s !! Ingest1.LYRICS_FILE_PATH)) = true ->
  Forall storable (appended ev) ->
  (Ingest1.loadExistingSongs s').1.1 =
    list_to_set (omap stored_key (appended ev)) ∪ (Ingest1.loadExistingSongs s).1.1 /\
  (forall rec title, rec ∈ appended ev -> raw_title rec = Some title ->
     title <> [] -> cleanSongTitle title ∈ (Ingest1.loadExistingSongs s').1.1).
Proof.
  intros E He Hs.
  pose proof (searchLuoTianyiSongs1_disk initialPage pageCount s) as Hd.
  rewrite E in Hd. cbn [fst snd] in Hd.
  assert ((Ingest1.loadExistingSongs s').1.1 =
          list_to_set (omap stored_key (appended ev))
          ∪ (Ingest1.loadExistingSongs s).1.1) as Hload.
  { rewrite !loadExistingSongs1_run, Hd, lookup_insert_eq.
    rewrite nonblank_lines_after, nonblank_lines_store by done.
    rewrite omap_app, list_to_set_app_L.
    assert (omap Ingest1.existing_title (JSON_stringify <$> appended ev)
            = omap stored_key (appended ev)) as ->.
    { clear -Hs. induction Hs as [|rec l Hr _ IH]; [done|].
      cbn [fmap list_fmap omap list_omap]. by rewrite IH, existing_title_stored. }
    destruct (disk s !! Ingest1.LYRICS_FILE_PATH) as [content|]; cbn; set_solver. }
  split; [exact Hload|].
  intros rec title Hin Ht Hne. rewrite Hload.
  apply elem_of_union_l, elem_of_list_to_set, list_elem_of_omap.
  exists rec. split; [done|]. unfold raw_title in Ht. unfold stored_key.
  destruct (prop rec "song_title") as [[| |?|?|t|?|?]|]; try done.
  injection Ht as ->. by destruct title.
Qed.

(** X22.  What a run of the second ingestor saved, the next run knows:
    when the store was empty, missing or ended in a line feed, and the
    records appended can be stored as JSON lines, the title of every
    record appended, when it is a string that is not empty, is in the set
    that is loaded after the run, and so is every title that was loaded
    before it.  The titles are kept as they are. *)
Theorem ingest2_knows_what_it_saved {numbers : Numbers} {host : Host}
    (initialPage pageCount : Z) (s s' : sys) (r : nat * nat * nat)
    (ev : list event) :
  Ingest2.searchLuoTianyiSongs initialPage pageCount s = (r, s', ev) ->
  ends_lines (default [] (disk s !! Ingest2.LYRICS_FILE_PATH)) = true ->
  Forall storable (appended ev) ->
  (forall rec title, rec ∈ appended ev -> raw_title rec = Some title ->
     title <> [] ->
     Ingest2.has (Ingest2.loadExistingSongs s').1.1 (VString title) = true) /\
  (forall v, Ingest2.has (Ingest2.loadExistingSongs s).1.1 v = true ->
     Ingest2.has (Ingest2.loadExistingSongs s').1.1 v = true).
Proof.
  intros E He Hs.
  pose proof (searchLuoTianyiSongs2_disk initialPage pageCount s) as Hd.
  rewrite E in Hd. cbn [fst snd] in Hd. unfold appends_only in Hd.
  change Ingest2.LYRICS_FILE_PATH with Ingest1.LYRICS_FILE_PATH in *.
  assert ((Ingest2.loadExistingSongs s').1.1 =
          foldl Ingest2.load_line (Ingest2.loadExistingSongs s).1.1
                (JSON_stringify <$> appended ev)) as Hload.
  { rewrite !loadExistingSongs2_run.
    change Ingest2.LYRICS_FILE_PATH with Ingest1.LYRICS_FILE_PATH.
    destruct (appended ev) as [|rec0 recs] eqn:Ea.
    - rewrite Hd. by destruct (disk s !! Ingest1.LYRICS_FILE_PATH).
    - rewrite Hd, lookup_insert_eq.
      rewrite nonblank_lines_after, nonblank_lines_store by done.
      rewrite foldl_app.
      by destruct (disk s !! Ingest1.LYRICS_FILE_PATH). }
  rewrite Hload. split; [|intros v; apply foldl_load_has].
  clear Hload Hd E He.
  generalize (Ingest2.loadExistingSongs s).1.1 as set.
  induction Hs as [|rec0 recs Hr _ IH]; intros set rec title Hin Ht Hne;
    [by apply elem_of_nil in Hin|].
  cbn [fmap list_fmap foldl].
  apply elem_of_cons in Hin as [->|Hin]; [|by eapply IH].
  apply foldl_load_has. rewrite load_line_stored by done.
  unfold raw_title in Ht.
  destruct (prop rec0 "song_title") as [[| |?|?|t|?|?]|]; try done.
  injection Ht as ->. destruct title as [|c title]; [done|]. cbn [truthy nonempty].
  apply has_add_string.
Qed.

(** * The batch clean pass, record by record *)

Section RecordFacts.
Context {numbers : Numbers} {host : Host}.
Implicit Types (props : list (jsstring * value)) (k : jsstring) (x v rec : value).

Lemma put_keys props k x :
  (put props k x).*1 =
  match own props k with
  | Some _ => props.*1
  | None => props.*1 ++ [k]
  end.
Proof.
  induction props as [|[k' v] props IH]; [done|]. cbn [put own].
  destruct (str_eqb k' k); [done|]. cbn [fmap list_fmap fst]. rewrite IH.
  by destruct (own props k).
Qed.

Lemma put_same props k x : own props k = Some x -> put props k x = props.
Proof.
  induction props as [|[k' v] props IH]; [done|]. cbn [put own].
  destruct (str_eqb k' k); [by intros [= ->]|]. intros H. by rewrite IH.
Qed.

Lemma LYRICS_ne_P_MASTERS : js "lyrics" <> js "p_masters".
Proof. by vm_compute. Qed.

Lemma cleanP_masters_strings (items : list value) :
  Forall (fun x => is_string x = true) items ->
  CleanExisting.cleanP_masters (VArray items) = Some items.
Proof.
  intros H. cbn [CleanExisting.cleanP_masters]. f_equal.
  induction H as [|x items Hx _ IH]; [done|].
  destruct x; try done. unfold flat in *. cbn [map concat app].
  rewrite filter_cons, decide_True by done. by rewrite IH.
Qed.

Lemma cleanP_masters_all_strings v out :
  CleanExisting.cleanP_masters v = Some out ->
  Forall (fun x => is_string x = true) out.
Proof. intros H. by apply cleanP_masters_shape in H as [? _]. Qed.

(** What [clean_record] makes of an object. *)
Lemma clean_record_object props rec :
  CleanExisting.clean_record (VObject props) = Some rec ->
  exists props1 cleaned,
    rec = VObject (put props1 (js "p_masters") (VArray cleaned)) /\
    CleanExisting.cleanP_masters
      (default VUndefined (own props (js "p_masters"))) = Some cleaned /\
    match own props (js "lyrics") with
    | Some (VString (c :: l)) =>
      props1 = put props (js "lyrics")
                 (VString (CleanExisting.cleanLyrics (c :: l)))
    | _ => props1 = props
    end.
Proof.
  unfold CleanExisting.clean_record. cbn [mbind option_bind prop].
  destruct (own props (js "lyrics")) as [l|] eqn:El; cbn [default from_option id].
  - destruct l as [| |b|n|[|c l]|items|ps]; cbn [truthy nonempty];
      try (destruct b); try (destruct (number_truthy n)); try done;
      cbn [assign mbind option_bind prop];
      rewrite ?own_put_ne by apply LYRICS_ne_P_MASTERS;
      (destruct (CleanExisting.cleanP_masters _) as [cleaned|] eqn:Ec; [|done]);
      intros [= <-]; by eexists _, cleaned.
  - cbn [truthy assign mbind option_bind prop].
    destruct (CleanExisting.cleanP_masters _) as [cleaned|] eqn:Ec; [|done].
    intros [= <-]. by eexists _, cleaned.
Qed.

Lemma clean_record_inv songData rec :
  CleanExisting.clean_record songData = Some rec ->
  (exists items, songData = VArray items /\ rec = songData) \/
  (exists props, songData = VObject props).
Proof.
  destruct songData as [| |b|n|s|items|props]; try done; [|by right; eexists].
  intros H. left. exists items. split; [done|].
  unfold CleanExisting.clean_record in H. simpl in H. by injection H.
Qed.

(** A record that is clean already is a fixed point. *)
Lemma clean_record_fixed props cleaned :
  own props (js "p_masters") = Some (VArray cleaned) ->
  Forall (fun x => is_string x = true) cleaned ->
  (forall v, own props (js "lyrics") = Some v -> truthy v = true ->
     exists l, v = VString l /\ CleanExisting.cleanLyrics l = l) ->
  CleanExisting.clean_record (VObject props) = Some (VObject props).
Proof.
  intros Hp Hs Hl. unfold CleanExisting.clean_record. cbn [mbind option_bind prop].
  assert (CleanExisting.cleanP_masters
            (default VUndefined (own props (js "p_masters"))) ≫=
            (fun cleaned0 => assign (VObject props) "p_masters" (VArray cleaned0))
          = Some (VObject props)) as Hrest.
  { rewrite Hp. cbn [default from_option id].
    rewrite cleanP_masters_strings by done. cbn [mbind option_bind assign].
    by rewrite put_same. }
  destruct (own props (js "lyrics")) as [v|] eqn:El; cbn [default from_option id].
  - destruct (truthy v) eqn:Et; [|exact Hrest].
    destruct (Hl v eq_refl Et) as (l & -> & Hfix).
    cbn [assign mbind option_bind]. by rewrite Hfix, (put_same _ _ _ El).
  - exact Hrest.
Qed.

End RecordFacts.

(** X23.  The batch clean pass keeps the fields of a record and their order:
    but for [lyrics] and [p_masters] every field comes out with the value
    it had, no field is dropped, and the only field that can be added is
    [p_masters], at the end, when the record had none.  A line that holds
    an array is written back as it is; a line that holds any other value
    is skipped. *)
Theorem clean_record_keeps_fields {numbers : Numbers} (songData rec : value) :
  CleanExisting.clean_record songData = Some rec ->
  (exists items, songData = VArray items /\ rec = songData) \/
  (exists props props',
     songData = VObject props /\ rec = VObject props' /\
     (forall k, k <> js "lyrics" -> k <> js "p_masters" ->
        own props' k = own props k) /\
     props'.*1 = props.*1 ++ match own props (js "p_masters") with
                             | Some _ => []
                             | None => [js "p_masters"]
                             end).
Proof.
  intros H. destruct (clean_record_inv _ _ H) as [?|[props ->]]; [by left|right].
  destruct (clean_record_object _ _ H) as (props1 & cleaned & -> & _ & H1).
  exists props, (put props1 (js "p_masters") (VArray cleaned)).
  split; [done|]. split; [done|].
  assert (own props1 (js "p_masters") = own props (js "p_masters") /\
          props1.*1 = props.*1 /\
          forall k, k <> js "lyrics" -> own props1 k = own props k) as (Hp & Hk & Ho).
  { destruct (own props (js "lyrics")) as [[| |?|?|[|c l]|?|?]|] eqn:El;
      try (by subst props1).
    subst props1. split; [apply own_put_ne, LYRICS_ne_P_MASTERS|].
    split; [by rewrite put_keys, El|]. intros k Hk. by apply own_put_ne. }
  split.
  - intros k Hl Hpm. rewrite own_put_ne by done. by apply Ho.
  - rewrite put_keys, Hp, Hk. destruct (own props (js "p_masters")); [|done].
    by rewrite app_nil_r.
Qed.

(** Cleaning a cleaned record changes nothing, when no bracket of its
    lyrics was nested in a bracket that is not a tag. *)
Lemma clean_record_twice {numbers : Numbers} (songData rec : value) :
  CleanExisting.clean_record songData = Some rec ->
  (forall l, prop songData "lyrics" = Some (VString l) ->
     unnested TAG_FRACTION_OPTIONAL l = true) ->
  CleanExisting.clean_record rec = Some rec.
Proof.
  intros H Hu. destruct (clean_record_inv _ _ H) as [(items & -> & ->)|[props ->]];
    [done|].
  destruct (clean_record_object _ _ H) as (props1 & cleaned & -> & Hc & H1).
  apply (clean_record_fixed _ cleaned);
    [apply own_put|by eapply cleanP_masters_all_strings|].
  intros v. rewrite own_put_ne by (intros E; by apply LYRICS_ne_P_MASTERS).
  cbn [prop] in Hu. intros Ev Et.
  assert (exists c l, own props (js "lyrics") = Some (VString (c :: l)) /\
            v = VString (CleanExisting.cleanLyrics (c :: l))) as (c & l & El & ->).
  { destruct (own props (js "lyrics")) as [[| |b|n|[|c l]|items|ps]|] eqn:El;
      subst props1; rewrite ?El in Ev; try (injection Ev as <-); try done;
      try (clear -H El Et; exfalso; unfold CleanExisting.clean_record in H;
           cbn [mbind option_bind prop] in H; rewrite El in H;
           cbn [default from_option id] in H; by rewrite Et in H).
    rewrite own_put in Ev. injection Ev as <-. by exists c, l. }
  eexists. split; [done|]. apply (cleaned_fixed Collapsing). split.
  - apply cleanLyrics_collapse_no_tag, Hu. by rewrite El.
  - apply collapse_tidy.
Qed.

(** X24.  The batch clean pass leaves a record of the first ingestor as it is,
    when no bracket of the raw lyric text was nested in a bracket that is
    not a tag. *)
Theorem clean_pass_keeps_ingested_record {numbers : Numbers} {host : Host}
    (song rec : value) (reply : option jsstring) :
  Ingest1.lyric_record song reply = Some rec ->
  (forall lyricData l, reply ≫= JSON_parse = Some lyricData ->
     prop lyricData "lyric" = Some (VString l) ->
     unnested TAG_FRACTION_OPTIONAL l = true) ->
  CleanExisting.clean_record rec = Some rec.
Proof.
  intros Hr Hu.
  destruct (lyric_record_inv _ _ _ Hr)
    as (d & l & pm & name & Hd & Hl & _ & _ & Hpm & _ & ->).
  apply (clean_record_fixed _ pm); [done| |].
  - unfold Ingest1.p_masters_of in Hpm.
    destruct (prop song "artist") as [artist|] eqn:Ea; [|done].
    by destruct (p_masters_of_shape song artist pm Ea) as [? _];
      [unfold Ingest1.p_masters_of; rewrite Ea|].
  - intros v Ev _. exists (Ingest1.cleanLyrics l). split; [by injection Ev|].
    apply (cleaned_fixed Collapsing). split.
    + apply cleanLyrics_collapse_no_tag. by eapply Hu.
    + apply collapse_tidy.
Qed.

(** X25.  Running the batch clean pass a second time changes nothing: when the
    records that the first pass wrote can be stored as JSON lines, and no
    bracket of the lyrics was nested in a bracket that is not a tag, the
    second pass processes every line, skips none and writes the store
    that it found. *)
Theorem clean_pass_twice {numbers : Numbers} {host : Host}
    (s : sys) (content : jsstring) :
  disk s !! CleanExisting.LYRICS_FILE_PATH = Some content ->
  let lines := nonblank_lines content in
  let records := omap CleanExisting.process_line lines in
  Forall storable records ->
  Forall (fun line => forall songData l,
            parse_line line = Some songData ->
            prop songData "lyrics" = Some (VString l) ->
            unnested TAG_FRACTION_OPTIONAL l = true) lines ->
  let s1 := (CleanExisting.cleanExistingLyrics s).1.2 in
  CleanExisting.cleanExistingLyrics s1 =
  (Some (records, length records, 0%nat), s1,
   [ExistsSync CleanExisting.LYRICS_FILE_PATH;
    ReadFileSync CleanExisting.LYRICS_FILE_PATH;
    WriteFileSync CleanExisting.LYRICS_FILE_PATH (jsonl records)]).
Proof.
  intros Hc lines records Hs Hu s1.
  pose proof (cleanExistingLyrics_run s content Hc) as H1. cbv zeta in H1.
  fold lines in H1. fold records in H1.
  assert (s1 = Sys (net s)
                 (<[CleanExisting.LYRICS_FILE_PATH := jsonl records]> (disk s)))
    as Es1 by (unfold s1; by rewrite H1).
  assert (disk s1 !! CleanExisting.LYRICS_FILE_PATH = Some (jsonl records)) as Hc1
    by (rewrite Es1; apply lookup_insert_eq).
  assert (nonblank_lines (jsonl records) = JSON_stringify <$> records) as Hl.
  { unfold jsonl. rewrite nonblank_lines_join; [done|].
    apply Forall_fmap. eapply Forall_impl; [exact Hs|]. by intros r (? & ? & _). }
  assert (omap CleanExisting.process_line (JSON_stringify <$> records) = records
          /\ filter (fun line => CleanExisting.process_line line = None)
                    (JSON_stringify <$> records) = []) as [Ho Hf].
  { assert (Forall (fun r => CleanExisting.process_line (JSON_stringify r) = Some r)
                   records) as Hall.
    { apply Forall_forall. intros r Hr.
      apply list_elem_of_omap in Hr as (line & Hline & Hr).
      eapply Forall_forall in Hu; [|exact Hline].
      eapply Forall_forall in Hs; [|by apply list_elem_of_omap; eexists].
      destruct Hs as (_ & _ & Hp).
      unfold CleanExisting.process_line in *. rewrite Hp. cbn [mbind option_bind].
      destruct (parse_line line) as [songData|] eqn:Ep; [|done].
      cbn [mbind option_bind] in Hr. eapply clean_record_twice; [exact Hr|].
      intros l. by apply Hu. }
    clear -Hall. induction Hall as [|r rs Hr _ [IH1 IH2]]; [done|].
    cbn [fmap list_fmap omap list_omap]. rewrite Hr, IH1.
    rewrite filter_cons, decide_False by (by rewrite Hr). done. }
  rewrite (cleanExistingLyrics_run s1 _ Hc1). cbv zeta. rewrite Hl, Ho, Hf.
  f_equal. f_equal. rewrite Es1. cbn [net disk]. by rewrite insert_insert_eq.
Qed.

(** * The pass of [clean_lyrics.js] *)

Section ProcessJsonlFacts.
Context {numbers : Numbers} {host : Host} {comparisons : Comparisons}.
Implicit Types (s : sys) (line : jsstring).

Lemma process_lines_jsonl_spec lines : forall processedLines,
  ProcessJsonl.process_lines lines processedLines =
  processedLines ++
  map JSON_stringify
    (omap ProcessJsonl.process_line
       (filter (fun line => nonempty (trim line) = true) lines)).
Proof.
  induction lines as [|line rest IH]; intros acc; [by rewrite app_nil_r|].
  cbn [ProcessJsonl.process_lines]. rewrite filter_cons.
  destruct (nonempty (trim line)) eqn:En.
  - rewrite decide_True by done. cbn [omap list_omap].
    destruct (ProcessJsonl.process_line line) as [rec|]; [|apply IH].
    rewrite IH, <- app_assoc. done.
  - rewrite decide_False by done. apply IH.
Qed.

Lemma first_p_master_length v first :
  ProcessJsonl.first_p_master v = Some first -> (length first <= 1)%nat.
Proof.
  unfold ProcessJsonl.first_p_master.
  destruct (truthy v); [|intros [= <-]; simpl; lia].
  destruct v as [| |b|n|[|c l]|[|x items]|props];
    try (intros [= <-]; simpl; lia).
  destruct (ProcessJsonl.greater_than_zero _) as [[|]|]; [| |done];
    intros [= <-]; simpl; lia.
Qed.

Lemma process_line_jsonl_inv line rec :
  ProcessJsonl.process_line line = Some rec ->
  exists props raw first,
    parse_line line = Some (VObject props) /\
    own props (js "lyrics") = Some (VString raw) /\
    ProcessJsonl.first_p_master
      (default VUndefined (own props (js "p_masters"))) = Some first /\
    str_eqb raw CleanLyrics.NOT_FOUND = false /\
    includes raw CleanLyrics.FETCH_FAILED = false /\
    nonempty (trim (CleanLyrics.cleanLyrics raw)) = true /\
    includes (CleanLyrics.cleanLyrics raw) PURE_MUSIC = false /\
    rec = VObject [(js "song_title", default VUndefined (own props (js "song_title")));
                   (js "p_masters", VArray first);
                   (js "lyrics", VString (CleanLyrics.cleanLyrics raw))].
Proof.
  unfold ProcessJsonl.process_line.
  destruct (parse_line line) as [songData|]; [|done]. cbn [mbind option_bind].
  destruct (CleanLyrics.usable_lyrics songData) as [cleaned| |] eqn:Eu; try done.
  pose proof (usable_lyrics_kept _ _ Eu) as [Hn Hi].
  unfold CleanLyrics.usable_lyrics in Eu.
  destruct songData as [| |b|n|s0|items|props]; try done.
  cbn [prop] in *. cbn [mbind option_bind].
  destruct (own props (js "lyrics")) as [l|] eqn:El; [|done].
  cbn [default from_option id] in Eu.
  destruct (truthy l); [|done].
  destruct l as [| |b|n|raw|items|ps]; try done; [|by destruct (existsb _ _)].
  destruct (str_eqb raw CleanLyrics.NOT_FOUND) eqn:E1; [done|].
  destruct (includes raw CleanLyrics.FETCH_FAILED) eqn:E2; [done|].
  destruct (str_eqb raw PURE_MUSIC) eqn:E3; [done|]. cbn [orb] in Eu.
  destruct (negb _ || _) eqn:E4; [done|]. injection Eu as <-.
  destruct (ProcessJsonl.first_p_master _) as [first|] eqn:Ef; [|done].
  cbn [mbind option_bind]. intros [= <-]. by exists props, raw, first.
Qed.

Lemma processJsonlFile_run s :
  ProcessJsonl.processJsonlFile s =
  match disk s !! ProcessJsonl.INPUT_FILE_PATH with
  | Some content =>
    let records := omap ProcessJsonl.process_line (nonblank_lines content) in
    (Some (length (split_lines content), length records),
     Sys (net s) (<[ProcessJsonl.OUTPUT_FILE_PATH := jsonl records]> (disk s)),
     [ReadFileSync ProcessJsonl.INPUT_FILE_PATH;
      WriteFileSync ProcessJsonl.OUTPUT_FILE_PATH (jsonl records)])
  | None => (None, s, [ReadFileSync ProcessJsonl.INPUT_FILE_PATH])
  end.
Proof.
  unfold ProcessJsonl.processJsonlFile, mbind, IO_bind, bind, readFileSync,
    writeFileSync, mret, IO_ret, ret.
  destruct (disk s !! ProcessJsonl.INPUT_FILE_PATH) as [content|]; [|done].
  rewrite process_lines_jsonl_spec. cbn [app net disk].
  fold (nonblank_lines content). unfold jsonl.
  by rewrite length_map.
Qed.

End ProcessJsonlFacts.

(** X26.  [processJsonlFile] reads the input file once and writes the output
    file once: the records of the lines that are kept, one per line and in
    their order.  The input file and every other file stay as they were;
    no more lines are written than were read.  When the input file cannot
    be read, nothing is written at all. *)
Theorem processJsonlFile_writes_kept_lines {numbers : Numbers} {host : Host}
    {comparisons : Comparisons} (s : sys) :
  let '(r, s', ev) := ProcessJsonl.processJsonlFile s in
  match disk s !! ProcessJsonl.INPUT_FILE_PATH with
  | Some content =>
    let records := omap ProcessJsonl.process_line (nonblank_lines content) in
    r = Some (length (split_lines content), length records) /\
    ev = [ReadFileSync ProcessJsonl.INPUT_FILE_PATH;
          WriteFileSync ProcessJsonl.OUTPUT_FILE_PATH (jsonl records)] /\
    disk s' !! ProcessJsonl.OUTPUT_FILE_PATH = Some (jsonl records) /\
    (forall p, p <> ProcessJsonl.OUTPUT_FILE_PATH -> disk s' !! p = disk s !! p) /\
    disk s' !! ProcessJsonl.INPUT_FILE_PATH = Some content /\
    (length records <= length (split_lines content))%nat
  | None =>
    r = None /\ s' = s /\ ev = [ReadFileSync ProcessJsonl.INPUT_FILE_PATH]
  end.
Proof.
  rewrite processJsonlFile_run.
  destruct (disk s !! ProcessJsonl.INPUT_FILE_PATH) as [content|] eqn:Ed; [|done].
  cbv zeta. cbn [disk]. split; [done|]. split; [done|].
  split; [apply lookup_insert_eq|]. split; [|split].
  - intros p Hp. by rewrite lookup_insert_ne.
  - by rewrite lookup_insert_ne.
  - pose proof (length_omap_filter ProcessJsonl.process_line
                  (nonblank_lines content)) as H1.
    pose proof (length_filter (fun line => nonempty (trim line) = true)
                  (split_lines content)) as H2.
    unfold nonblank_lines in *. lia.
Qed.

(** X28.  Every record that [processJsonlFile] prints has exactly the fields
    [song_title], [p_masters] and [lyrics]: the title as the line had it,
    at most one producer, and as lyrics the cleaned lyrics of the line,
    which are not blank, have no empty line and no line with white space
    at either end, and do not hold the instrumental marker.  Of a list of
    producers the first is kept; of a producer given as a string, its
    first code unit. *)
Theorem processJsonlFile_record_shape {numbers : Numbers} {host : Host}
    {comparisons : Comparisons} (line : jsstring) (rec : value) :
  ProcessJsonl.process_line line = Some rec ->
  jsonl_record rec /\
  exists songData,
    parse_line line = Some songData /\
    prop rec "song_title" = prop songData "song_title" /\
    (forall raw, prop songData "lyrics" = Some (VString raw) ->
       prop rec "lyrics" = Some (VString (CleanLyrics.cleanLyrics raw))) /\
    (forall x items, prop songData "p_masters" = Some (VArray (x :: items)) ->
       prop rec "p_masters" = Some (VArray [x])) /\
    (forall c name, prop songData "p_masters" = Some (VString (c :: name)) ->
       prop rec "p_masters" = Some (VArray [VString [c]])).
Proof.
  intros (props & raw & first & Hp & Hl & Hf & _ & _ & Hn & Hi & ->)%process_line_jsonl_inv.
  split.
  - eexists _, first, _. split; [done|]. split; [by eapply first_p_master_length|].
    split; [by destruct (CleanLyrics.cleanLyrics raw)|].
    split; [apply lines_tidy|]. split; [apply lines_tidy|done].
  - exists (VObject props). split; [done|]. split; [done|]. cbn [prop].
    split; [|split].
    + intros raw'. rewrite Hl. by intros [= <-].
    + intros x items [= E]. rewrite E in Hf. cbn in Hf. by injection Hf as <-.
    + intros c name [= E]. rewrite E in Hf. cbn in Hf. by injection Hf as <-.
Qed.

(** * Loading, and pages that fail *)

Section LoadFacts.
Context {numbers : Numbers} {host : Host}.
Implicit Types (s : sys) (line title : jsstring) (set : list value).

Lemma existing_title_Some line k :
  Ingest1.existing_title line = Some k <->
  exists title,
    parse_line line ≫= (fun songData => prop songData "song_title")
      = Some (VString title) /\
    title <> [] /\ k = cleanSongTitle title.
Proof.
  unfold Ingest1.existing_title.
  destruct (parse_line line) as [songData|]; cbn [mbind option_bind];
    [|split; [done|by intros (? & ? & _)]].
  destruct (prop songData "song_title") as [v|]; cbn [mbind option_bind];
    [|split; [done|by intros (? & ? & _)]].
  assert ((exists c t, v = VString (c :: t)) \/
          (if truthy v then match v with VString s => Some (cleanSongTitle s)
                                       | _ => None end
           else None) = None /\ forall c t, v <> VString (c :: t)) as Hv.
  { destruct v as [| |b|n|[|c t]|items|props]; cbn [truthy nonempty];
      try (by right); [by right; destruct b|by right; destruct (number_truthy n)|].
    left. by exists c, t. }
  destruct Hv as [(c & t & ->)|[-> Hv]].
  - cbn [truthy nonempty]. split.
    + intros [= <-]. by exists (c :: t).
    + intros (title & [= <-] & _ & ->). done.
  - split; [done|].
    intros (title & [= ->] & Hne & _). exfalso.
    destruct title as [|c t]; [done|]. by apply (Hv c t).
Qed.

Lemma same_value_zero_string title v :
  same_value_zero (VString title) v = true <-> v = VString title.
Proof.
  destruct v; cbn [same_value_zero]; try (split; done).
  rewrite str_eqb_eq. split; [by intros ->|by intros [= ->]].
Qed.

Lemma has_add_string_iff set v title :
  Ingest2.has (Ingest2.add set v) (VString title) = true <->
  Ingest2.has set (VString title) = true \/ v = VString title.
Proof.
  unfold Ingest2.add. destruct (Ingest2.has set v) eqn:Hv.
  - split; [by left|]. intros [?| ->]; done.
  - unfold Ingest2.has in *. rewrite existsb_app. cbn [existsb].
    rewrite orb_false_r, orb_true_iff, same_value_zero_string. done.
Qed.

Lemma foldl_load_line_has lines : forall set title,
  title <> [] ->
  Ingest2.has (foldl Ingest2.load_line set lines) (VString title) = true <->
  Ingest2.has set (VString title) = true \/
  exists line, line ∈ lines /\
    parse_line line ≫= (fun songData => prop songData "song_title")
      = Some (VString title).
Proof.
  induction lines as [|line rest IH]; intros set title Hne; cbn [foldl].
  - split; [by left|]. intros [?|(line & ?%elem_of_nil & _)]; done.
  - rewrite IH by done. unfold Ingest2.load_line.
    destruct (parse_line line ≫= _) as [v|] eqn:Ev.
    + destruct (truthy v) eqn:Et.
      * rewrite has_add_string_iff. split.
        -- intros [[?| ->]|(l & Hl & E)]; [by left| |].
           ++ right. exists line. split; [left|done].
           ++ right. exists l. split; [by right|done].
        -- intros [?|(l & [->|Hl]%elem_of_cons & E)]; [by left; left| |].
           ++ left. right. congruence.
           ++ right. by exists l.
      * split.
        -- intros [?|(l & Hl & E)]; [by left|]. right. exists l.
           split; [by right|done].
        -- intros [?|(l & [->|Hl]%elem_of_cons & E)]; [by left| |].
           ++ rewrite E in Ev. injection Ev as <-. by destruct title.
           ++ right. by exists l.
    + split.
      * intros [?|(l & Hl & E)]; [by left|]. right. exists l.
        split; [by right|done].
      * intros [?|(l & [->|Hl]%elem_of_cons & E)]; [by left|congruence|].
        right. by exists l.
Qed.

Lemma p_masters_agree song artist :
  prop song "artist" = Some artist -> artist <> VString [] ->
  Ingest1.p_masters_of song = CleanExisting.cleanP_masters artist.
Proof.
  intros Ha Hne. unfold Ingest1.p_masters_of. rewrite Ha. cbn [mbind option_bind].
  destruct artist as [| |b|n|[|c t]|items|props];
    cbn [truthy nonempty CleanExisting.cleanP_masters]; try done;
    try (by destruct b); by destruct (number_truthy n).
Qed.

End LoadFacts.

(** X7.  Loading the titles for the first ingestor changes nothing and makes
    no call but asking for the store and reading it.  The set that it
    gives holds exactly the keys of the lines that parse and carry a title
    that is a string and not empty; every key in it is its own key.  It is
    empty when there is no store. *)
Theorem ingest1_loads_keys {numbers : Numbers} {host : Host} (s : sys) :
  let '(existing, s', ev) := Ingest1.loadExistingSongs s in
  s' = s /\
  Forall (fun e => e = ExistsSync Ingest1.LYRICS_FILE_PATH \/
                   e = ReadFileSync Ingest1.LYRICS_FILE_PATH) ev /\
  (disk s !! Ingest1.LYRICS_FILE_PATH = None -> existing = ∅) /\
  (forall k, k ∈ existing <->
     exists line title,
       line ∈ nonblank_lines (default [] (disk s !! Ingest1.LYRICS_FILE_PATH)) /\
       parse_line line ≫= (fun songData => prop songData "song_title")
         = Some (VString title) /\
       title <> [] /\ k = cleanSongTitle title) /\
  (forall k, k ∈ existing -> cleanSongTitle k = k).
Proof.
  rewrite loadExistingSongs1_run.
  assert (forall content k,
    k ∈@{gset jsstring}
      list_to_set (omap Ingest1.existing_title (nonblank_lines content)) <->
    exists line title,
      line ∈ nonblank_lines content /\
      parse_line line ≫= (fun songData => prop songData "song_title")
        = Some (VString title) /\
      title <> [] /\ k = cleanSongTitle title) as Hkeys.
  { intros content k. rewrite elem_of_list_to_set, list_elem_of_omap. split.
    - intros (line & Hl & (title & ? & ? & ?)%existing_title_Some).
      by exists line, title.
    - intros (line & title & Hl & ? & ? & ?). exists line. split; [done|].
      apply existing_title_Some. by exists title. }
  destruct (disk s !! Ingest1.LYRICS_FILE_PATH) as [content|] eqn:Ed;
    cbn [default from_option id].
  - split; [done|]. split; [repeat (constructor; [auto|]); by constructor|]. split; [done|].
    split; [apply Hkeys|].
    intros k (line & title & _ & _ & _ & ->)%Hkeys. apply cleanSongTitle_idem.
  - split; [done|]. split; [repeat (constructor; [auto|]); by constructor|]. split; [done|].
    split; [|set_solver]. split; [set_solver|].
    intros (line & title & Hl & _). unfold nonblank_lines in Hl. simpl in Hl.
    by apply elem_of_nil in Hl.
Qed.

(** X15.  Loading the titles for the second ingestor changes nothing either.
    A string that is not empty is in the set exactly when it is the title
    of a line that parses: the titles are kept as they stand, brackets
    and all. *)
Theorem ingest2_loads_raw_titles {numbers : Numbers} {host : Host} (s : sys) :
  let '(set, s', ev) := Ingest2.loadExistingSongs s in
  s' = s /\
  Forall (fun e => e = ExistsSync Ingest2.LYRICS_FILE_PATH \/
                   e = ReadFileSync Ingest2.LYRICS_FILE_PATH) ev /\
  (disk s !! Ingest2.LYRICS_FILE_PATH = None -> set = []) /\
  (forall title, title <> [] ->
     Ingest2.has set (VString title) = true <->
     exists line,
       line ∈ nonblank_lines (default [] (disk s !! Ingest2.LYRICS_FILE_PATH)) /\
       parse_line line ≫= (fun songData => prop songData "song_title")
         = Some (VString title)).
Proof.
  rewrite loadExistingSongs2_run.
  destruct (disk s !! Ingest2.LYRICS_FILE_PATH) as [content|] eqn:Ed;
    cbn [default from_option id].
  - split; [done|]. split; [repeat (constructor; [auto|]); by constructor|]. split; [done|].
    intros title Hne. rewrite foldl_load_line_has by done.
    split; [by intros [?|?]|by right].
  - split; [done|]. split; [repeat (constructor; [auto|]); by constructor|]. split; [done|].
    intros title Hne. split; [done|]. intros (line & Hl & _).
    unfold nonblank_lines in Hl. simpl in Hl. by apply elem_of_nil in Hl.
Qed.

(** X14.  The producers of a track are listed by the first ingestor as the
    batch clean pass lists the producers of a stored record, whatever the
    value, but for the empty string: the ingestor makes an empty list of
    it and the clean pass a list that holds the empty string. *)
Theorem p_masters_rules_agree {numbers : Numbers} (song artist : value) :
  prop song "artist" = Some artist ->
  (artist <> VString [] ->
   Ingest1.p_masters_of song = CleanExisting.cleanP_masters artist) /\
  (artist = VString [] ->
   Ingest1.p_masters_of song = Some [] /\
   CleanExisting.cleanP_masters artist = Some [VString []]).
Proof.
  intros Ha. split; [by apply p_masters_agree|].
  intros ->. unfold Ingest1.p_masters_of. by rewrite Ha.
Qed.

(** X9.  The first ingestor leaves a page as a whole when the reply is not a
    list or when one of its tracks has no name that is a string: nothing
    is fetched, nothing appended, and the set and the count stay as they
    were. *)
Theorem ingest1_skips_broken_page {numbers : Numbers} {host : Host}
    (page : Z) (existing : gset jsstring) (added : nat) (s : sys) :
  let reply := (meting_search page (net s)).1 in
  (listed reply = None \/
   exists songs song, listed reply = Some songs /\ song ∈ songs /\
                      Ingest1.song_name song = None) ->
  Ingest1.process_page page existing added s =
  ((existing, added), Sys (meting_search page (net s)).2 (disk s),
   [SearchPage page]).
Proof.
  cbv zeta. rewrite process_page_run.
  destruct (meting_search page (net s)) as [reply w]. cbn [fst snd].
  intros [->|(songs & song & -> & Hin & Hn)]; [done|]. cbn [mbind option_bind].
  destruct (Ingest1.new_songs songs existing) as [newSongs|] eqn:En; [|done].
  apply new_songs_spec in En as [_ Hall].
  eapply Forall_forall in Hall; [|exact Hin]. rewrite Hn in Hall.
  by destruct Hall.
Qed.

(** X6.  A title without a bracketed part has as its key the title without
    the white space around it; so two such titles have the same key only
    when they differ in nothing but white space at the ends. *)
Theorem cleanSongTitle_plain_titles (x y : jsstring) :
  occurs BRACKETED x = false -> occurs BRACKETED y = false ->
  cleanSongTitle x = trim x /\
  (cleanSongTitle x = cleanSongTitle y <-> trim x = trim y).
Proof.
  intros Hx Hy. unfold cleanSongTitle.
  by rewrite !replace_all_none by done.
Qed.

(** X27.  The lines that [processJsonlFile] keeps are exactly those that parse
    to an object whose lyrics are a string that is not one of the two
    placeholders of a failed fetch and not the instrumental marker, whose
    cleaned lyrics are not blank and do not hold the marker, and whose
    [p_masters] can be cut to its first entry. *)
Theorem processJsonlFile_keeps_exactly {numbers : Numbers} {host : Host}
    {comparisons : Comparisons} (line : jsstring) :
  is_Some (ProcessJsonl.process_line line) <->
  exists props raw,
    parse_line line = Some (VObject props) /\
    own props (js "lyrics") = Some (VString raw) /\
    raw <> CleanLyrics.NOT_FOUND /\
    includes raw CleanLyrics.FETCH_FAILED = false /\
    raw <> PURE_MUSIC /\
    trim (CleanLyrics.cleanLyrics raw) <> [] /\
    includes (CleanLyrics.cleanLyrics raw) PURE_MUSIC = false /\
    is_Some (ProcessJsonl.first_p_master
               (default VUndefined (own props (js "p_masters")))).
Proof.
  split.
  - intros [rec Hr]. pose proof Hr as Hr'.
    apply process_line_jsonl_inv in Hr
      as (props & raw & first & Hp & Hl & Hf & H1 & H2 & H3 & H4 & ->).
    exists props, raw. split; [done|]. split; [done|].
    split; [intros ->; by rewrite (proj2 (str_eqb_eq _ _) eq_refl) in H1|].
    split; [done|]. split.
    + intros ->. unfold ProcessJsonl.process_line in Hr'. rewrite Hp in Hr'.
      cbn [mbind option_bind] in Hr'.
      unfold CleanLyrics.usable_lyrics in Hr'. cbn [prop] in Hr'. rewrite Hl in Hr'.
      cbn [default from_option id] in Hr'.
      rewrite (proj2 (str_eqb_eq PURE_MUSIC PURE_MUSIC) eq_refl) in Hr'.
      rewrite !orb_true_r in Hr'. by destruct (truthy _).
    + split; [by destruct (trim _)|]. split; [done|by eexists].
  - intros (props & raw & Hp & Hl & H1 & H2 & H3 & H4 & H5 & [first Hf]).
    unfold ProcessJsonl.process_line. rewrite Hp. cbn [mbind option_bind].
    unfold CleanLyrics.usable_lyrics. cbn [prop]. rewrite Hl.
    cbn [default from_option id].
    assert (truthy (VString raw) = true) as ->.
    { destruct raw as [|c raw]; [|done]. exfalso. apply H4. done. }
    assert (str_eqb raw CleanLyrics.NOT_FOUND = false) as ->.
    { destruct (str_eqb _ _) eqn:E; [|done]. by apply str_eqb_eq in E. }
    assert (str_eqb raw PURE_MUSIC = false) as ->.
    { destruct (str_eqb _ _) eqn:E; [|done]. by apply str_eqb_eq in E. }
    rewrite H2, H5. cbn [orb].
    assert (nonempty (trim (CleanLyrics.cleanLyrics raw)) = true) as ->
      by (by destruct (trim _)).
    cbn [negb orb mbind option_bind]. rewrite Hf. cbn [mbind option_bind].
    by eexists.
Qed.

Ltac storable_by_evaluation :=
  match goal with
  | |- Forall ?P ?l =>
    let l' := eval vm_compute in l in
    change (Forall P l');
    repeat (apply Forall_cons; split;
            [split; [vm_compute; reflexivity
                    |split; [vm_compute; reflexivity|vm_compute; reflexivity]]|]);
    apply Forall_nil_2
  end.

Section CatalogueWitnesses.
#[local] Existing Instance MiniJSON.Z_numbers.
Import Examples MoreExamples.

Lemma ingest2_skips_known_tracks_witness :
  Forall (fun song => exists title, prop song "name" = Some title /\
                                    Ingest2.has KNOWN_TITLES title = true)
         PAGE_1_SONGS /\
  Ingest2.process_songs (host:=CATALOGUE) PAGE_1_SONGS KNOWN_TITLES 0%nat 0%nat
    (fresh CATALOGUE)
  = ((KNOWN_TITLES, 0%nat, (0 + length PAGE_1_SONGS)%nat), fresh CATALOGUE, []).
Proof.
  assert (Forall (fun song => exists title, prop song "name" = Some title /\
                                Ingest2.has KNOWN_TITLES title = true)
                 PAGE_1_SONGS) as H.
  { apply Forall_forall. intros song Hs.
    assert (PAGE_1_SONGS =
            [VObject [(js "id", VNumber 1%Z); (js "name", VString (js "勾指起誓"));
                      (js "artist", VArray [VString (js "ilem"); VString (js "洛天依")])];
             VObject [(js "id", VNumber 2%Z); (js "name", VString (js "夜曲"));
                      (js "artist", VString (js "洛天依"))]]) as E
      by (vm_compute; reflexivity).
    rewrite E in Hs.
    apply elem_of_cons in Hs as [->|Hs];
      [|apply list_elem_of_singleton in Hs as ->];
      eexists; (split; [vm_compute; reflexivity|vm_compute; reflexivity]). }
  split; [exact H|].
  exact (ingest2_skips_known_tracks (host:=CATALOGUE) _ _ _ _ _ H).
Defined.

Lemma ingest1_searches_every_page_witness :
  safe_pages 1 2 /\
  searched (Ingest1.searchLuoTianyiSongs (host:=CATALOGUE) 1 2
              (fresh CATALOGUE)).2 = [1; 2]%Z.
Proof.
  assert (safe_pages 1 2) as H
    by (unfold safe_pages, safe_integer, MAX_SAFE_INTEGER; lia).
  split; [exact H|].
  exact (proj1 (ingest1_searches_every_page (host:=CATALOGUE) 1 2
                  (fresh CATALOGUE) H)).
Defined.

Lemma ingest2_searches_every_page_witness :
  safe_pages 1 2 /\
  searched (Ingest2.searchLuoTianyiSongs (host:=CATALOGUE) 1 2
              (fresh CATALOGUE)).2 = [1; 2]%Z.
Proof.
  assert (safe_pages 1 2) as H
    by (unfold safe_pages, safe_integer, MAX_SAFE_INTEGER; lia).
  split; [exact H|].
  exact (proj1 (ingest2_searches_every_page (host:=CATALOGUE) 1 2
                  (fresh CATALOGUE) H)).
Defined.

Lemma ingest1_knows_what_it_saved_witness :
  Ingest1.searchLuoTianyiSongs (host:=CATALOGUE) 1 2 (fresh CATALOGUE)
    = (RUN_1.1.1, RUN_1.1.2, RUN_1.2) /\
  ends_lines (default [] (disk (fresh CATALOGUE) !! Ingest1.LYRICS_FILE_PATH))
    = true /\
  Forall (storable (host:=CATALOGUE)) (appended RUN_1.2) /\
  length (appended RUN_1.2) = 2%nat /\
  (Ingest1.loadExistingSongs (host:=CATALOGUE) RUN_1.1.2).1.1 =
    list_to_set (omap stored_key (appended RUN_1.2))
    ∪ (Ingest1.loadExistingSongs (host:=CATALOGUE) (fresh CATALOGUE)).1.1.
Proof.
  assert (Ingest1.searchLuoTianyiSongs (host:=CATALOGUE) 1 2 (fresh CATALOGUE)
          = (RUN_1.1.1, RUN_1.1.2, RUN_1.2)) as E
    by (unfold RUN_1; by destruct (Ingest1.searchLuoTianyiSongs _ _ _) as [[? ?] ?]).
  assert (ends_lines
            (default [] (disk (fresh CATALOGUE) !! Ingest1.LYRICS_FILE_PATH)) = true)
    as He by reflexivity.
  assert (Forall (storable (host:=CATALOGUE)) (appended RUN_1.2)) as Hs
    by storable_by_evaluation.
  split; [exact E|]. split; [exact He|]. split; [exact Hs|].
  split; [vm_compute; reflexivity|].
  exact (proj1 (ingest1_knows_what_it_saved _ _ _ _ _ _ E He Hs)).
Defined.

Lemma ingest2_knows_what_it_saved_witness :
  Ingest2.searchLuoTianyiSongs (host:=CATALOGUE) 1 2 (fresh CATALOGUE)
    = (RUN_2.1.1, RUN_2.1.2, RUN_2.2) /\
  ends_lines (default [] (disk (fresh CATALOGUE) !! Ingest2.LYRICS_FILE_PATH))
    = true /\
  Forall (storable (host:=CATALOGUE)) (appended RUN_2.2) /\
  length (appended RUN_2.2) = 3%nat /\
  (forall rec title, rec ∈ appended RUN_2.2 -> raw_title rec = Some title ->
     title <> [] ->
     Ingest2.has (Ingest2.loadExistingSongs (host:=CATALOGUE) RUN_2.1.2).1.1
       (VString title) = true).
Proof.
  assert (Ingest2.searchLuoTianyiSongs (host:=CATALOGUE) 1 2 (fresh CATALOGUE)
          = (RUN_2.1.1, RUN_2.1.2, RUN_2.2)) as E
    by (unfold RUN_2; by destruct (Ingest2.searchLuoTianyiSongs _ _ _) as [[? ?] ?]).
  assert (ends_lines
            (default [] (disk (fresh CATALOGUE) !! Ingest2.LYRICS_FILE_PATH)) = true)
    as He by reflexivity.
  assert (Forall (storable (host:=CATALOGUE)) (appended RUN_2.2)) as Hs
    by storable_by_evaluation.
  split; [exact E|]. split; [exact He|]. split; [exact Hs|].
  split; [vm_compute; reflexivity|].
  exact (proj1 (ingest2_knows_what_it_saved _ _ _ _ _ _ E He Hs)).
Defined.

Lemma ingest2_appends_distinct_titles_witness :
  Ingest2.process_pages (host:=CATALOGUE) [1%Z; 2%Z] [] 0%nat 0%nat
    (fresh CATALOGUE)
    = ((PAGES_2.1.1.1.1, PAGES_2.1.1.1.2, PAGES_2.1.1.2), PAGES_2.1.2, PAGES_2.2) /\
  distinct_titles [] PAGES_2.1.1.1.1 PAGES_2.2 /\
  omap raw_title (appended PAGES_2.2)
    = [js "勾指起誓"; js "勾指起誓 (Live)"; js "达拉崩吧"].
Proof.
  assert (Ingest2.process_pages (host:=CATALOGUE) [1%Z; 2%Z] [] 0%nat 0%nat
            (fresh CATALOGUE)
          = ((PAGES_2.1.1.1.1, PAGES_2.1.1.1.2, PAGES_2.1.1.2),
             PAGES_2.1.2, PAGES_2.2)) as E
    by (unfold PAGES_2;
        by destruct (Ingest2.process_pages _ _ _ _ _) as [[[[? ?] ?] ?] ?]).
  split; [exact E|].
  split; [exact (ingest2_appends_distinct_titles (host:=CATALOGUE)
                   _ _ _ _ _ _ _ _ _ _ E)|].
  vm_compute. reflexivity.
Defined.

Lemma ingest1_skips_broken_page_witness :
  (listed (host:=CATALOGUE_UNNAMED)
     (meting_search (Host:=CATALOGUE_UNNAMED) 1%Z
        (net (fresh CATALOGUE_UNNAMED))).1 = None \/
   exists songs song,
     listed (host:=CATALOGUE_UNNAMED)
       (meting_search (Host:=CATALOGUE_UNNAMED) 1%Z
          (net (fresh CATALOGUE_UNNAMED))).1 = Some songs /\
     song ∈ songs /\ Ingest1.song_name song = None) /\
  Ingest1.process_page (host:=CATALOGUE_UNNAMED) 1%Z ∅ 0%nat
    (fresh CATALOGUE_UNNAMED) =
  ((∅, 0%nat),
   Sys (meting_search (Host:=CATALOGUE_UNNAMED) 1%Z
          (net (fresh CATALOGUE_UNNAMED))).2 (disk (fresh CATALOGUE_UNNAMED)),
   [SearchPage 1%Z]).
Proof.
  assert (listed (host:=CATALOGUE_UNNAMED)
            (meting_search (Host:=CATALOGUE_UNNAMED) 1%Z
               (net (fresh CATALOGUE_UNNAMED))).1 = None \/
          exists songs song,
            listed (host:=CATALOGUE_UNNAMED)
              (meting_search (Host:=CATALOGUE_UNNAMED) 1%Z
                 (net (fresh CATALOGUE_UNNAMED))).1 = Some songs /\
            song ∈ songs /\ Ingest1.song_name song = None) as H.
  { right.
    eexists _, UNNAMED_TRACK.
    split; [vm_compute; reflexivity|]. split; [right; left|reflexivity]. }
  split; [exact H|].
  exact (ingest1_skips_broken_page (host:=CATALOGUE_UNNAMED) 1%Z ∅ 0%nat
           (fresh CATALOGUE_UNNAMED) H).
Defined.

Lemma p_masters_rules_agree_witness :
  prop TRACK_REPEATED "artist"
    = Some (VArray [VString (js "洛天依"); VString (js "洛天依"); VString []]) /\
  VArray [VString (js "洛天依"); VString (js "洛天依"); VString []] <> VString [] /\
  Ingest1.p_masters_of TRACK_REPEATED =
  CleanExisting.cleanP_masters
    (VArray [VString (js "洛天依"); VString (js "洛天依"); VString []]).
Proof.
  assert (prop TRACK_REPEATED "artist"
          = Some (VArray [VString (js "洛天依"); VString (js "洛天依"); VString []]))
    as H by reflexivity.
  assert (VArray [VString (js "洛天依"); VString (js "洛天依"); VString []]
          <> VString []) as Hne by discriminate.
  split; [exact H|]. split; [exact Hne|].
  exact (proj1 (p_masters_rules_agree _ _ H) Hne).
Defined.

Lemma cleanSongTitle_plain_titles_witness :
  occurs BRACKETED (js " 夜曲 ") = false /\
  occurs BRACKETED (js "夜曲") = false /\
  cleanSongTitle (js " 夜曲 ") = cleanSongTitle (js "夜曲").
Proof.
  assert (occurs BRACKETED (js " 夜曲 ") = false) as Hx by (vm_compute; reflexivity).
  assert (occurs BRACKETED (js "夜曲") = false) as Hy by (vm_compute; reflexivity).
  split; [exact Hx|]. split; [exact Hy|].
  apply (proj2 (cleanSongTitle_plain_titles _ _ Hx Hy)). vm_compute. reflexivity.
Defined.

End CatalogueWitnesses.

Section OfflineWitnesses.
#[local] Existing Instance MiniJSON.Z_numbers.
#[local] Existing Instance MiniJSON.offline.
Import Examples MoreExamples.

Lemma clean_record_keeps_fields_witness :
  CleanExisting.clean_record PARSED_LINE = Some CLEANED_RECORD /\
  prop CLEANED_RECORD "id" = Some (VNumber 7%Z) /\
  ((exists items, PARSED_LINE = VArray items /\ CLEANED_RECORD = PARSED_LINE) \/
   (exists props props',
      PARSED_LINE = VObject props /\ CLEANED_RECORD = VObject props' /\
      (forall k, k <> js "lyrics" -> k <> js "p_masters" ->
         own props' k = own props k) /\
      props'.*1 = props.*1 ++ match own props (js "p_masters") with
                              | Some _ => []
                              | None => [js "p_masters"]
                              end)).
Proof.
  assert (CleanExisting.clean_record PARSED_LINE
          = Some CLEANED_RECORD) as H by (vm_compute; reflexivity).
  split; [exact H|]. split; [vm_compute; reflexivity|].
  exact (clean_record_keeps_fields _ _ H).
Defined.

Lemma clean_pass_keeps_ingested_record_witness :
  Ingest1.lyric_record TRACK_REPEATED (Some REPLY_LA)
    = Some INGESTED_RECORD /\
  (forall lyricData l,
     Some REPLY_LA ≫= JSON_parse = Some lyricData ->
     prop lyricData "lyric" = Some (VString l) ->
     unnested TAG_FRACTION_OPTIONAL l = true) /\
  CleanExisting.clean_record INGESTED_RECORD = Some INGESTED_RECORD.
Proof.
  assert (Ingest1.lyric_record TRACK_REPEATED (Some REPLY_LA)
          = Some INGESTED_RECORD) as H by (vm_compute; reflexivity).
  assert (forall lyricData l,
            Some REPLY_LA ≫= JSON_parse = Some lyricData ->
            prop lyricData "lyric" = Some (VString l) ->
            unnested TAG_FRACTION_OPTIONAL l = true) as Hu.
  { intros lyricData l Hd Hl. vm_compute in Hd. injection Hd as <-.
    vm_compute in Hl. injection Hl as <-. vm_compute. reflexivity. }
  split; [exact H|]. split; [exact Hu|].
  exact (clean_pass_keeps_ingested_record _ _ _ H Hu).
Defined.

Lemma processJsonlFile_record_shape_witness :
  ProcessJsonl.process_line LINE_STRING_PRODUCER
    = Some JSONL_RECORD /\
  jsonl_record JSONL_RECORD /\
  prop JSONL_RECORD "p_masters" = Some (VArray [VString (js "洛")]) /\
  prop JSONL_RECORD "lyrics" = Some (VString (js "la" ++ LF :: js "la")) /\
  prop JSONL_RECORD "id" = Some VUndefined.
Proof.
  assert (ProcessJsonl.process_line LINE_STRING_PRODUCER
          = Some JSONL_RECORD) as H by (vm_compute; reflexivity).
  split; [exact H|].
  split; [exact (proj1 (processJsonlFile_record_shape _ _ H))|].
  vm_compute. repeat split; reflexivity.
Defined.

Lemma clean_pass_twice_witness :
  disk store_4 !! CleanExisting.LYRICS_FILE_PATH = Some STORE_4 /\
  Forall (storable)
    (omap CleanExisting.process_line (nonblank_lines STORE_4)) /\
  Forall (fun line => forall songData l,
            parse_line line = Some songData ->
            prop songData "lyrics" = Some (VString l) ->
            unnested TAG_FRACTION_OPTIONAL l = true) (nonblank_lines STORE_4) /\
  CleanExisting.cleanExistingLyrics (CleanExisting.cleanExistingLyrics store_4).1.2 =
  (Some (omap CleanExisting.process_line (nonblank_lines STORE_4),
         length (omap CleanExisting.process_line (nonblank_lines STORE_4)), 0%nat),
   (CleanExisting.cleanExistingLyrics store_4).1.2,
   [ExistsSync CleanExisting.LYRICS_FILE_PATH;
    ReadFileSync CleanExisting.LYRICS_FILE_PATH;
    WriteFileSync CleanExisting.LYRICS_FILE_PATH
      (jsonl (omap CleanExisting.process_line (nonblank_lines STORE_4)))]).
Proof.
  assert (disk store_4 !! CleanExisting.LYRICS_FILE_PATH = Some STORE_4) as Hc
    by reflexivity.
  assert (Forall (storable)
            (omap CleanExisting.process_line (nonblank_lines STORE_4))) as Hs
    by storable_by_evaluation.
  assert (Forall (fun line => forall songData l,
            parse_line line = Some songData ->
            prop songData "lyrics" = Some (VString l) ->
            unnested TAG_FRACTION_OPTIONAL l = true) (nonblank_lines STORE_4)) as Hu.
  { match goal with
    | |- Forall ?P ?l =>
      let l' := eval vm_compute in l in change (Forall P l')
    end.
    repeat (apply Forall_cons; split;
            [intros songData l Hp Hl; vm_compute in Hp;
             first [discriminate Hp
                   |injection Hp as <-; vm_compute in Hl; injection Hl as <-;
                    vm_compute; reflexivity]|]).
    apply Forall_nil_2. }
  split; [exact Hc|]. split; [exact Hs|]. split; [exact Hu|].
  exact (clean_pass_twice store_4 STORE_4 Hc Hs Hu).
Defined.

End OfflineWitnesses.
